(** * QuickSync Drives: the lazy tree engines and the transfer orchestration

    A shallow embedding of the React components of [App.tsx] (the local
    [FileTree], the [RemoteFileTree], the [App] listeners) and of the
    configuration store [store/config.ts].

    Conventions of the embedding.
    - A React state cell is a field of a record; [setX (prev => f prev)] is
      the update of that field by [f].
    - A value a handler reads from its render closure (the [node] handed to
      [toggleFolder], the [iconCache] read by [getFileIcon], [pathStack] in
      [loadRemoteDir]) is an explicit argument of the handler.
    - The Tauri backend is a record of commands over an abstract world [W];
      every [invoke] appends the command to a trace, so that "no fetch is
      issued" is a statement about the trace.
    - A string is the UTF-8 text of the JavaScript string, so that the
      substring tests and the splits at ASCII characters are those of the
      code on well-formed text.
    - [String.prototype.toLowerCase] belongs to the engine, not to the
      repository. It is a parameter of the model ([Js.CaseFolding]), known
      only by what it does to ASCII text; whatever is proved holds for the
      engine's function on every text. *)

From Stdlib Require Import ZArith Ascii String.
From stdpp Require Import base option list strings pretty gmap.

Local Open Scope string_scope.
Local Open Scope list_scope.
Local Open Scope nat_scope.

(** ** JavaScript string primitives used by the components *)

Module Js.

(** The folding of the ASCII letters: [A-Z] to [a-z] and back, every other
    byte left alone. *)
Definition lower_ascii (c : ascii) : ascii :=
  let n := nat_of_ascii c in
  if (65 <=? n)%nat && (n <=? 90)%nat then ascii_of_nat (n + 32) else c.


Fixpoint lower_ascii_text (s : string) : string :=
  match s with
  | EmptyString => EmptyString
  | String c s' => String (lower_ascii c) (lower_ascii_text s')
  end.


(** A text without a byte above 127: ASCII text. *)
Fixpoint is_ascii (s : string) : bool :=
  match s with
  | EmptyString => true
  | String c s' => (nat_of_ascii c <? 128)%nat && is_ascii s'
  end.

(** [s.toLowerCase()]. The engine's function follows the Unicode case
    mappings; the model takes it as given and relies on one fact: on ASCII
    text it is the folding of the ASCII letters. *)
Class CaseFolding := {
  toLowerCase : string → string;
  toLowerCase_ascii : ∀ s : string, is_ascii s = true → toLowerCase s = lower_ascii_text s;
}.

(** The folding that leaves every non-ASCII byte alone: the engine's
    function on ASCII text, used for the worked examples, whose texts are
    ASCII. *)
Definition ascii_folding : CaseFolding :=
  {| toLowerCase := lower_ascii_text; toLowerCase_ascii := λ _ _, eq_refl |}.

(** [hay.startsWith(needle)] *)
Fixpoint startsWith (needle hay : string) : bool :=
  match needle, hay with
  | EmptyString, _ => true
  | String a n', String b h' => if Ascii.eqb a b then startsWith n' h' else false
  | String _ _, EmptyString => false
  end.

(** [hay.includes(needle)] *)
Fixpoint includes (needle hay : string) : bool :=
  startsWith needle hay ||
  match hay with
  | EmptyString => false
  | String _ h' => includes needle h'
  end.

(** The part of [s] after its last ["."], if [s] has one. *)
Fixpoint after_last_dot (s : string) : option string :=
  match s with
  | EmptyString => None
  | String c s' =>
      match after_last_dot s' with
      | Some r => Some r
      | None => if Ascii.eqb c "."%char then Some s' else None
      end
  end.

(** [filename.match(/\.([^.]+)$/)], reduced to its capture group: the
    non-empty run of non-dot characters that ends the name. *)
Definition extMatch (filename : string) : option string :=
  match after_last_dot filename with
  | Some EmptyString => None
  | Some r => Some r
  | None => None
  end.

(** The character class [[\\/]]. *)
Definition is_sep (c : ascii) : bool :=
  Ascii.eqb c "/"%char || Ascii.eqb c "\"%char.

(** The part of [s] after its last separator, if [s] has one. *)
Fixpoint after_last_sep (s : string) : option string :=
  match s with
  | EmptyString => None
  | String c s' =>
      match after_last_sep s' with
      | Some r => Some r
      | None => if is_sep c then Some s' else None
      end
  end.

(** [s.split(/[\\/]/).pop()]: the last piece of [s], all of [s] when it
    holds no separator. *)
Definition last_segment (s : string) : string :=
  match after_last_sep s with
  | Some r => r
  | None => s
  end.

(** [xs.join(sep)] *)
Fixpoint join (sep : string) (xs : list string) : string :=
  match xs with
  | [] => EmptyString
  | [x] => x
  | x :: xs' => x +:+ sep +:+ join sep xs'
  end.

End Js.

(** ** The configuration store's types ([store/config.ts]) *)

Module Config.

Record FtpConnection := mkFtpConnection {
  id : string;
  name : string;
  host : string;
  port : Z;
  username : string;
  password : option string;
  secure : option bool;
}.

Record CloudConnection := mkCloudConnection {
  cloud_id : string;
  provider : string;
  account_name : string;
  token : string;
}.

Record AppConfig := mkAppConfig {
  ftp_connections : list FtpConnection;
  cloud_connections : list CloudConnection;
}.

End Config.

(** ** Data model ([App.tsx], "Types") *)

Record FileEntry := mkFileEntry {
  name : string;
  path : string;
  is_dir : bool;
  size : Z;
}.

#[local] Set Warnings "-register-all".

(** [interface TreeNode extends FileEntry]: [children] absent means "not yet
    fetched", [Some []] means "fetched and empty". *)
Inductive TreeNode := mkTreeNode {
  entry :> FileEntry;
  children : option (list TreeNode);
  expanded : bool;
  loading : bool;
}.

Module RemoteEntry.
Record t := mk {
  name : string;
  is_dir : bool;
  size : option Z;
  last_modified : option string;
  id : option string;
}.
End RemoteEntry.

Record TransferProgress := mkTransferProgress {
  transfer_id : string;
  filename : string;
  progress : Z;
  total : Z;
  status : string;
}.

(** Modelled from the spec: the cloud descriptor
    [{provider, account_name, access_token}] that [App.tsx] reads from its
    [cloudConfig]; the revision of [store/config.ts] at hand still names the
    last field [token]. *)
Record CloudConnection := mkCloudConnection {
  cloud_id : string;
  provider : string;
  account_name : string;
  access_token : string;
}.

(** A breadcrumb of the cloud path stack: [{ id, name }]. *)
Record Crumb := mkCrumb { crumb_id : string; crumb_name : string }.

(** An element of [e.dataTransfer.files]: the [File]'s name and the [path]
    the webview may attach to it. *)
Record DroppedFile := mkDroppedFile {
  file_name : string;
  file_path : option string;
}.

(** JavaScript truthiness of an optional string: [undefined] and [""] are
    falsy. *)
Definition truthy (s : option string) : bool :=
  match s with
  | Some EmptyString | None => false
  | Some _ => true
  end.

(** ** The backend boundary *)

(** The outcome of an awaited [invoke]: the resolved value, or the rejection
    as the text [String(err)] prints. *)
Inductive Result (A : Type) :=
| Ok (a : A)
| Err (e : string).
Arguments Ok {A} a.
Arguments Err {A} e.

(** The Tauri commands the components invoke, with their arguments. *)
Inductive Call :=
| list_directory (path : string)
| get_file_icon (ext : string)
| copy_to_local (sourcePath destDir : string)
| upload_file (localPath remoteName : string)
| upload_cloud_file (provider token localPath : string) (remoteParentId : option string)
| list_remote_directory (path : option string)
| get_remote_pwd
| list_cloud_directory (provider token : string) (folderId : option string)
| load_config
| save_config (config : Config.AppConfig).

(** What the components leave behind for an observer: a backend command
    issued, or a line handed to [onTransferMsg] (the transfer log). *)
Inductive Event :=
| ECall (c : Call)
| EMsg (m : string).

Definition calls_of (tr : list Event) : list Call :=
  omap (λ e, match e with ECall c => Some c | EMsg _ => None end) tr.

Definition msgs_of (tr : list Event) : list string :=
  omap (λ e, match e with EMsg m => Some m | ECall _ => None end) tr.

(** Whether a command is the icon lookup of extension [ext]. *)
Definition is_icon_lookup_of (ext : string) (c : Call) : bool :=
  match c with get_file_icon e => String.eqb e ext | _ => false end.

(** How many icon lookups of [ext] a piece of trace holds. *)
Definition lookups (ext : string) (tr : list Event) : nat :=
  length (List.filter (is_icon_lookup_of ext) (calls_of tr)).

Definition is_copy_to_local (c : Call) : bool :=
  match c with copy_to_local _ _ => true | _ => false end.

Definition is_upload (c : Call) : bool :=
  match c with upload_file _ _ | upload_cloud_file _ _ _ _ => true | _ => false end.

Definition is_listing (c : Call) : bool :=
  match c with
  | list_directory _ | list_remote_directory _ | list_cloud_directory _ _ _ => true
  | _ => false
  end.

(** A backend answers each command and moves to a new world. *)
Record Backend (W : Type) := mkBackend {
  do_list_directory : string → W → Result (list FileEntry) * W;
  do_get_file_icon : string → W → Result string * W;
  do_copy_to_local : string → string → W → Result string * W;
  do_upload_file : string → string → W → Result string * W;
  do_upload_cloud_file : string → string → string → option string → W → Result string * W;
  do_list_remote_directory : option string → W → Result (list RemoteEntry.t) * W;
  do_get_remote_pwd : W → Result string * W;
  do_list_cloud_directory : string → string → option string → W → Result (list RemoteEntry.t) * W;
  do_load_config : W → Result Config.AppConfig * W;
  do_save_config : Config.AppConfig → W → Result unit * W;
}.
Arguments do_list_directory {W}.
Arguments do_get_file_icon {W}.
Arguments do_copy_to_local {W}.
Arguments do_upload_file {W}.
Arguments do_upload_cloud_file {W}.
Arguments do_list_remote_directory {W}.
Arguments do_get_remote_pwd {W}.
Arguments do_list_cloud_directory {W}.
Arguments do_load_config {W}.
Arguments do_save_config {W}.

(** ** Handlers as state transformers

    A handler runs over the state [S] of its component, the world of the
    backend and the trace. *)

Record Sys (W : Type) := mkSys { world : W; trace : list Event }.
Arguments mkSys {W}.
Arguments world {W}.
Arguments trace {W}.

Definition M (W S A : Type) : Type := S → Sys W → A * S * Sys W.

Definition ret {W S A} (a : A) : M W S A := λ s y, (a, s, y).

Definition bind {W S A B} (m : M W S A) (k : A → M W S B) : M W S B :=
  λ s y, let '(a, s', y') := m s y in k a s' y'.

Declare Scope handler_scope.
Delimit Scope handler_scope with handler.
Notation "'let*' x ':=' m 'in' k" := (bind m (λ x, k))
  (at level 10, x pattern, m at level 100, k at level 200) : handler_scope.
Notation "m '>>;' k" := (bind m (λ _, k))
  (at level 100, k at level 200, right associativity) : handler_scope.

Definition read {W S} : M W S S := λ s y, (s, s, y).
Definition modify {W S} (f : S → S) : M W S unit := λ s y, (tt, f s, y).
Definition emit {W S} (e : Event) : M W S unit :=
  λ s y, (tt, s, mkSys (world y) (trace y ++ [e])).

(** [await invoke(...)]: the command is logged, the backend answers. *)
Definition invoke {W S A} (c : Call) (run : W → Result A * W) : M W S (Result A) :=
  λ s y, let '(r, w') := run (world y) in (r, s, mkSys w' (trace y ++ [ECall c])).

(** [for (const x of xs) { body x }] *)
Fixpoint for_each {W S A} (xs : list A) (body : A → M W S unit) : M W S unit :=
  match xs with
  | [] => ret tt
  | x :: xs' => (body x >>; for_each xs' body)%handler
  end.

Definition final_state {W S A} (r : A * S * Sys W) : S := snd (fst r).
Definition final_value {W S A} (r : A * S * Sys W) : A := fst (fst r).
Definition final_sys {W S A} (r : A * S * Sys W) : Sys W := snd r.

Local Open Scope handler_scope.

(** ** The local tree: [function FileTree] *)

Module FileTree.

Record State := mkState {
  tree : list TreeNode;
  currentPath : string;
  error : option string;
  searchQuery : string;
  dragging : bool;
}.

Definition setTree (f : list TreeNode → list TreeNode) (s : State) : State :=
  mkState (f (tree s)) (currentPath s) (error s) (searchQuery s) (dragging s).
Definition setError (e : option string) (s : State) : State :=
  mkState (tree s) (currentPath s) e (searchQuery s) (dragging s).
Definition setCurrentPath (p : string) (s : State) : State :=
  mkState (tree s) p (error s) (searchQuery s) (dragging s).
Definition setSearchQuery (q : string) (s : State) : State :=
  mkState (tree s) (currentPath s) (error s) q (dragging s).
Definition setDragging (b : bool) (s : State) : State :=
  mkState (tree s) (currentPath s) (error s) (searchQuery s) b.

(** [!n.children]: an array, empty or not, is truthy. *)
Definition no_children (n : TreeNode) : bool :=
  match children n with Some _ => false | None => true end.

Definition with_children (n : TreeNode) (c : option (list TreeNode)) : TreeNode :=
  mkTreeNode (entry n) c (expanded n) (loading n).

(** [{ ...n, expanded: !n.expanded, loading: !n.expanded && !n.children }] *)
Definition toggled (n : TreeNode) : TreeNode :=
  mkTreeNode (entry n) (children n) (negb (expanded n))
             (negb (expanded n) && no_children n).

(** [{ ...n, children, loading: false }] *)
Definition filled (c : list TreeNode) (n : TreeNode) : TreeNode :=
  mkTreeNode (entry n) (Some c) (expanded n) false.

(** [n.children ? { ...n, children: f(n.children) } : n], the step both
    inner functions take at an inner level of the path. *)
Definition descend (f : list TreeNode → list TreeNode) (n : TreeNode) : TreeNode :=
  match children n with
  | Some c => with_children n (Some (f c))
  | None => n
  end.

(** The inner [update] of [toggleFolder]. The source recurses with
    [path.slice(1)], so the recursion is on the index path. *)
Fixpoint update (nodes : list TreeNode) (path : list nat) : list TreeNode :=
  match path with
  | [] => nodes
  | p :: rest =>
      imap (λ i n,
        match rest with
        | [] => if (i =? p)%nat then toggled n else n
        | _ :: _ =>
            if (i =? p)%nat then descend (λ c, update c rest) n else n
        end) nodes
  end.

(** The inner [setChildren] of [toggleFolder]; [c] is the [children]
    constant of the enclosing scope. *)
Fixpoint setChildren (c : list TreeNode) (nodes : list TreeNode) (path : list nat)
  : list TreeNode :=
  match path with
  | [] => nodes
  | p :: rest =>
      imap (λ i n,
        match rest with
        | [] => if (i =? p)%nat then filled c n else n
        | _ :: _ =>
            if (i =? p)%nat then descend (λ c', setChildren c c' rest) n else n
        end) nodes
  end.

(** The node an index path addresses: child [i] of the level, then on
    through the [children] of that node. *)
Fixpoint node_at (nodes : list TreeNode) (path : list nat) : option TreeNode :=
  match path with
  | [] => None
  | i :: rest =>
      match rest with
      | [] => nodes !! i
      | _ :: _ =>
          match nodes !! i with
          | Some n =>
              match children n with
              | Some c => node_at c rest
              | None => None
              end
          | None => None
          end
      end
  end.

(** The walk [update] and [setChildren] share, with the change made at the
    addressed node left open; used to reason about both at once. *)
Fixpoint modify_at (f : TreeNode → TreeNode) (nodes : list TreeNode) (path : list nat)
  : list TreeNode :=
  match path with
  | [] => nodes
  | p :: rest =>
      match rest with
      | [] => alter f p nodes
      | _ :: _ => alter (descend (λ c, modify_at f c rest)) p nodes
      end
  end.

(** A node without its subtree: its entry and its two flags. *)
Definition strip (n : TreeNode) : TreeNode := with_children n None.

(** [entries.map((e) => ({ ...e, children: undefined, expanded: false,
    loading: false }))] *)
Definition fresh (e : FileEntry) : TreeNode := mkTreeNode e None false false.

Section Handlers.
Context {W : Type} (B : Backend W).

Definition loadDir (p : string) : M W State (list TreeNode) :=
  modify (setError None) >>;
  let* r := invoke (list_directory p) (do_list_directory B p) in
  match r with
  | Ok entries => ret (map fresh entries)
  | Err err => modify (setError (Some err)) >>; ret []
  end.

(** [loadDir(currentPath).then(setTree)]: the refresh button, and the
    effect that follows a change of [currentPath] or [refreshKey]. *)
Definition refresh : M W State unit :=
  let* s := read in
  let* t := loadDir (currentPath s) in
  modify (setTree (λ _, t)).

(** [toggleFolder(node, idx)]: first the synchronous part up to the
    [await], then the part that runs when the listing has arrived. *)
Definition toggleFolder_begin (idx : list nat) : M W State unit :=
  modify (setTree (λ prev, update prev idx)).

Definition wants_fetch (node : TreeNode) : bool :=
  negb (expanded node) && no_children node.

Definition toggleFolder (node : TreeNode) (idx : list nat) : M W State unit :=
  toggleFolder_begin idx >>;
  if wants_fetch node then
    let* c := loadDir (path node) in
    modify (setTree (λ prev, setChildren c prev idx))
  else ret tt.

(** [onClick={() => node.is_dir && toggleFolder(node, path)}] *)
Definition onClick (node : TreeNode) (idx : list nat) : M W State unit :=
  if is_dir node then toggleFolder node idx else ret tt.

(** A click on the row that the render of the whole tree shows at
    address [idx]: the handler receives the node found there. *)
Definition click_at (idx : list nat) : M W State unit :=
  let* s := read in
  match node_at (tree s) idx with
  | Some node => onClick node idx
  | None => ret tt
  end.

(** [k] clicks on that row, each after the one before has finished. *)
Fixpoint clicks (k : nat) (idx : list nat) : M W State unit :=
  match k with
  | O => ret tt
  | S k' => click_at idx >>; clicks k' idx
  end.

(** The body of the loop of the local [handleDrop] for one file;
    [currentPath0] is the [currentPath] of the handler's render. *)
Definition copy_one (currentPath0 : string) (file : DroppedFile) : M W State unit :=
  if truthy (file_path file) then
    let filePath := default "" (file_path file) in
    emit (EMsg ("Copying " +:+ file_name file +:+ " to local folder…")) >>;
    let* r := invoke (copy_to_local filePath currentPath0)
                     (do_copy_to_local B filePath currentPath0) in
    match r with
    | Ok result => emit (EMsg result)
    | Err err => emit (EMsg ("Local Copy error: " +:+ err))
    end
  else
    emit (EMsg ("Cannot copy " +:+ file_name file +:+ " — no path available")).

Definition handleDrop (files : list DroppedFile) : M W State unit :=
  let* s := read in
  emit (EMsg "DEBUG: Local handleDrop event detected") >>;
  modify (setDragging false) >>;
  emit (EMsg ("DEBUG: Local files count: " +:+ pretty (length files))) >>;
  match files with
  | [] => ret tt
  | _ :: _ =>
      for_each files (copy_one (currentPath s)) >>;
      let* t := loadDir (currentPath s) in
      modify (setTree (λ _, t))
  end.

End Handlers.

Section View.
Context {CF : Js.CaseFolding}.

(** [tree.filter(node => node.name.toLowerCase().includes(
    searchQuery.toLowerCase()))] *)
Definition name_matches (query : string) (nm : string) : bool :=
  Js.includes (Js.toLowerCase query) (Js.toLowerCase nm).

Definition filteredTree (s : State) : list TreeNode :=
  List.filter (λ node : TreeNode, name_matches (searchQuery s) (name node)) (tree s).

(** [searchQuery ? filteredTree : tree] *)
Definition visibleNodes (s : State) : list TreeNode :=
  if truthy (Some (searchQuery s)) then filteredTree s else tree s.

(** One [div.tree-row]: the node shown, the index path handed to its
    click handler, the indentation depth. *)
Record Row := mkRow {
  row_node : TreeNode;
  row_path : list nat;
  row_depth : nat;
}.

(** [renderNodes]: the row of a node, followed by the rows of its children
    when [node.expanded && node.children]. *)
Fixpoint render_node (indexPath : list nat) (depth i : nat) (node : TreeNode)
  {struct node} : list Row :=
  let path := indexPath ++ [i] in
  mkRow node path depth ::
  (if expanded node then
     match children node with
     | Some c =>
         (fix go (k : nat) (l : list TreeNode) {struct l} : list Row :=
            match l with
            | [] => []
            | m :: l' => render_node path (S depth) k m ++ go (S k) l'
            end) 0%nat c
     | None => []
     end
   else []).

Fixpoint render_from (indexPath : list nat) (depth k : nat) (l : list TreeNode)
  : list Row :=
  match l with
  | [] => []
  | m :: l' => render_node indexPath depth k m ++ render_from indexPath depth (S k) l'
  end.

Definition renderNodes (nodes : list TreeNode) : list Row :=
  render_from [] 0 0 nodes.

(** The rows on screen, [renderNodes(visibleNodes)], and a click on the
    [k]-th of them: the handler gets the node and the index path of that
    row. *)
Definition rows (s : State) : list Row := renderNodes (visibleNodes s).

Definition click_row {W : Type} (B : Backend W) (k : nat) : M W State unit :=
  let* s := read in
  match rows s !! k with
  | Some row => onClick B (row_node row) (row_path row)
  | None => ret tt
  end.

End View.

End FileTree.

(** ** The icon cache: [iconCache] and [getFileIcon]

    Both trees declare the same cell and the same function. The state of
    this component is the [iconCache] cell itself, a map from a lower-cased
    extension to the icon, [""] standing for a lookup that failed. *)

Module Icons.

Section Handlers.
Context {CF : Js.CaseFolding} {W : Type} (B : Backend W).

(** [getFileIcon(filename)], called from a render whose [iconCache] was
    [snapshot]: the cache check reads the snapshot, the two
    [setIconCache(prev => ...)] update the live cell. *)
Definition getFileIcon (snapshot : gmap string string) (filename : string)
  : M W (gmap string string) (option string) :=
  match Js.extMatch filename with
  | None => ret None
  | Some m =>
      let ext := Js.toLowerCase m in
      match snapshot !! ext with
      | Some icon => ret (Some icon)
      | None =>
          let* r := invoke (get_file_icon ext) (do_get_file_icon B ext) in
          match r with
          | Ok base64Icon =>
              modify (λ prev, <[ext := base64Icon]> prev) >>;
              ret (Some base64Icon)
          | Err _ =>
              modify (λ prev, <[ext := ""]> prev) >>;
              ret None
          end
      end
  end.

(** The effect of one [FileIconRenderer]: [if (ext && cachedIcon ===
    undefined) getFileIcon(filename)]. *)
Definition FileIconRenderer_effect (snapshot : gmap string string) (filename : string)
  : M W (gmap string string) unit :=
  match Js.extMatch filename with
  | None => ret tt
  | Some m =>
      match snapshot !! Js.toLowerCase m with
      | Some _ => ret tt
      | None => getFileIcon snapshot filename >>; ret tt
      end
  end.

(** The effects of the file rows of one render: every row reads the
    [iconCache] that render was given. *)
Definition render_effects (filenames : list string) : M W (gmap string string) unit :=
  let* snapshot := read in
  for_each filenames (FileIconRenderer_effect snapshot).

(** A resolve that starts when every earlier one has been stored: its
    snapshot is the live cell. *)
Definition resolve (filename : string) : M W (gmap string string) (option string) :=
  let* snapshot := read in
  getFileIcon snapshot filename.

Definition resolve_all (filenames : list string) : M W (gmap string string) unit :=
  for_each filenames (λ f, resolve f >>; ret tt).

End Handlers.

End Icons.

(** ** The remote pane: [function RemoteFileTree] *)

Module RemoteFileTree.

Record State := mkState {
  entries : list RemoteEntry.t;
  searchQuery : string;
  remotePath : string;
  pathStack : list Crumb;
  error : option string;
  loading : bool;
  dragging : bool;
  (** the [App] cell behind the [onPathChange] prop *)
  currentRemotePath : string;
}.

Definition setEntries (e : list RemoteEntry.t) (s : State) : State :=
  mkState e (searchQuery s) (remotePath s) (pathStack s) (error s) (loading s)
          (dragging s) (currentRemotePath s).
Definition setRemotePath (p : string) (s : State) : State :=
  mkState (entries s) (searchQuery s) p (pathStack s) (error s) (loading s)
          (dragging s) (currentRemotePath s).
Definition setPathStack (st : list Crumb) (s : State) : State :=
  mkState (entries s) (searchQuery s) (remotePath s) st (error s) (loading s)
          (dragging s) (currentRemotePath s).
Definition setError (e : option string) (s : State) : State :=
  mkState (entries s) (searchQuery s) (remotePath s) (pathStack s) e (loading s)
          (dragging s) (currentRemotePath s).
Definition setLoading (b : bool) (s : State) : State :=
  mkState (entries s) (searchQuery s) (remotePath s) (pathStack s) (error s) b
          (dragging s) (currentRemotePath s).
Definition setDragging (b : bool) (s : State) : State :=
  mkState (entries s) (searchQuery s) (remotePath s) (pathStack s) (error s)
          (loading s) b (currentRemotePath s).
Definition onPathChange (p : string) (s : State) : State :=
  mkState (entries s) (searchQuery s) (remotePath s) (pathStack s) (error s)
          (loading s) (dragging s) p.

(** [path === ".."] *)
Definition isUp (path : option string) : bool :=
  match path with
  | Some p => String.eqb p ".."
  | None => false
  end.

(** [isUp ? (pathStack.length > 1 ? pathStack[pathStack.length - 2].id
    : null) : (path ?? null)] *)
Definition folderId (pathStack : list Crumb) (path : option string) : option string :=
  if isUp path then
    if (1 <? length pathStack)%nat
    then crumb_id <$> pathStack !! (length pathStack - 2)%nat
    else None
  else path.

(** Which of the three branches that call [setPathStack] is taken, if any:
    [isUp], [path && dirName], [!path]. *)
Definition stack_is_set (path dirName : option string) : bool :=
  isUp path || (truthy path && truthy dirName) || negb (truthy path).

(** The [nextStack] of the cloud branch; [slice(0, -1)] keeps all but the
    last element and keeps the empty array empty. *)
Definition nextStack (pathStack : list Crumb) (path dirName : option string) : list Crumb :=
  if isUp path then take (length pathStack - 1) pathStack
  else if truthy path && truthy dirName
       then pathStack ++ [mkCrumb (default "" path) (default "" dirName)]
  else if negb (truthy path) then []
  else pathStack.

(** [nextStack.length === 0 ? "/ (Cloud Root)" : "Root / " +
    nextStack.map(s => s.name).join(" / ")] *)
Definition cloud_pwd (stack : list Crumb) : string :=
  match stack with
  | [] => "/ (Cloud Root)"
  | _ => "Root / " +:+ Js.join " / " (map crumb_name stack)
  end.

Section Handlers.
Context {W : Type} (B : Backend W).
(** the [cloudConfig] prop: absent for an FTP connection *)
Variable cloudConfig : option CloudConnection.

(** [loadRemoteDir(path?, dirName?)] of a render whose [pathStack] was
    [stack0]. *)
Definition loadRemoteDir (stack0 : list Crumb) (path dirName : option string)
  : M W State unit :=
  modify (setLoading true) >>;
  modify (setError None) >>;
  (match cloudConfig with
   | Some cfg =>
       let* r := invoke (list_cloud_directory (provider cfg) (access_token cfg)
                                              (folderId stack0 path))
                        (do_list_cloud_directory B (provider cfg) (access_token cfg)
                                                 (folderId stack0 path)) in
       match r with
       | Ok files =>
           let next := nextStack stack0 path dirName in
           (if stack_is_set path dirName then modify (setPathStack next) else ret tt) >>;
           modify (setEntries files) >>;
           modify (setRemotePath (cloud_pwd next)) >>;
           modify (onPathChange (cloud_pwd next))
       | Err err =>
           modify (setError (Some err)) >>;
           modify (setEntries [])
       end
   | None =>
       let* r := invoke (list_remote_directory path) (do_list_remote_directory B path) in
       match r with
       | Ok files =>
           let* r' := invoke get_remote_pwd (do_get_remote_pwd B) in
           match r' with
           | Ok pwd =>
               modify (setEntries files) >>;
               modify (setRemotePath pwd) >>;
               modify (onPathChange pwd)
           | Err err =>
               modify (setError (Some err)) >>;
               modify (setEntries [])
           end
       | Err err =>
           modify (setError (Some err)) >>;
           modify (setEntries [])
       end
   end) >>;
  modify (setLoading false).

(** The toolbar's refresh button and the re-list that ends an
    operation: [loadRemoteDir()]. *)
Definition relist : M W State unit :=
  let* s := read in
  loadRemoteDir (pathStack s) None None.

(** [const goUp = () => loadRemoteDir("..")] *)
Definition goUp : M W State unit :=
  let* s := read in
  loadRemoteDir (pathStack s) (Some "..") None.

Definition navigateTo (e : RemoteEntry.t) : M W State unit :=
  let* s := read in
  match cloudConfig with
  | Some _ =>
      if truthy (RemoteEntry.id e)
      then loadRemoteDir (pathStack s) (RemoteEntry.id e) (Some (RemoteEntry.name e))
      else ret tt
  | None => loadRemoteDir (pathStack s) (Some (RemoteEntry.name e)) None
  end.

(** [remotePath === "/ (Cloud Root)" || remotePath === "" ? null :
    remotePath] *)
Definition parentId (remotePath0 : string) : option string :=
  if String.eqb remotePath0 "/ (Cloud Root)" || String.eqb remotePath0 ""
  then None else Some remotePath0.

(** The body of the loop of [handleDrop] for one file. [remotePath0] is
    the [remotePath] of the render the handler belongs to. *)
Definition upload_one (remotePath0 : string) (file : DroppedFile) : M W State unit :=
  if truthy (file_path file) then
    let filePath := default "" (file_path file) in
    emit (EMsg ("Uploading " +:+ file_name file +:+ "…")) >>;
    let* r :=
      match cloudConfig with
      | Some cfg =>
          invoke (upload_cloud_file (provider cfg) (access_token cfg) filePath
                                    (parentId remotePath0))
                 (do_upload_cloud_file B (provider cfg) (access_token cfg) filePath
                                       (parentId remotePath0))
      | None =>
          invoke (upload_file filePath (file_name file))
                 (do_upload_file B filePath (file_name file))
      end in
    match r with
    | Ok result => emit (EMsg result)
    | Err err => emit (EMsg ("Upload error: " +:+ err))
    end
  else
    emit (EMsg ("Cannot upload " +:+ file_name file +:+ " — no path available")).

Definition handleDrop (files : list DroppedFile) : M W State unit :=
  let* s := read in
  emit (EMsg "DEBUG: Remote handleDrop event detected") >>;
  modify (setDragging false) >>;
  emit (EMsg ("DEBUG: Remote files count: " +:+ pretty (length files))) >>;
  match files with
  | [] => ret tt
  | _ :: _ =>
      for_each files (upload_one (remotePath s)) >>;
      loadRemoteDir (pathStack s) None None
  end.

End Handlers.

(** The upload a dropped file with a path asks the backend for. *)
Definition upload_call (cloudConfig : option CloudConnection) (remotePath0 : string)
    (file : DroppedFile) : Call :=
  match cloudConfig with
  | Some cfg =>
      upload_cloud_file (provider cfg) (access_token cfg) (default "" (file_path file))
                        (parentId remotePath0)
  | None => upload_file (default "" (file_path file)) (file_name file)
  end.

(** What one file of a drop leaves on the trace: the start line, the upload
    and one line for its outcome; or, for a file without a path, the one
    line that says so. *)
Definition upload_block (cloudConfig : option CloudConnection) (remotePath0 : string)
    (file : DroppedFile) (b : list Event) : Prop :=
  if truthy (file_path file) then
    ∃ outcome : string,
      b = [EMsg ("Uploading " +:+ file_name file +:+ "…");
           ECall (upload_call cloudConfig remotePath0 file);
           EMsg outcome]
  else
    b = [EMsg ("Cannot upload " +:+ file_name file +:+ " — no path available")].

(** One re-list of the remote pane, as a trace: a listing command first,
    nothing but [get_remote_pwd] after it, no log line. *)
Definition one_relist (tail : list Event) : Prop :=
  ∃ (c : Call) (rest : list Call),
    calls_of tail = c :: rest ∧ msgs_of tail = [] ∧
    is_listing c = true ∧ Forall (λ c', c' = get_remote_pwd) rest.

Definition has_path (file : DroppedFile) : bool := truthy (file_path file).

(** The line that reports how an upload ended: the backend's message, or
    [`Upload error: ${err}`]. *)
Definition outcome_line (r : Result string) : string :=
  match r with
  | Ok result => result
  | Err err => "Upload error: " +:+ err
  end.

(** How the backend, in world [w], answers the upload of a dropped file
    with a path, and the world it leaves. *)
Definition upload_answer {W : Type} (B : Backend W) (cloudConfig : option CloudConnection)
    (remotePath0 : string) (file : DroppedFile) (w : W) : Result string * W :=
  match cloudConfig with
  | Some cfg =>
      do_upload_cloud_file B (provider cfg) (access_token cfg) (default "" (file_path file))
                           (parentId remotePath0) w
  | None => do_upload_file B (default "" (file_path file)) (file_name file) w
  end.

(** The log of a batch as the amended claim describes it, one block per
    file in drop order, from the world the batch starts in to the world it
    ends in. A file with a path: its start line, its upload, and the line
    of the outcome the backend gave in the world the earlier files left;
    the next file starts in the world this upload leaves, whether it
    succeeded or failed. A file without a path: the one line that says so,
    and the world stays. *)
Inductive batch_log {W : Type} (B : Backend W) (cloudConfig : option CloudConnection)
    (remotePath0 : string) : W → list DroppedFile → list (list Event) → W → Prop :=
| batch_done (w : W) : batch_log B cloudConfig remotePath0 w [] [] w
| batch_upload (w : W) (file : DroppedFile) (files : list DroppedFile)
    (blocks : list (list Event)) (w' : W) :
    has_path file = true →
    batch_log B cloudConfig remotePath0
      (snd (upload_answer B cloudConfig remotePath0 file w)) files blocks w' →
    batch_log B cloudConfig remotePath0 w (file :: files)
      ([EMsg ("Uploading " +:+ file_name file +:+ "…");
        ECall (upload_call cloudConfig remotePath0 file);
        EMsg (outcome_line (fst (upload_answer B cloudConfig remotePath0 file w)))]
       :: blocks) w'
| batch_skip (w : W) (file : DroppedFile) (files : list DroppedFile)
    (blocks : list (list Event)) (w' : W) :
    has_path file = false →
    batch_log B cloudConfig remotePath0 w files blocks w' →
    batch_log B cloudConfig remotePath0 w (file :: files)
      ([EMsg ("Cannot upload " +:+ file_name file +:+ " — no path available")] :: blocks) w'.

(** The re-list of the pane, [loadRemoteDir()], as a trace in world [w]:
    the listing without a path (the root folder of a cloud drive, the
    current directory of an FTP server), followed on FTP by the question
    for the path when the listing arrived; no log line. *)
Definition relist_events {W : Type} (B : Backend W) (cloudConfig : option CloudConnection)
    (w : W) : list Event :=
  match cloudConfig with
  | Some cfg => [ECall (list_cloud_directory (provider cfg) (access_token cfg) None)]
  | None =>
      ECall (list_remote_directory None)
      :: match fst (do_list_remote_directory B None w) with
         | Ok _ => [ECall get_remote_pwd]
         | Err _ => []
         end
  end.

Section View.
Context {CF : Js.CaseFolding}.

Definition name_matches (query : string) (nm : string) : bool :=
  Js.includes (Js.toLowerCase query) (Js.toLowerCase nm).


End View.

End RemoteFileTree.

(** ** The application shell: [function App] *)

Module App.

(** The delay of the clean-up timer of a completed transfer, in
    milliseconds: [setTimeout(..., 5000)], five seconds. *)
Definition cleanup_delay : nat := 5000.

Record State := mkState {
  connectionStatus : string;
  (** [config.ftp_connections.find(c => c.id === selectedConnId) || null] *)
  selectedFtpConn : option Config.FtpConnection;
  (** [config.cloud_connections.find(c => c.id === selectedConnId) || null] *)
  selectedCloudConn : option CloudConnection;
  homePath : string;
  currentRemotePath : string;
  refreshKey : nat;
  activeTransfers : gmap string TransferProgress;
  (** the clock, in milliseconds, and the pending [setTimeout] callbacks:
      the time each is due and the [transfer_id] it deletes *)
  now : nat;
  timers : list (nat * string);
}.

(** [useState("Not Connected")], nothing selected, no transfer. *)
Definition initial (home : string) : State :=
  mkState "Not Connected" None None home "/" 0 ∅ 0 [].

Definition setRefreshKey (f : nat → nat) (s : State) : State :=
  mkState (connectionStatus s) (selectedFtpConn s) (selectedCloudConn s) (homePath s)
          (currentRemotePath s) (f (refreshKey s)) (activeTransfers s) (now s) (timers s).
Definition setActiveTransfers
    (f : gmap string TransferProgress → gmap string TransferProgress) (s : State) : State :=
  mkState (connectionStatus s) (selectedFtpConn s) (selectedCloudConn s) (homePath s)
          (currentRemotePath s) (refreshKey s) (f (activeTransfers s)) (now s) (timers s).
Definition setTimeout (id : string) (delay : nat) (s : State) : State :=
  mkState (connectionStatus s) (selectedFtpConn s) (selectedCloudConn s) (homePath s)
          (currentRemotePath s) (refreshKey s) (activeTransfers s) (now s)
          (timers s ++ [((now s + delay)%nat, id)]).
Definition setSelectedFtpConn (c : option Config.FtpConnection) (s : State) : State :=
  mkState (connectionStatus s) c (selectedCloudConn s) (homePath s)
          (currentRemotePath s) (refreshKey s) (activeTransfers s) (now s) (timers s).
Definition setSelectedCloudConn (c : option CloudConnection) (s : State) : State :=
  mkState (connectionStatus s) (selectedFtpConn s) c (homePath s)
          (currentRemotePath s) (refreshKey s) (activeTransfers s) (now s) (timers s).
Definition setConnectionStatus (c : string) (s : State) : State :=
  mkState c (selectedFtpConn s) (selectedCloudConn s) (homePath s)
          (currentRemotePath s) (refreshKey s) (activeTransfers s) (now s) (timers s).

(** *** The listener of ["transfer-progress"] *)

(** The listener's body. On ["complete"]: bump [refreshKey], store the
    record, arm the timer; otherwise store the record. *)
Definition onTransferProgress (p : TransferProgress) (s : State) : State :=
  if String.eqb (status p) "complete" then
    setTimeout (transfer_id p) cleanup_delay
      (setActiveTransfers (λ prev, <[transfer_id p := p]> prev)
         (setRefreshKey S s))
  else
    setActiveTransfers (λ prev, <[transfer_id p := p]> prev) s.

(** The timer's callback: [delete cleaned[p.transfer_id]]. *)
Definition fire (s : State) (id : string) : State :=
  setActiveTransfers (λ curr, delete id curr) s.

(** [dt] milliseconds pass: the callbacks that have come due run, in the
    order they were armed, and leave the timer list. *)
Definition advance (dt : nat) (s : State) : State :=
  let t := (now s + dt)%nat in
  let due := List.filter (λ d, (fst d <=? t)%nat) (timers s) in
  let rest := List.filter (λ d, negb (fst d <=? t)%nat) (timers s) in
  let s' := foldl fire s (map snd due) in
  mkState (connectionStatus s') (selectedFtpConn s') (selectedCloudConn s') (homePath s')
          (currentRemotePath s') (refreshKey s') (activeTransfers s') t rest.

(** What the event loop delivers to the progress machinery. *)
Inductive Input :=
| Progress (p : TransferProgress)
| Elapse (dt : nat).

Definition step (s : State) (i : Input) : State :=
  match i with
  | Progress p => onTransferProgress p s
  | Elapse dt => advance dt s
  end.

Definition run (s : State) (inputs : list Input) : State := foldl step s inputs.

(** The time a sequence of inputs takes. *)
Definition elapsed (inputs : list Input) : nat :=
  foldr (λ i acc, match i with Elapse dt => (dt + acc)%nat | Progress _ => acc end) 0%nat inputs.

(** Whether an input is a progress event of transfer [id]. *)
Definition concerns (id : string) (i : Input) : bool :=
  match i with
  | Progress p => String.eqb (transfer_id p) id
  | Elapse _ => false
  end.

(** Two invariants of the progress machinery. The record of [id] is gone,
    or a timer aimed at it is pending and due by [D]. *)
Definition gone_or_pending (id : string) (D : nat) (s : State) : Prop :=
  activeTransfers s !! id = None ∨
  ∃ d : nat, (d, id) ∈ timers s ∧ (now s < d)%nat ∧ (d ≤ D)%nat.

(** The record of [id] is [p], and every timer aimed at it is due at [D] or
    later. *)
Definition kept_until (id : string) (p : TransferProgress) (D : nat) (s : State) : Prop :=
  activeTransfers s !! id = Some p ∧ ∀ d : nat, (d, id) ∈ timers s → (D ≤ d)%nat.

(** *** The listener of ["tauri://drag-drop"] *)

(** [(connectionStatus.includes("connected") ||
    connectionStatus.includes("Connected")) && (selectedFtpConn ||
    selectedCloudConn)] *)
Definition isRemoteConnected (s : State) : bool :=
  (Js.includes "connected" (connectionStatus s) ||
   Js.includes "Connected" (connectionStatus s)) &&
  (bool_decide (is_Some (selectedFtpConn s)) || bool_decide (is_Some (selectedCloudConn s))).

(** [filePath.split(/[\\/]/).pop() || "unknown"] *)
Definition fileName (filePath : string) : string :=
  match Js.last_segment filePath with
  | EmptyString => "unknown"
  | nm => nm
  end.

Section Handlers.
Context {W : Type} (B : Backend W).

(** The body of the loop for one dropped path; [s0] is the state of the
    render the listener was registered in. *)
Definition drop_one (s0 : State) (filePath : string) : M W State unit :=
  let fileName := fileName filePath in
  let* r :=
    if isRemoteConnected s0 then
      emit (EMsg ("Uploading " +:+ fileName +:+ " to remote…")) >>;
      match selectedCloudConn s0 with
      | Some cfg =>
          let parentId :=
            if String.eqb (currentRemotePath s0) "/ (Cloud Root)"
               || String.eqb (currentRemotePath s0) ""
            then None else Some (currentRemotePath s0) in
          invoke (upload_cloud_file (provider cfg) (access_token cfg) filePath parentId)
                 (do_upload_cloud_file B (provider cfg) (access_token cfg) filePath parentId)
      | None =>
          invoke (upload_file filePath fileName) (do_upload_file B filePath fileName)
      end
    else
      emit (EMsg ("Copying " +:+ fileName +:+ " to local…")) >>;
      invoke (copy_to_local filePath (homePath s0))
             (do_copy_to_local B filePath (homePath s0)) in
  match r with
  | Ok result => emit (EMsg result)
  | Err err => emit (EMsg ("Drop Error: " +:+ err))
  end.

Definition onDragDrop (paths : list string) : M W State unit :=
  let* s0 := read in
  match paths with
  | [] => ret tt
  | _ :: _ =>
      for_each paths (drop_one s0) >>;
      modify (setRefreshKey S)
  end.

End Handlers.

(** The command the listener issues for one dropped path. *)
Definition route (s0 : State) (filePath : string) : Call :=
  if isRemoteConnected s0 then
    match selectedCloudConn s0 with
    | Some cfg =>
        upload_cloud_file (provider cfg) (access_token cfg) filePath
          (if String.eqb (currentRemotePath s0) "/ (Cloud Root)"
              || String.eqb (currentRemotePath s0) ""
           then None else Some (currentRemotePath s0))
    | None => upload_file filePath (fileName filePath)
    end
  else copy_to_local filePath (homePath s0).

(** [selectedFtpConn ? selectedFtpConn.name : (selectedCloudConn ?
    selectedCloudConn.account_name : null)] *)
Definition activeConnName (s : State) : option string :=
  match selectedFtpConn s with
  | Some c => Some (Config.name c)
  | None => account_name <$> selectedCloudConn s
  end.

(** What the shell shows in the right pane. *)
Inductive RightPane :=
| RemoteTree (cloudConfig : option CloudConnection)
| ConnectionInfo
| PaneEmpty.

Definition status_says_connected (s : State) : bool :=
  Js.includes "connected" (connectionStatus s) || Js.includes "Connected" (connectionStatus s).

Definition right_pane (s : State) : RightPane :=
  if truthy (activeConnName s) then
    if status_says_connected s && bool_decide (is_Some (selectedFtpConn s))
    then RemoteTree None
    else
      match selectedCloudConn s with
      | Some cfg => if status_says_connected s then RemoteTree (Some cfg) else ConnectionInfo
      | None => ConnectionInfo
      end
  else PaneEmpty.

End App.

(** ** The configuration store: [useConfigStore] *)

Module ConfigStore.

Record State := mkState {
  config : Config.AppConfig;
  loading : bool;
  error : option string;
}.

(** [create<ConfigStore>((set) => ({ config: { ftp_connections: [],
    cloud_connections: [] }, loading: true, error: null, ... }))] *)
Definition initial : State :=
  mkState (Config.mkAppConfig [] []) true None.

Section Handlers.
Context {W : Type} (B : Backend W).

Definition loadConfig : M W State unit :=
  modify (λ s, mkState (config s) true None) >>;
  let* r := invoke load_config (do_load_config B) in
  match r with
  | Ok cfg => modify (λ s, mkState cfg false (error s))
  | Err err => modify (λ s, mkState (config s) false (Some err))
  end.

Definition saveConfig (newConfig : Config.AppConfig) : M W State unit :=
  let* r := invoke (save_config newConfig) (do_save_config B newConfig) in
  match r with
  | Ok _ => modify (λ s, mkState newConfig (loading s) (error s))
  | Err err => modify (λ s, mkState (config s) (loading s) (Some err))
  end.

End Handlers.

End ConfigStore.

(** ** Backends for the worked examples *)

Module Examples.

(** A backend without memory: every listing and every icon lookup answers
    as [listing_ok] says, an upload or copy fails on the paths [fails]
    names. *)
Definition scripted (listing_ok : bool) (fails : string → bool) : Backend unit :=
  mkBackend unit
    (λ p w, (if listing_ok then Ok [] else Err "os error 5", w))
    (λ ext w, (if listing_ok then Ok ("data:image/png;base64," +:+ ext) else Err "no icon", w))
    (λ src dst w, (if fails src then Err "copy failed" else Ok ("Copied " +:+ src), w))
    (λ lp rn w, (if fails lp then Err "550 denied" else Ok ("Uploaded " +:+ rn), w))
    (λ pr tk lp pid w, (if fails lp then Err "403" else Ok ("Uploaded " +:+ lp), w))
    (λ p w, (if listing_ok then Ok [] else Err "timed out", w))
    (λ w, (Ok "/", w))
    (λ pr tk fid w, (if listing_ok then Ok [] else Err "401", w))
    (λ w, (Ok (Config.mkAppConfig [] []), w))
    (λ c w, (if listing_ok then Ok tt else Err "disk full", w)).

(** The same backend, except that every local folder lists as [es]. *)
Definition listing (es : list FileEntry) : Backend unit :=
  let b := scripted true (λ _, false) in
  mkBackend unit
    (λ p w, (Ok es, w))
    (do_get_file_icon b) (do_copy_to_local b) (do_upload_file b) (do_upload_cloud_file b)
    (do_list_remote_directory b) (do_get_remote_pwd b) (do_list_cloud_directory b)
    (do_load_config b) (do_save_config b).

Definition start : Sys unit := mkSys tt [].

Definition dir (nm : string) : TreeNode :=
  mkTreeNode (mkFileEntry nm ("C:\home\" +:+ nm) true 0) None false false.

Definition file (nm : string) : TreeNode :=
  mkTreeNode (mkFileEntry nm ("C:\home\" +:+ nm) false 12) None false false.

Definition local (t : list TreeNode) : FileTree.State :=
  FileTree.mkState t "C:\home" None "" false.

Definition remote (es : list RemoteEntry.t) (st : list Crumb) : RemoteFileTree.State :=
  RemoteFileTree.mkState es "" "/" st None false false "/".

Definition rentry (nm : string) : RemoteEntry.t :=
  RemoteEntry.mk nm false (Some 1%Z) None None.

Definition drive : CloudConnection :=
  mkCloudConnection "c1" "google" "me" "tok".

Definition server : Config.FtpConnection :=
  Config.mkFtpConnection "f1" "nas" "nas.local" 21 "me" None None.

Definition dropped (nm : string) : DroppedFile :=
  mkDroppedFile nm (Some ("C:\in\" +:+ nm)).

End Examples.

(** ** Commands beyond listing and transfer

    The handlers below also delete, rename, download and connect. These
    commands all resolve to a message; they are logged beside the state of
    the component that issues them. *)

Inductive Op :=
| delete_local_file (path : string)
| download_cloud_file (provider token fileId localPath : string)
| download_remote_file (remoteName localPath : string)
| download_remote_folder (remoteDir localDir : string)
| delete_cloud_file (provider token fileId : string)
| delete_remote_dir (path : string)
| delete_remote_file (path : string)
| rename_remote_file (oldPath newPath : string)
| connect_ftp (host : string) (port : Z) (username password : string) (secure : bool)
| disconnect_ftp.

(** How the backend answers these commands. *)
Definition OpBackend (W : Type) : Type := Op → W → Result string * W.

(** A component state together with the commands issued so far. *)
Record Logged (S : Type) := mkLogged { inner : S; ops : list Op }.
Arguments mkLogged {S}.
Arguments inner {S}.
Arguments ops {S}.

(** [await invoke(...)] of one of these commands. *)
Definition perform {W S : Type} (O : OpBackend W) (o : Op) : M W (Logged S) (Result string) :=
  λ s y, let '(r, w') := O o (world y) in
         (r, mkLogged (inner s) (ops s ++ [o]), mkSys w' (trace y)).

(** A handler of the component, run inside the logged state. *)
Definition lift {W S A : Type} (m : M W S A) : M W (Logged S) A :=
  λ s y, let '(a, s', y') := m (inner s) y in (a, mkLogged s' (ops s), y').

(** [onTransferMsg(msg)] *)
Definition say {W S : Type} (msg : string) : M W (Logged S) unit :=
  lift (emit (EMsg msg)).

(** ** The local tree, continued *)

Module LocalOps.
Import FileTree.

(** The part of [s] before its last separator, if [s] has one. *)
Fixpoint before_last_sep (s : string) : option string :=
  match s with
  | EmptyString => None
  | String c s' =>
      match before_last_sep s' with
      | Some r => Some (String c r)
      | None => if Js.is_sep c then Some EmptyString else None
      end
  end.

(** [currentPath.replace(/[\\/][^\\/]*$/, "")]: the match, when there is
    one, runs from the last separator to the end. *)
Definition parent_of (currentPath : string) : string :=
  match before_last_sep currentPath with
  | Some r => r
  | None => currentPath
  end.

Section Handlers.
Context {W : Type} (B : Backend W) (O : OpBackend W).

(** [goUp]: [if (parent && parent !== currentPath) setCurrentPath(parent)],
    followed by the effect that reloads the level when [currentPath] has
    changed. *)
Definition goUp : M W State unit :=
  let* s := read in
  let parent := parent_of (currentPath s) in
  if truthy (Some parent) && negb (String.eqb parent (currentPath s)) then
    modify (setCurrentPath parent) >>;
    refresh B
  else ret tt.

(** [handleDelete(entry)]; [confirmed] is the answer of [window.confirm]. *)
Definition handleDelete (confirmed : bool) (entry : FileEntry) : M W (Logged State) unit :=
  if confirmed then
    say ("Deleting " +:+ name entry +:+ "…") >>;
    let* r := perform O (delete_local_file (path entry)) in
    match r with
    | Ok result =>
        say result >>;
        lift (refresh B)
    | Err err => say ("Delete error: " +:+ err)
    end
  else ret tt.

End Handlers.

End LocalOps.

(** ** The remote pane, continued *)

Module RemoteOps.
Import RemoteFileTree.

(** [remotePath.endsWith("/") ? `${remotePath}${entry.name}` :
    `${remotePath}/${entry.name}`] *)
Fixpoint endsWith_slash (s : string) : bool :=
  match s with
  | EmptyString => false
  | String c EmptyString => Ascii.eqb c "/"%char
  | String _ s' => endsWith_slash s'
  end.

Definition fullPath (remotePath0 : string) (nm : string) : string :=
  if endsWith_slash remotePath0 then remotePath0 +:+ nm
  else remotePath0 +:+ "/" +:+ nm.

Section Handlers.
Context {W : Type} (B : Backend W) (O : OpBackend W).
(** the props [cloudConfig] and [downloadDir] *)
Variable cloudConfig : option CloudConnection.
Variable downloadDir : string.

(** [loadRemoteDir()] from a handler of the render with state [s0]. *)
Definition reload (s0 : State) : M W (Logged State) unit :=
  lift (loadRemoteDir B cloudConfig (pathStack s0) None None).

(** [handleDownload(entry)] *)
Definition handleDownload (e : RemoteEntry.t) : M W (Logged State) unit :=
  say ("Downloading " +:+ RemoteEntry.name e +:+ "…") >>;
  let localPath := downloadDir +:+ "\" +:+ RemoteEntry.name e in
  let* r :=
    match cloudConfig with
    | Some cfg =>
        if truthy (RemoteEntry.id e) then
          perform O (download_cloud_file (provider cfg) (access_token cfg)
                                         (default "" (RemoteEntry.id e)) localPath)
        else ret (Err "Error: Cloud entry missing ID.")
    | None => perform O (download_remote_file (RemoteEntry.name e) localPath)
    end in
  match r with
  | Ok result => say result
  | Err err => say ("Download error: " +:+ err)
  end.

(** [handleDownloadFolder(folderName, localBaseDir?)] *)
Definition handleDownloadFolder (folderName : string) (localBaseDir : option string)
  : M W (Logged State) unit :=
  say ("Downloading folder " +:+ folderName +:+ "…") >>;
  let baseDir := if truthy localBaseDir then default "" localBaseDir else downloadDir in
  let localFolder := baseDir +:+ "\" +:+ folderName in
  let* r := perform O (download_remote_folder folderName localFolder) in
  match r with
  | Ok result => say result
  | Err err => say ("Download Folder error: " +:+ err)
  end.

(** [handleDelete(entry)]; [confirmed] is the answer of [window.confirm]. *)
Definition handleDelete (confirmed : bool) (e : RemoteEntry.t) : M W (Logged State) unit :=
  let* s0 := lift read in
  if confirmed then
    say ("Deleting " +:+ RemoteEntry.name e +:+ "…") >>;
    match cloudConfig with
    | Some cfg =>
        if truthy (RemoteEntry.id e) then
          let* r := perform O (delete_cloud_file (provider cfg) (access_token cfg)
                                                 (default "" (RemoteEntry.id e))) in
          match r with
          | Ok result => say result >>; reload s0
          | Err err => say ("Delete error: " +:+ err)
          end
        else say "Cannot delete: cloud entry ID is missing."
    | None =>
        let* r := perform O (if RemoteEntry.is_dir e
                             then delete_remote_dir (RemoteEntry.name e)
                             else delete_remote_file (RemoteEntry.name e)) in
        match r with
        | Ok result => say result >>; reload s0
        | Err err => say ("Delete error: " +:+ err)
        end
    end
  else ret tt.

(** [handleRename(entry)]; [answer] is what [window.prompt] returned,
    [None] when the prompt was cancelled. *)
Definition handleRename (answer : option string) (e : RemoteEntry.t) : M W (Logged State) unit :=
  let* s0 := lift read in
  if negb (truthy answer) || String.eqb (default "" answer) (RemoteEntry.name e) then ret tt
  else
    let newName := default "" answer in
    say ("Renaming " +:+ RemoteEntry.name e +:+ " to " +:+ newName +:+ "…") >>;
    match cloudConfig with
    | Some _ => say "Cloud rename not yet implemented."
    | None =>
        let* r := perform O (rename_remote_file (RemoteEntry.name e) newName) in
        match r with
        | Ok result => say result >>; reload s0
        | Err err => say ("Rename error: " +:+ err)
        end
    end.

(** [handleCopyPath(entry)]; [written] tells whether
    [navigator.clipboard.writeText] resolved. *)
Definition handleCopyPath (written : bool) (e : RemoteEntry.t) : M W (Logged State) unit :=
  let* s0 := lift read in
  if written then say ("Copied path: " +:+ fullPath (remotePath s0) (RemoteEntry.name e))
  else say "Failed to copy path.".

(** [handleCopyFile(entry)]; [answer] is what [window.prompt] returned. *)
Definition handleCopyFile (answer : option string) (e : RemoteEntry.t) : M W (Logged State) unit :=
  let* s0 := lift read in
  match cloudConfig with
  | Some _ => say "Cloud copying is not yet implemented."
  | None =>
      if RemoteEntry.is_dir e then say "Copying directories is not yet supported."
      else if negb (truthy answer) then ret tt
      else
        let newName := default "" answer in
        say ("Copying " +:+ RemoteEntry.name e +:+ " to " +:+ newName
             +:+ " (this may take a while)…") >>;
        let tempPath := downloadDir +:+ "\.quicksync_temp_" +:+ RemoteEntry.name e in
        let* r1 := perform O (download_remote_file (RemoteEntry.name e) tempPath) in
        match r1 with
        | Ok _ =>
            let* r2 := lift (invoke (upload_file tempPath newName)
                                    (do_upload_file B tempPath newName)) in
            match r2 with
            | Ok result => say ("Copy complete: " +:+ result) >>; reload s0
            | Err err => say ("Copy error: " +:+ err)
            end
        | Err err => say ("Copy error: " +:+ err)
        end
  end.

End Handlers.

(** The command [handleDelete] sends for an entry, if it sends one: a
    cloud entry without an id gets none. *)
Definition delete_op (cloudConfig : option CloudConnection) (e : RemoteEntry.t) : option Op :=
  match cloudConfig with
  | Some cfg =>
      if truthy (RemoteEntry.id e)
      then Some (delete_cloud_file (provider cfg) (access_token cfg)
                                   (default "" (RemoteEntry.id e)))
      else None
  | None =>
      Some (if RemoteEntry.is_dir e then delete_remote_dir (RemoteEntry.name e)
            else delete_remote_file (RemoteEntry.name e))
  end.

(** The command [handleDownload] sends for an entry, if it sends one. *)
Definition download_op (cloudConfig : option CloudConnection) (downloadDir : string)
    (e : RemoteEntry.t) : option Op :=
  match cloudConfig with
  | Some cfg =>
      if truthy (RemoteEntry.id e)
      then Some (download_cloud_file (provider cfg) (access_token cfg)
                   (default "" (RemoteEntry.id e))
                   (downloadDir +:+ "\" +:+ RemoteEntry.name e))
      else None
  | None =>
      Some (download_remote_file (RemoteEntry.name e)
              (downloadDir +:+ "\" +:+ RemoteEntry.name e))
  end.

End RemoteOps.

(** ** The connection form: [function ConnectionModal] *)

Module Modal.

(** The fields of the form when it is submitted. *)
Record Form := mkForm {
  name : string;
  host : string;
  port : Z;
  username : string;
  password : string;
  secure : bool;
  provider : string;
  accountName : string;
  accessToken : string;
}.

(** [handleSubmit], FTP branch: the connection handed to [onSaveFtp].
    [stamp] is [Date.now().toString()]. The port is an integer, which the
    template literal prints in plain decimal. *)
Definition ftp_of_form (editingFtp : option Config.FtpConnection) (stamp : string) (f : Form)
  : Config.FtpConnection :=
  Config.mkFtpConnection
    (if truthy (Config.id <$> editingFtp) then default "" (Config.id <$> editingFtp) else stamp)
    (if truthy (Some (name f)) then name f else host f +:+ ":" +:+ pretty (port f))
    (host f)
    (port f)
    (username f)
    (if truthy (Some (password f)) then Some (password f) else None)
    (Some (secure f)).

(** [handleSubmit], cloud branch: the connection handed to [onSaveCloud]. *)
Definition cloud_of_form (editingCloud : option CloudConnection) (stamp : string)
    (f : Form) : CloudConnection :=
  mkCloudConnection
    (if truthy (cloud_id <$> editingCloud)
     then default "" (cloud_id <$> editingCloud) else stamp)
    (provider f)
    (if truthy (Some (accountName f)) then accountName f else provider f +:+ " Account")
    (accessToken f).

End Modal.

(** ** The application shell, continued: connections *)

Module Shell.

(** [l.findIndex(f)], [None] for [-1]. *)
Fixpoint findIndex {A : Type} (f : A → bool) (l : list A) : option nat :=
  match l with
  | [] => None
  | x :: l' => if f x then Some 0 else S <$> findIndex f l'
  end.

(** [l.find(f)] *)
Fixpoint find {A : Type} (f : A → bool) (l : list A) : option A :=
  match l with
  | [] => None
  | x :: l' => if f x then Some x else find f l'
  end.

(** [const updated = [...l]; if (existing >= 0) updated[existing] = conn;
    else updated.push(conn)], where [existing] is the index of the first
    element with the id of [conn]. *)
Definition upsert {A : Type} (id_of : A → string) (conn : A) (l : list A) : list A :=
  match findIndex (λ c, String.eqb (id_of c) (id_of conn)) l with
  | Some existing => <[existing := conn]> l
  | None => l ++ [conn]
  end.

(** [l.filter((c) => c.id !== id)] *)
Definition without {A : Type} (id_of : A → string) (id : string) (l : list A) : list A :=
  List.filter (λ c, negb (String.eqb (id_of c) id)) l.

Record State := mkState {
  store : ConfigStore.State;
  selectedConnId : option string;
  connectionStatus : string;
}.

Definition config (s : State) : Config.AppConfig := ConfigStore.config (store s).

(** [config.ftp_connections.find((c) => c.id === selectedConnId) || null] *)
Definition selectedFtpConn (s : State) : option Config.FtpConnection :=
  match selectedConnId s with
  | Some id => find (λ c, String.eqb (Config.id c) id) (Config.ftp_connections (config s))
  | None => None
  end.

Definition selectedCloudConn (s : State) : option Config.CloudConnection :=
  match selectedConnId s with
  | Some id =>
      find (λ c, String.eqb (Config.cloud_id c) id) (Config.cloud_connections (config s))
  | None => None
  end.

Definition setConnectionStatus (c : string) (s : State) : State :=
  mkState (store s) (selectedConnId s) c.
Definition setSelectedConnId (id : option string) (s : State) : State :=
  mkState (store s) id (connectionStatus s).

(** The test the shell applies to the status text. *)
Definition says_connected (status : string) : bool :=
  Js.includes "connected" status || Js.includes "Connected" status.

Section Handlers.
Context {W : Type} (B : Backend W) (O : OpBackend W).

(** A handler of the store, run on the store of the shell. *)
Definition on_store {A : Type} (m : M W ConfigStore.State A) : M W State A :=
  λ s y, let '(a, st, y') := m (store s) y in
         (a, mkState st (selectedConnId s) (connectionStatus s), y').

Definition handleSaveFtp (conn : Config.FtpConnection) : M W State unit :=
  let* s := read in
  on_store (ConfigStore.saveConfig B
              (Config.mkAppConfig
                 (upsert Config.id conn (Config.ftp_connections (config s)))
                 (Config.cloud_connections (config s)))).

Definition handleSaveCloud (conn : Config.CloudConnection) : M W State unit :=
  let* s := read in
  on_store (ConfigStore.saveConfig B
              (Config.mkAppConfig
                 (Config.ftp_connections (config s))
                 (upsert Config.cloud_id conn (Config.cloud_connections (config s))))).

(** [handleDeleteConn(id, type)]; [ftp] stands for [type === "ftp"]. *)
Definition handleDeleteConn (id : string) (ftp : bool) : M W State unit :=
  let* s := read in
  (if bool_decide (selectedConnId s = Some id)
   then modify (setSelectedConnId None) else ret tt) >>;
  if ftp then
    on_store (ConfigStore.saveConfig B
                (Config.mkAppConfig
                   (without Config.id id (Config.ftp_connections (config s)))
                   (Config.cloud_connections (config s))))
  else
    on_store (ConfigStore.saveConfig B
                (Config.mkAppConfig
                   (Config.ftp_connections (config s))
                   (without Config.cloud_id id (Config.cloud_connections (config s))))).

(** [handleConnect] *)
Definition handleConnect : M W (Logged State) unit :=
  let* s := lift read in
  match selectedFtpConn s with
  | Some c =>
      lift (modify (setConnectionStatus "Connecting…")) >>;
      let* r := perform O (connect_ftp (Config.host c) (Config.port c) (Config.username c)
                                       (if truthy (Config.password c)
                                        then default "" (Config.password c) else "")
                                       (default false (Config.secure c))) in
      match r with
      | Ok result => lift (modify (setConnectionStatus result))
      | Err err => lift (modify (setConnectionStatus ("Error: " +:+ err)))
      end
  | None =>
      match selectedCloudConn s with
      | Some _ => lift (modify (setConnectionStatus "Connected to Cloud Storage"))
      | None => ret tt
      end
  end.

(** [handleDisconnect] *)
Definition handleDisconnect : M W (Logged State) unit :=
  let* r := perform O disconnect_ftp in
  match r with
  | Ok result => lift (modify (setConnectionStatus result))
  | Err err => lift (modify (setConnectionStatus ("Error: " +:+ err)))
  end.

End Handlers.

End Shell.

(** ** Counting in the progress machinery *)

(** How many inputs are ["complete"] events. *)
Definition completions (inputs : list App.Input) : nat :=
  length (List.filter (λ i, match i with
                            | App.Progress p => String.eqb (status p) "complete"
                            | App.Elapse _ => false
                            end) inputs).

(** A backend for the examples of these commands: every command succeeds
    unless [fails] names it. *)
Definition scripted_ops (fails : Op → bool) : OpBackend unit :=
  λ o w, (if fails o then Err "refused" else Ok "done", w).

(** * Properties *)

(** ** Strings *)

Module JsFacts.
Import Js.











Lemma includes_empty (b : string) : includes "" b = true.
Proof. destruct b; reflexivity. Qed.

End JsFacts.

(** ** Lists *)

Lemma filter_sublist {A} (f : A → bool) (l : list A) : sublist (List.filter f l) l.
Proof.
  induction l as [|x l IH]; simpl; [constructor|].
  destruct (f x); by constructor.
Qed.

Lemma elem_of_bool_filter {A} (f : A → bool) (l : list A) (x : A) :
  x ∈ List.filter f l ↔ x ∈ l ∧ f x = true.
Proof. rewrite !list_elem_of_In. apply filter_In. Qed.

(** ** Filtering *)



(** ** The local tree *)

Module FileTreeFacts.
Import FileTree.

Lemma imap_alter {A} (f : A → A) (p : nat) (l : list A) :
  imap (λ i n, if (i =? p)%nat then f n else n) l = alter f p l.
Proof.
  apply list_eq; intros i. rewrite list_lookup_imap.
  destruct (decide (p = i)) as [->|Hne].
  - rewrite list_lookup_alter_eq, Nat.eqb_refl. done.
  - rewrite list_lookup_alter_ne by done.
    assert ((i =? p)%nat = false) as -> by (apply Nat.eqb_neq; congruence).
    by destruct (l !! i).
Qed.

Lemma update_one (p : nat) (t : list TreeNode) : update t [p] = alter toggled p t.
Proof. apply imap_alter. Qed.

Lemma update_deep (p j : nat) (r : list nat) (t : list TreeNode) :
  update t (p :: j :: r) = alter (descend (λ c, update c (j :: r))) p t.
Proof. apply (imap_alter (descend (λ c, update c (j :: r)))). Qed.

Lemma setChildren_one (c : list TreeNode) (p : nat) (t : list TreeNode) :
  setChildren c t [p] = alter (filled c) p t.
Proof. apply imap_alter. Qed.

Lemma setChildren_deep (c : list TreeNode) (p j : nat) (r : list nat) (t : list TreeNode) :
  setChildren c t (p :: j :: r) = alter (descend (λ c', setChildren c c' (j :: r))) p t.
Proof. apply (imap_alter (descend (λ c', setChildren c c' (j :: r)))). Qed.

Lemma node_at_one (t : list TreeNode) (p : nat) : node_at t [p] = t !! p.
Proof. done. Qed.

Lemma node_at_deep (t : list TreeNode) (p j : nat) (r : list nat) :
  node_at t (p :: j :: r) = n ← t !! p; c ← children n; node_at c (j :: r).
Proof. simpl. destruct (t !! p) as [n|]; [|done]. simpl. by destruct (children n). Qed.

(** What the two inner functions do to the node they are aimed at. *)
Lemma node_at_update (idx : list nat) :
  ∀ (t : list TreeNode) (n : TreeNode),
    node_at t idx = Some n → node_at (update t idx) idx = Some (toggled n).
Proof.
  induction idx as [|p rest IH]; [done|]. destruct rest as [|j r]; intros t n.
  - rewrite update_one, !node_at_one, list_lookup_alter_eq. by intros ->.
  - rewrite update_deep, !node_at_deep, list_lookup_alter_eq.
    destruct (t !! p) as [m|]; [simpl|done].
    unfold descend. destruct (children m) as [c|] eqn:Hc; [simpl|done].
    apply IH.
Qed.

Lemma node_at_setChildren (c : list TreeNode) (idx : list nat) :
  ∀ (t : list TreeNode) (n : TreeNode),
    node_at t idx = Some n → node_at (setChildren c t idx) idx = Some (filled c n).
Proof.
  induction idx as [|p rest IH]; [done|]. destruct rest as [|j r]; intros t n.
  - rewrite setChildren_one, !node_at_one, list_lookup_alter_eq. by intros ->.
  - rewrite setChildren_deep, !node_at_deep, list_lookup_alter_eq.
    destruct (t !! p) as [m|]; [simpl|done].
    unfold descend. destruct (children m) as [c'|] eqn:Hc; [simpl|done].
    apply IH.
Qed.

Lemma descend_ext (f g : list TreeNode → list TreeNode) (n : TreeNode) :
  (∀ c, f c = g c) → descend f n = descend g n.
Proof. intros H. unfold descend. destruct (children n); [by rewrite H | done]. Qed.

Lemma update_modify_at (idx : list nat) :
  ∀ t : list TreeNode, update t idx = modify_at toggled t idx.
Proof.
  induction idx as [|p rest IH]; [done|]. destruct rest as [|j r]; intros t.
  - apply update_one.
  - rewrite update_deep. simpl.
    apply list_alter_ext; [|done]. intros m _. by apply descend_ext.
Qed.

Lemma setChildren_modify_at (c : list TreeNode) (idx : list nat) :
  ∀ t : list TreeNode, setChildren c t idx = modify_at (filled c) t idx.
Proof.
  induction idx as [|p rest IH]; [done|]. destruct rest as [|j r]; intros t.
  - apply setChildren_one.
  - rewrite setChildren_deep. simpl.
    apply list_alter_ext; [|done]. intros m _. by apply descend_ext.
Qed.

Lemma children_descend (g : list TreeNode → list TreeNode) (m : TreeNode) :
  children (descend g m) = g <$> children m.
Proof. unfold descend. by destruct (children m) eqn:E; [|rewrite E]. Qed.

Lemma strip_descend (g : list TreeNode → list TreeNode) (m : TreeNode) :
  strip (descend g m) = strip m.
Proof. unfold descend. by destruct (children m). Qed.

Lemma node_at_nil (q : list nat) : node_at [] q = None.
Proof. destruct q as [|i [|j r]]; done. Qed.

(** A change at [idx] is invisible at every address that is not on the way
    to [idx], provided it shows the same nodes below [idx] as before. *)
Lemma node_at_modify_off (f : TreeNode → TreeNode) (idx : list nat) :
  ∀ (t : list TreeNode) (q : list nat),
    ¬ q `prefix_of` idx →
    (∀ n, node_at t idx = Some n →
          ∀ j r, (children (f n) ≫= λ c, node_at c (j :: r))
                 = (children n ≫= λ c, node_at c (j :: r))) →
    node_at (modify_at f t idx) q = node_at t q.
Proof.
  induction idx as [|p rest IH]; [done|]. destruct rest as [|j r]; intros t q Hq Hbelow.
  - destruct q as [|i [|j' r']].
    + destruct Hq. apply prefix_nil.
    + simpl. destruct (decide (p = i)) as [->|Hne]; [by destruct Hq|].
      by rewrite list_lookup_alter_ne.
    + rewrite !node_at_deep. simpl modify_at.
      destruct (decide (p = i)) as [->|Hne]; [|by rewrite list_lookup_alter_ne].
      rewrite list_lookup_alter_eq. destruct (t !! i) as [n|] eqn:Hi; [simpl|done].
      apply Hbelow. by rewrite node_at_one.
  - destruct q as [|i [|j' r']].
    + destruct Hq. apply prefix_nil.
    + destruct (decide (p = i)) as [->|Hne].
      * destruct Hq. by apply prefix_cons, prefix_nil.
      * simpl. by rewrite list_lookup_alter_ne.
    + rewrite !node_at_deep. simpl modify_at.
      destruct (decide (p = i)) as [->|Hne]; [|by rewrite list_lookup_alter_ne].
      rewrite list_lookup_alter_eq. destruct (t !! i) as [m|] eqn:Hi; [|done].
      change (children (descend (λ c, modify_at f c (j :: r)) m)
                ≫= (λ c, node_at c (j' :: r'))
              = children m ≫= (λ c, node_at c (j' :: r'))).
      rewrite children_descend. destruct (children m) as [c|] eqn:Hc; [|done].
      change (node_at (modify_at f c (j :: r)) (j' :: r') = node_at c (j' :: r')).
      apply IH.
      * intros Hp. apply Hq. by apply prefix_cons.
      * intros n Hn. apply Hbelow. rewrite node_at_deep, Hi.
        change (children m ≫= (λ c, node_at c (j :: r)) = Some n). by rewrite Hc.
Qed.

(** On the way to [idx], a change at [idx] alters subtrees only: each
    ancestor keeps its entry and its flags. *)
Lemma node_at_modify_above (f : TreeNode → TreeNode) (idx : list nat) :
  ∀ (t : list TreeNode) (q : list nat),
    q `prefix_of` idx → q ≠ idx →
    strip <$> node_at (modify_at f t idx) q = strip <$> node_at t q.
Proof.
  induction idx as [|p rest IH]; [by intros t [|??]|].
  destruct rest as [|j r]; intros t q Hq Hne.
  - destruct q as [|i q']; [done|]. destruct Hq as [k Hk].
    injection Hk as -> Hk. destruct q'; [done|discriminate].
  - destruct q as [|i [|j' r']]; [done| |].
    + destruct Hq as [k Hk]. injection Hk as -> Hk.
      rewrite !node_at_one. simpl modify_at. rewrite list_lookup_alter_eq.
      destruct (t !! i) as [m|]; [|done].
      change (Some (strip (descend (λ c, modify_at f c (j :: r)) m)) = Some (strip m)).
      by rewrite strip_descend.
    + destruct Hq as [k Hk]. injection Hk as -> Hk.
      rewrite !node_at_deep. simpl modify_at. rewrite list_lookup_alter_eq.
      destruct (t !! i) as [m|]; [|done].
      change (strip <$> (children (descend (λ c, modify_at f c (j :: r)) m)
                           ≫= (λ c, node_at c (j' :: r')))
              = strip <$> (children m ≫= (λ c, node_at c (j' :: r')))).
      rewrite children_descend. destruct (children m) as [c|] eqn:Hc; [|done].
      change (strip <$> node_at (modify_at f c (j :: r)) (j' :: r')
              = strip <$> node_at c (j' :: r')).
      apply IH; [exists k; simpl; congruence | congruence].
Qed.

Section Runs.
Context {W : Type} (B : Backend W).

Lemma loadDir_run (p : string) (s : State) (y : Sys W) :
  loadDir B p s y =
  match do_list_directory B p (world y) with
  | (Ok es, w') =>
      (map fresh es, setError None s, mkSys w' (trace y ++ [ECall (list_directory p)]))
  | (Err e, w') =>
      ([], setError (Some e) (setError None s), mkSys w' (trace y ++ [ECall (list_directory p)]))
  end.
Proof.
  unfold loadDir, bind, modify, invoke, ret; simpl.
  by destruct (do_list_directory B p (world y)) as [[es|e] w'].
Qed.

(** A toggle that does not fetch only rewrites the tree. *)
Lemma toggleFolder_quiet (node : TreeNode) (idx : list nat) (s : State) (y : Sys W) :
  wants_fetch node = false →
  toggleFolder B node idx s y = (tt, setTree (λ prev, update prev idx) s, y).
Proof. intros H. unfold toggleFolder, toggleFolder_begin, bind, modify. simpl. by rewrite H. Qed.

(** A toggle that fetches: one [list_directory] of the node's path, whose
    outcome becomes the children of the node at [idx]. *)
Lemma toggleFolder_fetching (node : TreeNode) (idx : list nat) (s : State) (y : Sys W) :
  wants_fetch node = true →
  ∃ (c : list TreeNode) (e : option string) (w' : W),
    toggleFolder B node idx s y =
    (tt,
     setTree (λ prev, setChildren c prev idx)
       (setError e (setTree (λ prev, update prev idx) s)),
     mkSys w' (trace y ++ [ECall (list_directory (path node))])) ∧
    match fst (do_list_directory B (path node) (world y)) with
    | Ok es => c = map fresh es ∧ e = None
    | Err err => c = [] ∧ e = Some err
    end.
Proof.
  intros H. unfold toggleFolder, toggleFolder_begin, bind, modify. simpl. rewrite H.
  rewrite loadDir_run. simpl.
  destruct (do_list_directory B (path node) (world y)) as [[es|err] w'] eqn:E; simpl.
  - by exists (map fresh es), None, w'.
  - by exists [], (Some err), w'.
Qed.

Lemma click_at_fetched (idx : list nat) (n : TreeNode) (c : list TreeNode)
    (s : State) (y : Sys W) :
  node_at (tree s) idx = Some n → children n = Some c →
  ∃ s', click_at B idx s y = (tt, s', y) ∧
        ∃ n', node_at (tree s') idx = Some n' ∧ children n' = Some c.
Proof.
  intros Hn Hc. unfold click_at, bind, read. simpl. rewrite Hn. unfold onClick.
  assert (wants_fetch n = false) as Hq.
  { unfold wants_fetch, no_children. rewrite Hc. by rewrite andb_false_r. }
  destruct (is_dir n).
  - rewrite toggleFolder_quiet by done. eexists; split; [done|]. simpl.
    exists (toggled n). split; [by apply node_at_update | done].
  - exists s; split; [done|]. by exists n.
Qed.

Lemma clicks_fetched (k : nat) (idx : list nat) :
  ∀ (n : TreeNode) (c : list TreeNode) (s : State) (y : Sys W),
    node_at (tree s) idx = Some n → children n = Some c →
    final_sys (clicks B k idx s y) = y.
Proof.
  induction k as [|k IH]; intros n c s y Hn Hc; [done|].
  simpl. unfold bind.
  destruct (click_at_fetched idx n c s y Hn Hc) as (s' & -> & n' & Hn' & Hc').
  by apply (IH n' c).
Qed.

End Runs.
End FileTreeFacts.

(** ** Rows and addresses *)

Module RenderFacts.
Import FileTree.

(** The rows below a node carry the address of their node, relative to the
    children of that node. *)
Lemma render_node_addressed :
  ∀ (node : TreeNode) (ip : list nat) (d i : nat) (row : Row),
    row ∈ render_node ip d i node →
    (row_path row = ip ++ [i] ∧ row_node row = node) ∨
    (∃ (c : list TreeNode) (j : nat) (q : list nat),
        children node = Some c ∧ row_path row = ip ++ i :: j :: q ∧
        node_at c (j :: q) = Some (row_node row)).
Proof.
  fix IH 1. intros [e ch ex ld] ip d i row. simpl.
  intros [->|Hin]%elem_of_cons; [by left|]. right.
  destruct ex; [|by apply elem_of_nil in Hin].
  destruct ch as [c|]; [|by apply elem_of_nil in Hin].
  exists c.
  assert (∀ k : nat,
            row ∈ (fix go (k : nat) (l : list TreeNode) {struct l} : list Row :=
                     match l with
                     | [] => []
                     | m :: l' => render_node (ip ++ [i]) (S d) k m ++ go (S k) l'
                     end) k c →
            ∃ (j : nat) (q : list nat),
              row_path row = ip ++ i :: (k + j) :: q ∧
              node_at c (j :: q) = Some (row_node row)) as Hgo.
  { clear Hin. induction c as [|m c' IHc]; intros k Hin.
    - by apply elem_of_nil in Hin.
    - apply elem_of_app in Hin as [Hin|Hin].
      + apply IH in Hin as [[Hp Hn]|(c2 & j2 & q2 & Hc2 & Hp & Hn)].
        * exists 0, []. rewrite Hp, <- app_assoc, Nat.add_0_r. by split; [|simpl; f_equal].
        * exists 0, (j2 :: q2). rewrite Hp, <- app_assoc, Nat.add_0_r. split; [done|].
          simpl. by rewrite Hc2.
      + apply IHc in Hin as (j & q & Hp & Hn).
        exists (S j), q. split; [by rewrite Hp, Nat.add_succ_r|].
        by destruct q. }
  destruct (Hgo 0 Hin) as (j & q & Hp & Hn). by exists j, q.
Qed.

Lemma render_from_addressed (l : list TreeNode) :
  ∀ (ip : list nat) (d k : nat) (row : Row),
    row ∈ render_from ip d k l →
    ∃ (j : nat) (q : list nat),
      row_path row = ip ++ (k + j) :: q ∧ node_at l (j :: q) = Some (row_node row).
Proof.
  induction l as [|m l IHl]; intros ip d k row Hin; [by apply elem_of_nil in Hin|].
  simpl in Hin. apply elem_of_app in Hin as [Hin|Hin].
  - apply render_node_addressed in Hin as [[Hp Hn]|(c & j & q & Hc & Hp & Hn)].
    + exists 0, []. rewrite Hp, Nat.add_0_r. by split; [|simpl; f_equal].
    + exists 0, (j :: q). rewrite Hp, Nat.add_0_r. split; [done|]. simpl. by rewrite Hc.
  - apply IHl in Hin as (j & q & Hp & Hn).
    exists (S j), q. split; [by rewrite Hp, Nat.add_succ_r|]. by destruct q.
Qed.

(** Without a search query every row on screen hands its click handler the
    node that sits at the row's index path in the tree. *)
Lemma rows_are_addressed {CF : Js.CaseFolding} (s : State) (row : Row) :
  searchQuery s = "" → row ∈ rows s →
  node_at (tree s) (row_path row) = Some (row_node row).
Proof.
  intros Hq Hin. unfold rows, visibleNodes, renderNodes in Hin. rewrite Hq in Hin.
  simpl in Hin. apply render_from_addressed in Hin as (j & q & Hp & Hn).
  by rewrite Hp.
Qed.

(** So does a click on a row: it is the click at the row's address. *)
Lemma click_row_is_click_at {CF : Js.CaseFolding} {W : Type} (B : Backend W) (k : nat)
    (row : Row)
    (s : State) (y : Sys W) :
  searchQuery s = "" → rows s !! k = Some row →
  click_row B k s y = click_at B (row_path row) s y.
Proof.
  intros Hq Hk. unfold click_row, click_at, bind, read. rewrite Hk.
  by rewrite (rows_are_addressed s row Hq) by by eapply list_elem_of_lookup_2.
Qed.

End RenderFacts.

(** The fetch policy of [toggleFolder]. A toggle of a node whose [children]
    are present, empty or not, talks to the backend not at all, and neither
    does a toggle of an expanded node (a collapse). When the index path is
    the address of the node, and each click is handled to the end before the
    next, a directory shown collapsed and unfetched is listed on the first
    click, with one [list_directory] of its path, and however many clicks
    follow, that call stays the only one. *)
Lemma toggle_fetches_an_unfetched_directory_once {W : Type} (B : Backend W) :
  (∀ (node : TreeNode) (c : list TreeNode) (idx : list nat)
     (s : FileTree.State) (y : Sys W),
      children node = Some c →
      final_sys (FileTree.toggleFolder B node idx s y) = y) ∧
  (∀ (node : TreeNode) (idx : list nat) (s : FileTree.State) (y : Sys W),
      expanded node = true →
      final_sys (FileTree.toggleFolder B node idx s y) = y) ∧
  (∀ (node : TreeNode) (idx : list nat) (s : FileTree.State) (y : Sys W) (k : nat),
      FileTree.node_at (FileTree.tree s) idx = Some node →
      is_dir node = true → expanded node = false → children node = None →
      trace (final_sys (FileTree.clicks B (S k) idx s y))
      = trace y ++ [ECall (list_directory (path node))]).
Proof.
  split_and!.
  - intros node c idx s y Hc.
    rewrite FileTreeFacts.toggleFolder_quiet; [done|].
    unfold FileTree.wants_fetch, FileTree.no_children. rewrite Hc. apply andb_false_r.
  - intros node idx s y He.
    rewrite FileTreeFacts.toggleFolder_quiet; [done|].
    unfold FileTree.wants_fetch. by rewrite He.
  - intros node idx s y k Hn Hd He Hc. simpl. unfold bind.
    unfold FileTree.click_at at 1. unfold bind, read. rewrite Hn.
    unfold FileTree.onClick. rewrite Hd.
    destruct (FileTreeFacts.toggleFolder_fetching B node idx s y) as (c & e & w' & -> & _).
    { unfold FileTree.wants_fetch, FileTree.no_children. by rewrite He, Hc. }
    rewrite (FileTreeFacts.clicks_fetched B k idx
               (FileTree.filled c (FileTree.toggled node)) c); [done| |done].
    simpl. apply FileTreeFacts.node_at_setChildren.
    by apply FileTreeFacts.node_at_update.
Qed.

Lemma toggle_fetches_an_unfetched_directory_once_witness :
  trace (final_sys (FileTree.clicks (Examples.scripted true (λ _, false)) 3 [1]
                      (Examples.local [Examples.file "a.txt"; Examples.dir "docs"])
                      Examples.start))
  = [ECall (list_directory "C:\home\docs")].
Proof.
  apply (proj2 (proj2 (toggle_fetches_an_unfetched_directory_once
                         (Examples.scripted true (λ _, false))))
           (Examples.dir "docs") [1]
           (Examples.local [Examples.file "a.txt"; Examples.dir "docs"])
           Examples.start 2); reflexivity.
Defined.

(** A failed listing is remembered as an empty directory. When the index
    path is the address of the node and the listing that its first expansion
    asks for fails, the node ends up expanded with [children] the empty list
    and [loading] off, and the error is shown; the node renders as its own
    row with nothing below it; no later click on it reaches the backend; a
    refresh of the level that succeeds gives back nodes without [children],
    which a next expansion fetches. *)
Lemma failed_first_expansion_is_cached_as_empty {W : Type} (B : Backend W)
    (node : TreeNode) (idx : list nat) (s : FileTree.State) (y : Sys W) (err : string) :
  FileTree.node_at (FileTree.tree s) idx = Some node →
  is_dir node = true → expanded node = false → children node = None →
  fst (do_list_directory B (path node) (world y)) = Err err →
  let r := FileTree.click_at B idx s y in
  let stuck := mkTreeNode (entry node) (Some []) true false in
  FileTree.node_at (FileTree.tree (final_state r)) idx = Some stuck ∧
  FileTree.error (final_state r) = Some err ∧
  trace (final_sys r) = trace y ++ [ECall (list_directory (path node))] ∧
  (∀ (ip : list nat) (d i : nat),
      FileTree.render_node ip d i stuck = [FileTree.mkRow stuck (ip ++ [i]) d]) ∧
  (∀ k : nat, final_sys (FileTree.clicks B k idx (final_state r) (final_sys r)) = final_sys r) ∧
  (∀ (s1 : FileTree.State) (y1 : Sys W) (es : list FileEntry),
      fst (do_list_directory B (FileTree.currentPath s1) (world y1)) = Ok es →
      Forall (λ n, children n = None ∧ expanded n = false)
             (FileTree.tree (final_state (FileTree.refresh B s1 y1)))).
Proof.
  intros Hn Hd He Hc Hfail r stuck.
  assert (FileTree.wants_fetch node = true) as Hw.
  { unfold FileTree.wants_fetch, FileTree.no_children. by rewrite He, Hc. }
  destruct (FileTreeFacts.toggleFolder_fetching B node idx s y Hw) as (c & e & w' & Hrun & Hout).
  rewrite Hfail in Hout. destruct Hout as [-> ->].
  assert (r = (tt,
               FileTree.setTree (λ prev, FileTree.setChildren [] prev idx)
                 (FileTree.setError (Some err)
                    (FileTree.setTree (λ prev, FileTree.update prev idx) s)),
               mkSys w' (trace y ++ [ECall (list_directory (path node))]))) as Hr.
  { subst r. unfold FileTree.click_at, bind, read. rewrite Hn.
    unfold FileTree.onClick. by rewrite Hd. }
  assert (FileTree.node_at (FileTree.tree (final_state r)) idx = Some stuck) as Hstuck.
  { rewrite Hr. simpl.
    erewrite FileTreeFacts.node_at_setChildren;
      [|by apply FileTreeFacts.node_at_update].
    unfold FileTree.filled, FileTree.toggled, stuck. simpl. by rewrite He. }
  split_and!.
  - done.
  - by rewrite Hr.
  - by rewrite Hr.
  - done.
  - intros k. by apply (FileTreeFacts.clicks_fetched B k idx stuck []).
  - intros s1 y1 es Hok. unfold FileTree.refresh, bind, read, modify. simpl.
    rewrite FileTreeFacts.loadDir_run.
    destruct (do_list_directory B (FileTree.currentPath s1) (world y1)) as [[es'|e'] w1];
      simpl in *; [|done].
    apply Forall_fmap, Forall_true. done.
Qed.

Lemma failed_first_expansion_is_cached_as_empty_witness :
  FileTree.node_at
    (FileTree.tree
       (final_state (FileTree.click_at (Examples.scripted false (λ _, false)) [0]
                       (Examples.local [Examples.dir "docs"]) Examples.start)))
    [0]
  = Some (mkTreeNode (entry (Examples.dir "docs")) (Some []) true false).
Proof.
  apply (failed_first_expansion_is_cached_as_empty
           (Examples.scripted false (λ _, false)) (Examples.dir "docs") [0]
           (Examples.local [Examples.dir "docs"]) Examples.start "os error 5");
    reflexivity.
Defined.

(** ** Clicks on a filtered tree

    With a search query the rows are those of [filteredTree], numbered
    within the filtered list, while [update] and [setChildren] count in the
    whole tree. *)

(** The rows of the worked example: of [a.txt] and [docs], the query
    ["do"] shows [docs] alone, as row 0. *)
Lemma rows_do {CF : Js.CaseFolding} (s : FileTree.State) (a : TreeNode) :
  FileTree.tree s = [a; Examples.dir "docs"] → name a = "a.txt" →
  FileTree.searchQuery s = "do" →
  FileTree.rows s = [FileTree.mkRow (Examples.dir "docs") [0] 0].
Proof.
  intros Ht Ha Hq.
  unfold FileTree.rows, FileTree.visibleNodes, FileTree.filteredTree, FileTree.name_matches.
  rewrite Ht, Hq. cbn [truthy List.filter]. rewrite Ha.
  change (name (Examples.dir "docs")) with "docs".
  rewrite !Js.toLowerCase_ascii by reflexivity. reflexivity.
Qed.

Lemma click_row_docs {CF : Js.CaseFolding} {W : Type} (B : Backend W)
    (s : FileTree.State) (y : Sys W) :
  FileTree.rows s !! 0 = Some (FileTree.mkRow (Examples.dir "docs") [0] 0) →
  ∃ (c : list TreeNode) (e : option string) (w' : W),
    FileTree.click_row B 0 s y
    = (tt,
       FileTree.setTree (λ prev, FileTree.setChildren c prev [0])
         (FileTree.setError e (FileTree.setTree (λ prev, FileTree.update prev [0]) s)),
       mkSys w' (trace y ++ [ECall (list_directory "C:\home\docs")])).
Proof.
  intros Hrow. unfold FileTree.click_row, bind, read. rewrite Hrow.
  destruct (FileTreeFacts.toggleFolder_fetching B (Examples.dir "docs") [0] s y)
    as (c & e & w' & Hrun & _); [reflexivity|].
  by exists c, e, w'.
Qed.

(** C1, evaluated where it fails. The tree holds the file [a.txt] and the
    directory [docs]; the query ["do"] leaves one row, [docs], with index
    path [[0]], which in the tree is the address of [a.txt]. Two clicks on
    that row ask for the listing of [docs] twice, whatever the backend
    answers, and leave [docs] collapsed and without [children]. *)
Theorem filtered_click_fetches_again {CF : Js.CaseFolding} {W : Type} (B : Backend W)
    (y : Sys W) :
  let s := FileTree.setSearchQuery "do"
             (Examples.local [Examples.file "a.txt"; Examples.dir "docs"]) in
  let r := (FileTree.click_row B 0 >>; FileTree.click_row B 0) s y in
  FileTree.rows s = [FileTree.mkRow (Examples.dir "docs") [0] 0] ∧
  FileTree.node_at (FileTree.tree s) [0] = Some (Examples.file "a.txt") ∧
  trace (final_sys r)
  = trace y ++ [ECall (list_directory "C:\home\docs"); ECall (list_directory "C:\home\docs")] ∧
  FileTree.node_at (FileTree.tree (final_state r)) [1] = Some (Examples.dir "docs").
Proof.
  intros s r.
  assert (∃ (c c2 : list TreeNode) (e e2 : option string) (w2 : W),
            r = (tt,
                 FileTree.setTree (λ prev, FileTree.setChildren c2 prev [0])
                   (FileTree.setError e2
                      (FileTree.setTree (λ prev, FileTree.update prev [0])
                         (FileTree.setTree (λ prev, FileTree.setChildren c prev [0])
                            (FileTree.setError e
                               (FileTree.setTree (λ prev, FileTree.update prev [0]) s))))),
                 mkSys w2 ((trace y ++ [ECall (list_directory "C:\home\docs")])
                           ++ [ECall (list_directory "C:\home\docs")])))
    as (c & c2 & e & e2 & w2 & ->).
  { subst r. unfold bind.
    destruct (click_row_docs B s y) as (c & e & w1 & ->);
      [by erewrite rows_do|].
    destruct (click_row_docs B
                (FileTree.setTree (λ prev, FileTree.setChildren c prev [0])
                   (FileTree.setError e
                      (FileTree.setTree (λ prev, FileTree.update prev [0]) s)))
                (mkSys w1 (trace y ++ [ECall (list_directory "C:\home\docs")])))
      as (c2 & e2 & w2 & ->); [by erewrite rows_do|].
    by exists c, c2, e, e2, w2. }
  split_and!; [by eapply rows_do|reflexivity| |reflexivity].
  cbn [final_sys snd trace]. by rewrite <- app_assoc.
Qed.

(** C9, evaluated where it fails. Same tree, same query, a backend whose
    listings fail: after the click on the row of [docs] the error is shown,
    [docs] is still without [children] (the empty list went to [a.txt]),
    and a second click asks for the listing again. *)
Theorem filtered_click_retries_a_failed_listing {CF : Js.CaseFolding} :
  let B := Examples.scripted false (λ _, false) in
  let s := FileTree.setSearchQuery "do"
             (Examples.local [Examples.file "a.txt"; Examples.dir "docs"]) in
  let r1 := FileTree.click_row B 0 s Examples.start in
  let r2 := FileTree.click_row B 0 (final_state r1) (final_sys r1) in
  FileTree.error (final_state r1) = Some "os error 5" ∧
  children <$> FileTree.node_at (FileTree.tree (final_state r1)) [1] = Some None ∧
  children <$> FileTree.node_at (FileTree.tree (final_state r1)) [0] = Some (Some []) ∧
  trace (final_sys r1) = [ECall (list_directory "C:\home\docs")] ∧
  trace (final_sys r2)
  = [ECall (list_directory "C:\home\docs"); ECall (list_directory "C:\home\docs")].
Proof.
  intros B s r1 r2.
  assert (r1 = FileTree.onClick B (Examples.dir "docs") [0] s Examples.start) as H1.
  { subst r1. unfold FileTree.click_row, bind, read. by erewrite rows_do. }
  assert (r2 = FileTree.onClick B (Examples.dir "docs") [0] (final_state r1) (final_sys r1))
    as H2.
  { subst r2. unfold FileTree.click_row, bind, read. rewrite H1. by erewrite rows_do. }
  rewrite H2, H1. by split_and!.
Qed.

(** ** Listing failures *)

Module RemoteFacts.
Import RemoteFileTree.

Section Runs.
Context {W : Type} (B : Backend W).

Lemma loadRemoteDir_cloud (cfg : CloudConnection) (stack : list Crumb)
    (path dirName : option string) (s : State) (y : Sys W) :
  loadRemoteDir B (Some cfg) stack path dirName s y =
  let fid := folderId stack path in
  let next := nextStack stack path dirName in
  let s0 := setError None (setLoading true s) in
  match do_list_cloud_directory B (provider cfg) (access_token cfg) fid (world y) with
  | (Ok files, w') =>
      (tt,
       setLoading false
         (onPathChange (cloud_pwd next)
            (setRemotePath (cloud_pwd next)
               (setEntries files
                  (if stack_is_set path dirName then setPathStack next s0 else s0)))),
       mkSys w' (trace y ++ [ECall (list_cloud_directory (provider cfg) (access_token cfg) fid)]))
  | (Err e, w') =>
      (tt, setLoading false (setEntries [] (setError (Some e) s0)),
       mkSys w' (trace y ++ [ECall (list_cloud_directory (provider cfg) (access_token cfg) fid)]))
  end.
Proof.
  unfold loadRemoteDir, bind, modify, invoke, ret. simpl.
  destruct (do_list_cloud_directory B (provider cfg) (access_token cfg)
              (folderId stack path) (world y)) as [[files|e] w']; [|done].
  by destruct (stack_is_set path dirName).
Qed.

Lemma loadRemoteDir_ftp (stack : list Crumb) (path dirName : option string)
    (s : State) (y : Sys W) :
  loadRemoteDir B None stack path dirName s y =
  let s0 := setError None (setLoading true s) in
  match do_list_remote_directory B path (world y) with
  | (Ok files, w') =>
      match do_get_remote_pwd B w' with
      | (Ok pwd, w'') =>
          (tt, setLoading false (onPathChange pwd (setRemotePath pwd (setEntries files s0))),
           mkSys w'' (trace y ++ [ECall (list_remote_directory path)] ++ [ECall get_remote_pwd]))
      | (Err e, w'') =>
          (tt, setLoading false (setEntries [] (setError (Some e) s0)),
           mkSys w'' (trace y ++ [ECall (list_remote_directory path)] ++ [ECall get_remote_pwd]))
      end
  | (Err e, w') =>
      (tt, setLoading false (setEntries [] (setError (Some e) s0)),
       mkSys w' (trace y ++ [ECall (list_remote_directory path)]))
  end.
Proof.
  unfold loadRemoteDir, bind, modify, invoke, ret. simpl.
  destruct (do_list_remote_directory B path (world y)) as [[files|e] w']; [|done].
  simpl. rewrite <- app_assoc.
  by destruct (do_get_remote_pwd B w') as [[pwd|e] w''].
Qed.

End Runs.
End RemoteFacts.

(** C2, as the claim has it, fails: a refresh whose listing fails replaces
    the tree by the empty list, and a remote listing that fails replaces the
    entries by the empty list. *)
Lemma failed_listing_discards_the_level :
  let s := Examples.local [Examples.dir "docs"; Examples.file "a.txt"] in
  let r := FileTree.refresh (Examples.scripted false (λ _, false)) s Examples.start in
  let s' := Examples.remote [Examples.rentry "a.txt"] [] in
  let r' := RemoteFileTree.relist (Examples.scripted false (λ _, false)) None s' Examples.start in
  FileTree.error (final_state r) = Some "os error 5" ∧
  FileTree.tree (final_state r) = [] ∧
  FileTree.tree (final_state r) ≠ FileTree.tree s ∧
  RemoteFileTree.error (final_state r') = Some "timed out" ∧
  RemoteFileTree.entries (final_state r') = [] ∧
  RemoteFileTree.entries (final_state r') ≠ RemoteFileTree.entries s'.
Proof. by split_and!. Qed.

(** C2, amended. A listing that fails sets the error string of its view. A
    failed refresh of the level leaves the tree empty; a failed remote
    listing leaves the entry list empty, with the path stack and the shown
    path as they were and [loading] off; a failed first expansion changes
    the tree at the expanded node only, which gets the empty list for
    children: every node off the way to it is as before, and every node on
    the way keeps its entry and flags. *)
Theorem failed_listing_sets_error_and_empties_its_target {W : Type} (B : Backend W) :
  (∀ (s : FileTree.State) (y : Sys W) (err : string),
      fst (do_list_directory B (FileTree.currentPath s) (world y)) = Err err →
      FileTree.error (final_state (FileTree.refresh B s y)) = Some err ∧
      FileTree.tree (final_state (FileTree.refresh B s y)) = []) ∧
  (∀ (cloudConfig : option CloudConnection) (stack : list Crumb)
     (path dirName : option string) (s : RemoteFileTree.State) (y : Sys W) (err : string),
      match cloudConfig with
      | Some cfg =>
          fst (do_list_cloud_directory B (provider cfg) (access_token cfg)
                 (RemoteFileTree.folderId stack path) (world y)) = Err err
      | None =>
          fst (do_list_remote_directory B path (world y)) = Err err ∨
          (∃ files, fst (do_list_remote_directory B path (world y)) = Ok files) ∧
          fst (do_get_remote_pwd B (snd (do_list_remote_directory B path (world y)))) = Err err
      end →
      let s' := final_state (RemoteFileTree.loadRemoteDir B cloudConfig stack path dirName s y) in
      RemoteFileTree.error s' = Some err ∧
      RemoteFileTree.entries s' = [] ∧
      RemoteFileTree.pathStack s' = RemoteFileTree.pathStack s ∧
      RemoteFileTree.remotePath s' = RemoteFileTree.remotePath s ∧
      RemoteFileTree.loading s' = false) ∧
  (∀ (node : TreeNode) (idx : list nat) (s : FileTree.State) (y : Sys W) (err : string),
      FileTree.node_at (FileTree.tree s) idx = Some node →
      expanded node = false → children node = None →
      fst (do_list_directory B (path node) (world y)) = Err err →
      let s' := final_state (FileTree.toggleFolder B node idx s y) in
      FileTree.error s' = Some err ∧
      FileTree.node_at (FileTree.tree s') idx
      = Some (mkTreeNode (entry node) (Some []) true false) ∧
      (∀ q : list nat, ¬ q `prefix_of` idx →
          FileTree.node_at (FileTree.tree s') q = FileTree.node_at (FileTree.tree s) q) ∧
      (∀ q : list nat, q `prefix_of` idx → q ≠ idx →
          FileTree.strip <$> FileTree.node_at (FileTree.tree s') q
          = FileTree.strip <$> FileTree.node_at (FileTree.tree s) q)).
Proof.
  split_and!.
  - intros s y err Hfail. unfold FileTree.refresh, bind, read, modify. simpl.
    rewrite FileTreeFacts.loadDir_run.
    by destruct (do_list_directory B (FileTree.currentPath s) (world y)) as [[es|e] w'];
      simpl in *; simplify_eq.
  - intros [cfg|] stack path dirName s y err Hfail s'; subst s'.
    + rewrite RemoteFacts.loadRemoteDir_cloud. simpl.
      by destruct (do_list_cloud_directory B (provider cfg) (access_token cfg)
                     (RemoteFileTree.folderId stack path) (world y)) as [[fs|e] w'];
        simpl in *; simplify_eq.
    + rewrite RemoteFacts.loadRemoteDir_ftp. simpl.
      destruct (do_list_remote_directory B path (world y)) as [[fs|e] w']; simpl in *.
      * destruct Hfail as [?|[_ Hpwd]]; [done|].
        by destruct (do_get_remote_pwd B w') as [[pwd|e] w'']; simpl in *; simplify_eq.
      * destruct Hfail as [?|[[fs ?] _]]; by simplify_eq.
  - intros node idx s y err Hn He Hc Hfail s'; subst s'.
    destruct (FileTreeFacts.toggleFolder_fetching B node idx s y)
      as (c & e & w' & -> & Hout).
    { unfold FileTree.wants_fetch, FileTree.no_children. by rewrite He, Hc. }
    rewrite Hfail in Hout. destruct Hout as [-> ->]. simpl.
    assert (FileTree.node_at (FileTree.update (FileTree.tree s) idx) idx
            = Some (FileTree.toggled node)) as Hmid
        by by apply FileTreeFacts.node_at_update.
    split_and!.
    + done.
    + erewrite FileTreeFacts.node_at_setChildren by done.
      unfold FileTree.filled, FileTree.toggled. simpl. by rewrite He.
    + intros q Hq.
      rewrite FileTreeFacts.setChildren_modify_at, FileTreeFacts.update_modify_at.
      rewrite FileTreeFacts.node_at_modify_off; [|done|].
      * by apply FileTreeFacts.node_at_modify_off.
      * rewrite <- FileTreeFacts.update_modify_at, Hmid. intros n [= <-] j r.
        unfold FileTree.filled, FileTree.toggled. cbn [children]. rewrite Hc.
        apply FileTreeFacts.node_at_nil.
    + intros q Hq Hne.
      rewrite FileTreeFacts.setChildren_modify_at, FileTreeFacts.update_modify_at.
      rewrite FileTreeFacts.node_at_modify_above by done.
      by apply FileTreeFacts.node_at_modify_above.
Qed.

Lemma failed_listing_sets_error_and_empties_its_target_witness :
  FileTree.node_at
    (FileTree.tree
       (final_state
          (FileTree.toggleFolder (Examples.scripted false (λ _, false))
             (Examples.dir "docs") [1]
             (Examples.local [Examples.file "a.txt"; Examples.dir "docs"]) Examples.start)))
    [0]
  = Some (Examples.file "a.txt").
Proof.
  refine (proj1 (proj2 (proj2
    (proj2 (proj2 (failed_listing_sets_error_and_empties_its_target
                     (Examples.scripted false (λ _, false))))
       (Examples.dir "docs") [1]
       (Examples.local [Examples.file "a.txt"; Examples.dir "docs"])
       Examples.start "os error 5" _ _ _ _))) [0] _).
  - reflexivity.
  - reflexivity.
  - reflexivity.
  - reflexivity.
  - intros [k Hk]. discriminate.
Defined.

(** ** Drops on the remote pane *)

Lemma calls_of_app (a b : list Event) : calls_of (a ++ b) = calls_of a ++ calls_of b.
Proof. apply omap_app. Qed.

Lemma msgs_of_app (a b : list Event) : msgs_of (a ++ b) = msgs_of a ++ msgs_of b.
Proof. apply omap_app. Qed.

Module DropFacts.
Import RemoteFileTree.

Section Runs.
Context {W : Type} (B : Backend W) (cloudConfig : option CloudConnection).

(** One file: the state is left alone and one block joins the trace. *)
Lemma upload_one_run (rp : string) (file : DroppedFile) (s : State) (y : Sys W) :
  ∃ (b : list Event) (w' : W),
    upload_one B cloudConfig rp file s y = (tt, s, mkSys w' (trace y ++ b)) ∧
    upload_block cloudConfig rp file b.
Proof.
  unfold upload_one, upload_block, upload_call.
  destruct (truthy (file_path file)); [|by eexists _, _].
  destruct cloudConfig as [cfg|]; unfold bind, emit, invoke; cbn [world trace].
  - destruct (do_upload_cloud_file B (provider cfg) (access_token cfg)
                (default "" (file_path file)) (parentId rp) (world y)) as [[res|e] w'];
      cbn [world trace]; eexists _, w'; rewrite <- !app_assoc; simpl; split; eauto.
  - destruct (do_upload_file B (default "" (file_path file)) (file_name file) (world y))
      as [[res|e] w'];
      cbn [world trace]; eexists _, w'; rewrite <- !app_assoc; simpl; split; eauto.
Qed.

(** The loop: one block per file, in the order of the files. *)
Lemma upload_all_run (rp : string) (files : list DroppedFile) :
  ∀ (s : State) (y : Sys W),
    ∃ (blocks : list (list Event)) (w' : W),
      for_each files (upload_one B cloudConfig rp) s y
      = (tt, s, mkSys w' (trace y ++ concat blocks)) ∧
      Forall2 (upload_block cloudConfig rp) files blocks.
Proof.
  induction files as [|f files IH]; intros s y.
  - exists [], (world y). simpl. rewrite app_nil_r. by destruct y.
  - simpl. unfold bind.
    destruct (upload_one_run rp f s y) as (b & w1 & -> & Hb).
    destruct (IH s (mkSys w1 (trace y ++ b))) as (blocks & w2 & -> & Hbs).
    exists (b :: blocks), w2. simpl. rewrite <- app_assoc. by split; [|constructor].
Qed.

(** The re-list that closes the batch. *)
Lemma relist_run (stack : list Crumb) (s : State) (y : Sys W) :
  ∃ (tail : list Event),
    trace (final_sys (loadRemoteDir B cloudConfig stack None None s y)) = trace y ++ tail ∧
    one_relist tail.
Proof.
  destruct cloudConfig as [cfg|].
  - rewrite RemoteFacts.loadRemoteDir_cloud. simpl.
    destruct (do_list_cloud_directory B (provider cfg) (access_token cfg)
                (folderId stack None) (world y)) as [[fs|e] w'];
      simpl; eexists; (split; [done|]); by eexists _, [].
  - rewrite RemoteFacts.loadRemoteDir_ftp. simpl.
    destruct (do_list_remote_directory B None (world y)) as [[fs|e] w']; simpl.
    + destruct (do_get_remote_pwd B w') as [[pwd|e] w'']; simpl;
        eexists; (split; [done|]); eexists _, [_]; split_and!; try done;
        by repeat constructor.
    + eexists; (split; [done|]); by eexists _, [].
Qed.

(** The loop again, with each outcome line tied to the backend's answer. *)
Lemma upload_all_log (rp : string) (files : list DroppedFile) :
  ∀ (s : State) (y : Sys W),
    ∃ (blocks : list (list Event)) (w' : W),
      for_each files (upload_one B cloudConfig rp) s y
      = (tt, s, mkSys w' (trace y ++ concat blocks)) ∧
      batch_log B cloudConfig rp (world y) files blocks w'.
Proof.
  induction files as [|f files IH]; intros s y.
  - exists [], (world y). simpl. rewrite app_nil_r. split; [by destruct y|constructor].
  - cbn [for_each]. unfold bind.
    destruct (has_path f) eqn:Hp.
    + assert (upload_one B cloudConfig rp f s y
              = (tt, s,
                 mkSys (snd (upload_answer B cloudConfig rp f (world y)))
                       (trace y ++ [EMsg ("Uploading " +:+ file_name f +:+ "…");
                                    ECall (upload_call cloudConfig rp f);
                                    EMsg (outcome_line
                                            (fst (upload_answer B cloudConfig rp f
                                                    (world y))))]))) as ->.
      { unfold upload_one, upload_answer, upload_call, outcome_line.
        unfold has_path in Hp. rewrite Hp.
        destruct cloudConfig as [cfg|]; unfold bind, emit, invoke; cbn [world trace].
        - destruct (do_upload_cloud_file B (provider cfg) (access_token cfg)
                      (default "" (file_path f)) (parentId rp) (world y)) as [[res|e] w'];
            cbn [world trace fst snd]; by rewrite <- !app_assoc.
        - destruct (do_upload_file B (default "" (file_path f)) (file_name f) (world y))
            as [[res|e] w'];
            cbn [world trace fst snd]; by rewrite <- !app_assoc. }
      match goal with
      | |- context [for_each files _ s ?y1] =>
          destruct (IH s y1) as (blocks & w2 & -> & Hbs)
      end.
      eexists (_ :: blocks), w2. cbn [trace world] in *. split.
      * by rewrite <- app_assoc.
      * by constructor.
    + assert (upload_one B cloudConfig rp f s y
              = (tt, s,
                 mkSys (world y)
                       (trace y ++ [EMsg ("Cannot upload " +:+ file_name f
                                          +:+ " — no path available")]))) as ->.
      { unfold upload_one. unfold has_path in Hp. by rewrite Hp. }
      match goal with
      | |- context [for_each files _ s ?y1] =>
          destruct (IH s y1) as (blocks & w2 & -> & Hbs)
      end.
      eexists (_ :: blocks), w2. cbn [trace world] in *. split.
      * by rewrite <- app_assoc.
      * by constructor.
Qed.

Lemma batch_log_blocks (rp : string) (w w' : W) (files : list DroppedFile)
    (blocks : list (list Event)) :
  batch_log B cloudConfig rp w files blocks w' →
  Forall2 (upload_block cloudConfig rp) files blocks.
Proof.
  induction 1 as [|w f files blocks w' Hp _ IH|w f files blocks w' Hp _ IH];
    constructor; try done; unfold upload_block; unfold has_path in Hp; rewrite Hp;
    [by eexists|done].
Qed.

(** The re-list that closes the batch, command by command. *)
Lemma relist_log (stack : list Crumb) (s : State) (y : Sys W) :
  trace (final_sys (loadRemoteDir B cloudConfig stack None None s y))
  = trace y ++ relist_events B cloudConfig (world y).
Proof.
  unfold relist_events. destruct cloudConfig as [cfg|].
  - rewrite RemoteFacts.loadRemoteDir_cloud. simpl.
    by destruct (do_list_cloud_directory B (provider cfg) (access_token cfg)
                   (folderId stack None) (world y)) as [[fs|e] w'].
  - rewrite RemoteFacts.loadRemoteDir_ftp. simpl.
    destruct (do_list_remote_directory B None (world y)) as [[fs|e] w']; simpl; [|done].
    by destruct (do_get_remote_pwd B w') as [[pwd|e] w''].
Qed.

Lemma calls_of_blocks (rp : string) (files : list DroppedFile) (blocks : list (list Event)) :
  Forall2 (upload_block cloudConfig rp) files blocks →
  calls_of (concat blocks) = map (upload_call cloudConfig rp) (List.filter has_path files).
Proof.
  induction 1 as [|f b files blocks Hb _ IH]; [done|].
  simpl. rewrite calls_of_app, IH. unfold upload_block in Hb. unfold has_path.
  destruct (truthy (file_path f)).
  - by destruct Hb as [o ->].
  - by rewrite Hb.
Qed.

Lemma msgs_of_blocks (rp : string) (files : list DroppedFile) (blocks : list (list Event)) :
  Forall2 (upload_block cloudConfig rp) files blocks →
  length (msgs_of (concat blocks))
  = (length files + length (List.filter has_path files))%nat.
Proof.
  induction 1 as [|f b files blocks Hb _ IH]; [done|].
  simpl. rewrite msgs_of_app, length_app, IH. unfold upload_block in Hb. unfold has_path.
  destruct (truthy (file_path f)).
  - destruct Hb as [o ->]. simpl. lia.
  - rewrite Hb. simpl. lia.
Qed.

End Runs.
End DropFacts.

(** C3, as the claim has it, fails: a drop of one file that uploads well
    adds four lines to the transfer log, not one, and a drop of no file
    ends without a re-list. *)
Lemma drop_log_is_longer_than_the_batch :
  let B := Examples.scripted true (λ _, false) in
  let s := Examples.remote [] [] in
  let one := RemoteFileTree.handleDrop B None [Examples.dropped "a.txt"] s Examples.start in
  let none := RemoteFileTree.handleDrop B None [] s Examples.start in
  msgs_of (trace (final_sys one))
  = ["DEBUG: Remote handleDrop event detected"; "DEBUG: Remote files count: 1";
     "Uploading a.txt…"; "Uploaded a.txt"] ∧
  length (msgs_of (trace (final_sys one))) ≠ 1%nat ∧
  calls_of (trace (final_sys none)) = [].
Proof. by split_and!. Qed.

(** C3, amended. A drop of at least one file logs two debug lines, then
    works through the files in drop order: a file with a path gets its start
    line, its upload and one outcome line, which is the backend's message
    or ["Upload error: "] and the error it gave, and the next file is
    taken up whatever that outcome was; a file without a path gets one line
    and no upload. After the last file comes one re-list of the pane,
    [loadRemoteDir()] without a path, and nothing else. So the uploads are
    those of the files with a path, in drop order, and the log grows by two
    lines, one per file, and one more per file with a path. A drop of no
    file logs the two debug lines and stops. *)
Theorem drop_uploads_in_order_then_relists_once {W : Type} (B : Backend W)
    (cloudConfig : option CloudConnection) :
  (∀ (files : list DroppedFile) (s : RemoteFileTree.State) (y : Sys W),
      files ≠ [] →
      ∃ (blocks : list (list Event)) (tail : list Event) (w1 : W),
        trace (final_sys (RemoteFileTree.handleDrop B cloudConfig files s y))
        = trace y
          ++ [EMsg "DEBUG: Remote handleDrop event detected";
              EMsg ("DEBUG: Remote files count: " +:+ pretty (length files))]
          ++ concat blocks ++ tail ∧
        RemoteFileTree.batch_log B cloudConfig (RemoteFileTree.remotePath s)
          (world y) files blocks w1 ∧
        Forall2 (RemoteFileTree.upload_block cloudConfig (RemoteFileTree.remotePath s))
                files blocks ∧
        tail = RemoteFileTree.relist_events B cloudConfig w1 ∧
        RemoteFileTree.one_relist tail ∧
        calls_of (concat blocks)
        = map (RemoteFileTree.upload_call cloudConfig (RemoteFileTree.remotePath s))
              (List.filter RemoteFileTree.has_path files) ∧
        length (msgs_of (trace (final_sys (RemoteFileTree.handleDrop B cloudConfig files s y))))
        = (length (msgs_of (trace y)) + 2 + length files
           + length (List.filter RemoteFileTree.has_path files))%nat) ∧
  (∀ (s : RemoteFileTree.State) (y : Sys W),
      final_sys (RemoteFileTree.handleDrop B cloudConfig [] s y)
      = mkSys (world y)
              (trace y ++ [EMsg "DEBUG: Remote handleDrop event detected";
                           EMsg "DEBUG: Remote files count: 0"])).
Proof.
  split.
  - intros files s y Hne. destruct files as [|f files]; [done|].
    unfold RemoteFileTree.handleDrop, bind, read, emit, modify.
    cbn [world trace].
    set (y1 := mkSys (world y) _).
    destruct (DropFacts.upload_all_log B cloudConfig (RemoteFileTree.remotePath s)
                (f :: files) (RemoteFileTree.setDragging false s) y1)
      as (blocks & w2 & -> & Hlog).
    pose proof (DropFacts.batch_log_blocks B cloudConfig _ _ _ _ _ Hlog) as Hbs.
    pose proof (DropFacts.relist_log B cloudConfig (RemoteFileTree.pathStack s)
                  (RemoteFileTree.setDragging false s)
                  (mkSys w2 (trace y1 ++ concat blocks))) as Ht.
    destruct (DropFacts.relist_run B cloudConfig (RemoteFileTree.pathStack s)
                (RemoteFileTree.setDragging false s)
                (mkSys w2 (trace y1 ++ concat blocks))) as (tail & Ht' & Htail).
    rewrite Ht in Ht'. apply app_inv_head in Ht'. subst tail.
    exists blocks, (RemoteFileTree.relist_events B cloudConfig w2), w2.
    rewrite Ht. subst y1. cbn [trace world] in *.
    split_and!.
    + by rewrite <- !app_assoc.
    + done.
    + done.
    + done.
    + done.
    + by apply DropFacts.calls_of_blocks.
    + rewrite !msgs_of_app, !length_app.
      rewrite (DropFacts.msgs_of_blocks cloudConfig _ _ _ Hbs).
      destruct Htail as (c & rest & _ & -> & _). simpl. lia.
  - intros s y. unfold RemoteFileTree.handleDrop, bind, read, emit, modify, ret.
    simpl. by rewrite <- app_assoc.
Qed.

Lemma drop_uploads_in_order_then_relists_once_witness :
  ∃ (blocks : list (list Event)) (tail : list Event),
    trace (final_sys
             (RemoteFileTree.handleDrop (Examples.scripted true (String.eqb "C:\in\b.txt"))
                None [Examples.dropped "a.txt"; Examples.dropped "b.txt"; Examples.dropped "c.txt"]
                (Examples.remote [] []) Examples.start))
    = [] ++ [EMsg "DEBUG: Remote handleDrop event detected";
             EMsg ("DEBUG: Remote files count: " +:+ pretty 3%nat)]
      ++ concat blocks ++ tail ∧
    RemoteFileTree.batch_log (Examples.scripted true (String.eqb "C:\in\b.txt")) None "/" tt
      [Examples.dropped "a.txt"; Examples.dropped "b.txt"; Examples.dropped "c.txt"]
      blocks tt ∧
    tail = [ECall (list_remote_directory None); ECall get_remote_pwd] ∧
    calls_of (concat blocks)
    = [upload_file "C:\in\a.txt" "a.txt"; upload_file "C:\in\b.txt" "b.txt";
       upload_file "C:\in\c.txt" "c.txt"].
Proof.
  destruct (proj1 (drop_uploads_in_order_then_relists_once
                     (Examples.scripted true (String.eqb "C:\in\b.txt")) None)
              [Examples.dropped "a.txt"; Examples.dropped "b.txt"; Examples.dropped "c.txt"]
              (Examples.remote [] []) Examples.start)
    as (blocks & tail & w1 & Htr & Hlog & _ & Htail & _ & Hc & _).
  - discriminate.
  - exists blocks, tail. destruct w1. split_and!; [exact Htr | exact Hlog | exact Htail | exact Hc].
Defined.

(** ** Drops from the operating system *)

Module AppFacts.
Import App.

Section Runs.
Context {W : Type} (B : Backend W).

Lemma drop_one_run (s0 : State) (filePath : string) (s : State) (y : Sys W) :
  ∃ (w' : W) (m1 m2 : string),
    drop_one B s0 filePath s y
    = (tt, s, mkSys w' (trace y ++ [EMsg m1; ECall (route s0 filePath); EMsg m2])).
Proof.
  unfold drop_one, route, bind, emit, invoke.
  destruct (isRemoteConnected s0); [destruct (selectedCloudConn s0) as [cfg|]|];
    cbn [world trace];
    match goal with
    | |- context [let '(_, _) := ?call in _] => destruct call as [[res|e] w']
    end;
    cbn [world trace]; eexists w', _, _; by rewrite <- !app_assoc.
Qed.

Lemma drop_all_run (s0 : State) (paths : list string) :
  ∀ (s : State) (y : Sys W),
    ∃ y' : Sys W,
      for_each paths (drop_one B s0) s y = (tt, s, y') ∧
      calls_of (trace y') = calls_of (trace y) ++ map (route s0) paths.
Proof.
  induction paths as [|p paths IH]; intros s y.
  - exists y. simpl. by rewrite app_nil_r.
  - simpl. unfold bind.
    destruct (drop_one_run s0 p s y) as (w1 & m1 & m2 & ->).
    destruct (IH s (mkSys w1 (trace y ++ [EMsg m1; ECall (route s0 p); EMsg m2])))
      as (y' & -> & Hc).
    exists y'. split; [done|]. rewrite Hc. cbn [trace].
    rewrite calls_of_app. simpl. by rewrite <- app_assoc.
Qed.

(** The commands of a native drop: one per path, in order, each chosen by
    [route] from the state the listener saw. *)
Lemma onDragDrop_calls (paths : list string) (s : State) (y : Sys W) :
  calls_of (trace (final_sys (onDragDrop B paths s y)))
  = calls_of (trace y) ++ map (route s) paths.
Proof.
  unfold onDragDrop, bind, read. destruct paths as [|p paths].
  - simpl. by rewrite app_nil_r.
  - destruct (drop_all_run s (p :: paths) s y) as (y' & -> & Hc). by simpl.
Qed.

(** With the listener's test negative, every path is copied to the home
    directory; with it positive, every path is uploaded. *)
Lemma onDragDrop_routing (paths : list string) (s : State) (y : Sys W) :
  Forall (λ c, if isRemoteConnected s then is_upload c = true else is_copy_to_local c = true)
         (map (route s) paths).
Proof.
  apply Forall_fmap, Forall_true. intros p. unfold route. simpl.
  destruct (isRemoteConnected s); [|done]. by destruct (selectedCloudConn s).
Qed.

End Runs.
End AppFacts.

(** A drop on the local pane: every file with a path is copied into the
    current directory, in drop order, and the level is listed once at the
    end; no upload is ever asked for. *)
Lemma local_drop_copies {W : Type} (B : Backend W) (files : list DroppedFile)
    (s : FileTree.State) (y : Sys W) :
  files ≠ [] →
  calls_of (trace (final_sys (FileTree.handleDrop B files s y)))
  = calls_of (trace y)
    ++ map (λ f, copy_to_local (default "" (file_path f)) (FileTree.currentPath s))
           (List.filter (λ f, truthy (file_path f)) files)
    ++ [list_directory (FileTree.currentPath s)].
Proof.
  intros Hne. destruct files as [|f0 files0]; [done|]. clear Hne.
  unfold FileTree.handleDrop, bind, read, emit, modify. cbn [world trace].
  set (s1 := FileTree.setDragging false s).
  set (cp := FileTree.currentPath s).
  assert (∀ (fs : list DroppedFile) (y1 : Sys W),
            ∃ y2 : Sys W,
              for_each fs (FileTree.copy_one B cp) s1 y1 = (tt, s1, y2) ∧
              calls_of (trace y2)
              = calls_of (trace y1)
                ++ map (λ f, copy_to_local (default "" (file_path f)) cp)
                       (List.filter (λ f, truthy (file_path f)) fs)) as Hloop.
  { induction fs as [|f fs IH]; intros y1.
    - exists y1. simpl. by rewrite app_nil_r.
    - cbn [for_each List.filter]. unfold bind at 1.
      assert (∃ y1' : Sys W,
                FileTree.copy_one B cp f s1 y1 = (tt, s1, y1') ∧
                calls_of (trace y1')
                = calls_of (trace y1)
                  ++ (if truthy (file_path f)
                      then [copy_to_local (default "" (file_path f)) cp] else []))
        as (y1' & -> & Hc1).
      { unfold FileTree.copy_one. destruct (truthy (file_path f)).
        - unfold bind, emit, invoke. cbn [world trace].
          destruct (do_copy_to_local B (default "" (file_path f)) cp (world y1))
            as [[res|e] w']; cbn [world trace]; eexists; (split; [done|]);
            cbn [trace]; rewrite !calls_of_app; simpl;
            rewrite ?app_nil_r, <- ?app_assoc; done.
        - unfold emit. eexists; split; [done|]. cbn [trace].
          rewrite calls_of_app. simpl. by rewrite !app_nil_r. }
      destruct (IH y1') as (y2 & -> & Hc2). exists y2. split; [done|].
      rewrite Hc2, Hc1, <- app_assoc. by destruct (truthy (file_path f)). }
  destruct (Hloop (f0 :: files0)
              (mkSys (world y)
                 ((trace y ++ [EMsg "DEBUG: Local handleDrop event detected"])
                  ++ [EMsg ("DEBUG: Local files count: " +:+ pretty (length (f0 :: files0)))])))
    as (y2 & -> & Hc).
  rewrite FileTreeFacts.loadDir_run.
  destruct (do_list_directory B cp (world y2)) as [[es|e] w'].
  all: cbn [final_sys snd trace world].
  all: rewrite ?calls_of_app, ?Hc; cbn [trace].
  all: rewrite ?calls_of_app; simpl; rewrite ?app_nil_r, <- ?app_assoc.
  all: done.
Qed.

(** C4, evaluated where it fails. In the state the application starts in
    the status reads ["Not Connected"]; once a saved FTP connection is
    selected in the sidebar, and before any connect, the listener's test is
    positive, the remote pane is mounted, and every dropped path goes to
    [upload_file], none to [copy_to_local]. *)
Theorem drop_before_connecting_is_uploaded {W : Type} (B : Backend W)
    (home : string) (c : Config.FtpConnection) (paths : list string) (y : Sys W) :
  let s := App.setSelectedFtpConn (Some c) (App.initial home) in
  App.connectionStatus s = "Not Connected" ∧
  App.isRemoteConnected s = true ∧
  (Config.name c ≠ "" → App.right_pane s = App.RemoteTree None) ∧
  calls_of (trace (final_sys (App.onDragDrop B paths s y)))
  = calls_of (trace y) ++ map (λ p, upload_file p (App.fileName p)) paths ∧
  Forall (λ c, is_copy_to_local c = false)
         (map (λ p, upload_file p (App.fileName p)) paths).
Proof.
  intros s. split_and!.
  - done.
  - done.
  - intros Hn. unfold App.right_pane. simpl.
    destruct (Config.name c) eqn:E; [done|]. done.
  - by rewrite AppFacts.onDragDrop_calls.
  - by apply Forall_fmap, Forall_true.
Qed.

Lemma drop_before_connecting_is_uploaded_witness :
  App.right_pane (App.setSelectedFtpConn (Some Examples.server) (App.initial "C:\home"))
  = App.RemoteTree None ∧
  calls_of (trace (final_sys
     (App.onDragDrop (Examples.scripted true (λ _, false)) ["C:\in\a.txt"]
        (App.setSelectedFtpConn (Some Examples.server) (App.initial "C:\home"))
        Examples.start)))
  = [upload_file "C:\in\a.txt" "a.txt"].
Proof.
  destruct (drop_before_connecting_is_uploaded (Examples.scripted true (λ _, false))
              "C:\home" Examples.server ["C:\in\a.txt"] Examples.start)
    as (_ & _ & Hp & Hc & _).
  split; [apply Hp; discriminate | exact Hc].
Defined.

(** ** Progress events and the clean-up timer *)

Module ProgressFacts.
Import App.

Lemma fire_all_lookup (ids : list string) :
  ∀ (s : State) (id : string),
    activeTransfers (foldl fire s ids) !! id
    = if bool_decide (id ∈ ids) then None else activeTransfers s !! id.
Proof.
  induction ids as [|i ids IH]; intros s id; [done|].
  simpl. rewrite IH. simpl.
  destruct (decide (i = id)) as [->|Hne].
  - rewrite lookup_delete_eq. rewrite (bool_decide_eq_true_2 (id ∈ id :: ids)); [|left].
    by destruct (bool_decide (id ∈ ids)).
  - rewrite lookup_delete_ne by done.
    destruct (bool_decide (id ∈ ids)) eqn:E.
    + apply bool_decide_eq_true in E. rewrite bool_decide_eq_true_2; [done|by right].
    + apply bool_decide_eq_false in E. rewrite bool_decide_eq_false_2; [done|].
      intros [?|?]%elem_of_cons; congruence.
Qed.

Lemma fire_all_frame (ids : list string) :
  ∀ s : State,
    now (foldl fire s ids) = now s ∧ timers (foldl fire s ids) = timers s ∧
    refreshKey (foldl fire s ids) = refreshKey s.
Proof.
  induction ids as [|i ids IH]; intros s; [done|]. simpl.
  destruct (IH (fire s i)) as (H1 & H2 & H3). by rewrite H1, H2, H3.
Qed.

Lemma due_ids (dt : nat) (s : State) (id : string) :
  id ∈ map snd (List.filter (λ d, fst d <=? now s + dt) (timers s)) ↔
  ∃ d : nat, (d, id) ∈ timers s ∧ d ≤ now s + dt.
Proof.
  rewrite list_elem_of_fmap. split.
  - intros [[d i] [-> [Hin Hd]%elem_of_bool_filter]]. simpl in *.
    exists d. split; [done|]. by apply Nat.leb_le.
  - intros [d [Hin Hd]]. exists (d, id). split; [done|].
    apply elem_of_bool_filter. split; [done|]. by apply Nat.leb_le.
Qed.

Lemma advance_lookup_due (dt : nat) (s : State) (id : string) (d : nat) :
  (d, id) ∈ timers s → d ≤ now s + dt → activeTransfers (advance dt s) !! id = None.
Proof.
  intros Hin Hd. unfold advance. cbn [activeTransfers]. rewrite fire_all_lookup.
  rewrite bool_decide_eq_true_2; [done|]. apply due_ids. by exists d.
Qed.

Lemma advance_lookup_gone (dt : nat) (s : State) (id : string) :
  activeTransfers s !! id = None → activeTransfers (advance dt s) !! id = None.
Proof.
  intros Hg. unfold advance. cbn [activeTransfers]. rewrite fire_all_lookup.
  by destruct (bool_decide _).
Qed.

Lemma advance_lookup_early (dt : nat) (s : State) (id : string) :
  (∀ d : nat, (d, id) ∈ timers s → now s + dt < d) →
  activeTransfers (advance dt s) !! id = activeTransfers s !! id.
Proof.
  intros He. unfold advance. cbn [activeTransfers]. rewrite fire_all_lookup.
  rewrite bool_decide_eq_false_2; [done|].
  intros (d & Hin & Hd)%due_ids. apply He in Hin. lia.
Qed.

Lemma advance_timers (dt : nat) (s : State) (d : nat) (id : string) :
  (d, id) ∈ timers (advance dt s) ↔ (d, id) ∈ timers s ∧ now s + dt < d.
Proof.
  unfold advance. cbn [timers]. rewrite elem_of_bool_filter. simpl.
  rewrite negb_true_iff, Nat.leb_gt. done.
Qed.

Lemma now_advance (dt : nat) (s : State) : now (advance dt s) = now s + dt.
Proof. done. Qed.

Lemma now_progress (p : TransferProgress) (s : State) : now (onTransferProgress p s) = now s.
Proof. unfold onTransferProgress. by destruct (String.eqb (status p) "complete"). Qed.

Lemma elapsed_cons (i : Input) (inputs : list Input) :
  elapsed (i :: inputs)
  = match i with Elapse dt => dt + elapsed inputs | Progress _ => elapsed inputs end.
Proof. done. Qed.

Lemma now_run (inputs : list Input) : ∀ s : State, now (run s inputs) = now s + elapsed inputs.
Proof.
  induction inputs as [|i inputs IH]; intros s; [unfold elapsed; simpl; lia|].
  rewrite elapsed_cons. unfold run in *. cbn [foldl]. rewrite IH.
  destruct i as [q|dt]; cbn [step].
  - by rewrite now_progress.
  - rewrite now_advance. lia.
Qed.

Lemma progress_lookup (p : TransferProgress) (s : State) (id : string) :
  activeTransfers (onTransferProgress p s) !! id
  = if decide (transfer_id p = id) then Some p else activeTransfers s !! id.
Proof.
  unfold onTransferProgress.
  destruct (String.eqb (status p) "complete"); cbn [activeTransfers setTimeout setActiveTransfers];
    apply lookup_insert.
Qed.

Lemma progress_timers (p : TransferProgress) (s : State) (d : nat) (id : string) :
  (d, id) ∈ timers (onTransferProgress p s) ↔
  (d, id) ∈ timers s ∨
  (status p = "complete" ∧ d = now s + cleanup_delay ∧ id = transfer_id p).
Proof.
  unfold onTransferProgress.
  destruct (String.eqb_spec (status p) "complete") as [Hs|Hs].
  - cbn [timers setTimeout setActiveTransfers setRefreshKey now].
    rewrite elem_of_app, list_elem_of_singleton. split.
    + intros [?|[= -> ->]]; [by left|by right].
    + intros [?|(_ & -> & ->)]; [by left|by right].
  - cbn [timers setActiveTransfers]. split; [by left|]. by intros [?|[? _]].
Qed.

Lemma gone_or_pending_step (id : string) (D : nat) (s : State) (i : Input) :
  concerns id i = false → gone_or_pending id D s → gone_or_pending id D (step s i).
Proof.
  intros Hi Hs. destruct i as [q|dt]; cbn [step concerns] in *.
  - apply String.eqb_neq in Hi. destruct Hs as [Hgone|(d & Hin & Hlt & Hle)].
    + left. rewrite progress_lookup. by destruct (decide (transfer_id q = id)).
    + right. exists d. rewrite now_progress. split_and!; [|done..].
      apply progress_timers. by left.
  - destruct Hs as [Hgone|(d & Hin & Hlt & Hle)].
    + left. by apply advance_lookup_gone.
    + destruct (decide (d ≤ now s + dt)) as [Hdue|Hlater].
      * left. by apply (advance_lookup_due dt s id d).
      * right. exists d. rewrite now_advance. split_and!; [|lia|done].
        apply advance_timers. split; [done|lia].
Qed.

Lemma gone_or_pending_run (id : string) (D : nat) (inputs : list Input) :
  ∀ s : State,
    Forall (λ i, concerns id i = false) inputs →
    gone_or_pending id D s → gone_or_pending id D (run s inputs).
Proof.
  induction inputs as [|i inputs IH]; intros s Hin Hs; [done|].
  inversion_clear Hin. unfold run. cbn [foldl]. apply IH; [done|].
  by apply gone_or_pending_step.
Qed.

Lemma kept_until_run (id : string) (p : TransferProgress) (D : nat) (inputs : list Input) :
  ∀ s : State,
    Forall (λ i, concerns id i = false) inputs →
    now s + elapsed inputs < D →
    kept_until id p D s → kept_until id p D (run s inputs).
Proof.
  induction inputs as [|i inputs IH]; intros s Hin Ht Hs; [done|].
  inversion_clear Hin as [|?? Hi Hrest]. rewrite elapsed_cons in Ht.
  unfold run. cbn [foldl]. apply IH; [done|..].
  - destruct i as [q|dt]; cbn [step];
      [by rewrite now_progress | rewrite now_advance; lia].
  - destruct Hs as [Hp Hd]. destruct i as [q|dt]; cbn [step concerns] in *.
    + apply String.eqb_neq in Hi. split.
      * rewrite progress_lookup. by destruct (decide (transfer_id q = id)).
      * intros d [?|(_ & _ & ?)]%progress_timers; [by apply Hd|congruence].
    + split.
      * rewrite advance_lookup_early; [done|].
        intros d Hin. apply Hd in Hin. lia.
      * intros d [Hin _]%advance_timers. by apply Hd.
Qed.

End ProgressFacts.

(** C5. A progress event stores its record under its [transfer_id] whether
    the id was known or not, and leaves the other records alone; a
    ["complete"] event also adds one to the refresh token. After a
    ["complete"] event for [id], once 5000 ms have passed with no further
    event for [id], the record of [id] is gone; unless an older timer was
    still aimed at [id], it was there until then; and a later event for
    [id] stores a fresh record. *)
Theorem completed_transfer_leaves_after_the_delay :
  (∀ (s : App.State) (p : TransferProgress),
      App.activeTransfers (App.onTransferProgress p s) !! transfer_id p = Some p) ∧
  (∀ (s : App.State) (p : TransferProgress) (id : string),
      id ≠ transfer_id p →
      App.activeTransfers (App.onTransferProgress p s) !! id = App.activeTransfers s !! id) ∧
  (∀ (s : App.State) (p : TransferProgress),
      status p = "complete" →
      App.refreshKey (App.onTransferProgress p s) = S (App.refreshKey s)) ∧
  (∀ (s : App.State) (p : TransferProgress) (inputs : list App.Input),
      status p = "complete" →
      Forall (λ i, App.concerns (transfer_id p) i = false) inputs →
      App.cleanup_delay ≤ App.elapsed inputs →
      let s' := App.run (App.onTransferProgress p s) inputs in
      App.activeTransfers s' !! transfer_id p = None ∧
      ∀ q : TransferProgress,
        transfer_id q = transfer_id p →
        App.activeTransfers (App.onTransferProgress q s') !! transfer_id p = Some q) ∧
  (∀ (s : App.State) (p : TransferProgress) (inputs : list App.Input),
      status p = "complete" →
      Forall (λ i, App.concerns (transfer_id p) i = false) inputs →
      App.elapsed inputs < App.cleanup_delay →
      (∀ d, (d, transfer_id p) ∉ App.timers s) →
      App.activeTransfers (App.run (App.onTransferProgress p s) inputs) !! transfer_id p
      = Some p).
Proof.
  split_and!.
  - intros s p. rewrite ProgressFacts.progress_lookup. by rewrite decide_True.
  - intros s p id Hne. rewrite ProgressFacts.progress_lookup. by rewrite decide_False.
  - intros s p Hc. unfold App.onTransferProgress. by rewrite Hc.
  - intros s p inputs Hc Hin Ht s'.
    assert (App.activeTransfers s' !! transfer_id p = None) as Hgone.
    { destruct (ProgressFacts.gone_or_pending_run (transfer_id p)
                  (App.now s + App.cleanup_delay) inputs
                  (App.onTransferProgress p s) Hin) as [H|(d & _ & Hlt & Hle)].
      - right. exists (App.now s + App.cleanup_delay). rewrite ProgressFacts.now_progress.
        split_and!; [|unfold App.cleanup_delay; lia|done].
        apply ProgressFacts.progress_timers. by right.
      - done.
      - rewrite ProgressFacts.now_run, ProgressFacts.now_progress in Hlt. lia. }
    split; [done|]. intros q Hq.
    rewrite ProgressFacts.progress_lookup. by rewrite decide_True.
  - intros s p inputs Hc Hin Ht Hfree.
    apply (ProgressFacts.kept_until_run (transfer_id p) p
             (App.now s + App.cleanup_delay) inputs); [done|..].
    + rewrite ProgressFacts.now_progress. lia.
    + split.
      * rewrite ProgressFacts.progress_lookup. by rewrite decide_True.
      * intros d [Hold|(_ & -> & _)]%ProgressFacts.progress_timers; [|done].
        by apply Hfree in Hold.
Qed.

Lemma completed_transfer_leaves_after_the_delay_witness :
  App.activeTransfers
    (App.run (App.onTransferProgress (mkTransferProgress "t1" "a.txt" 10 10 "complete")
                (App.initial "C:\home"))
       [App.Progress (mkTransferProgress "t2" "b.txt" 1 10 "in-progress"); App.Elapse 5000])
    !! "t1"
  = None.
Proof.
  apply (proj1 (proj2 (proj2 (proj2 completed_transfer_leaves_after_the_delay)))
           (App.initial "C:\home") (mkTransferProgress "t1" "a.txt" 10 10 "complete")
           [App.Progress (mkTransferProgress "t2" "b.txt" 1 10 "in-progress");
            App.Elapse 5000]).
  - reflexivity.
  - repeat constructor.
  - apply Nat.le_refl.
Defined.

(** ** Going up in a cloud folder *)

(** C6. In a cloud pane [goUp] asks for one listing: of the folder second
    from the top of the stack when the stack holds two or more, of the root
    (no folder id) otherwise. When the listing arrives the stack loses its
    last crumb, when it fails the stack stays; so the new stack is a prefix
    of the old one, shorter by one at most. From depth one the pane is back
    at the root with the root's listing; at the root the stack stays
    empty. *)
Theorem cloud_goUp_pops_at_most_one {W : Type} (B : Backend W) (cfg : CloudConnection)
    (s : RemoteFileTree.State) (y : Sys W) :
  let stack := RemoteFileTree.pathStack s in
  let fid := if 1 <? length stack then crumb_id <$> stack !! (length stack - 2) else None in
  let answer :=
    fst (do_list_cloud_directory B (provider cfg) (access_token cfg) fid (world y)) in
  let s' := final_state (RemoteFileTree.goUp B (Some cfg) s y) in
  trace (final_sys (RemoteFileTree.goUp B (Some cfg) s y))
  = trace y ++ [ECall (list_cloud_directory (provider cfg) (access_token cfg) fid)] ∧
  RemoteFileTree.pathStack s' `prefix_of` stack ∧
  length stack ≤ S (length (RemoteFileTree.pathStack s')) ∧
  (∀ files, answer = Ok files →
      RemoteFileTree.pathStack s' ++ drop (length stack - 1) stack = stack ∧
      length (RemoteFileTree.pathStack s') = length stack - 1 ∧
      RemoteFileTree.entries s' = files) ∧
  (∀ err, answer = Err err → RemoteFileTree.pathStack s' = stack) ∧
  (length stack ≤ 1 →
   fid = None ∧
   ∀ files, answer = Ok files →
     RemoteFileTree.pathStack s' = [] ∧ RemoteFileTree.entries s' = files ∧
     RemoteFileTree.remotePath s' = "/ (Cloud Root)") ∧
  (stack = [] → RemoteFileTree.pathStack s' = []).
Proof.
  intros stack fid answer s'. subst s' answer fid stack.
  unfold RemoteFileTree.goUp, bind, read.
  rewrite RemoteFacts.loadRemoteDir_cloud.
  unfold RemoteFileTree.folderId, RemoteFileTree.nextStack, RemoteFileTree.stack_is_set.
  change (RemoteFileTree.isUp (Some "..")) with true. cbv iota. cbn [orb].
  set (stack := RemoteFileTree.pathStack s).
  set (fid := if 1 <? length stack then crumb_id <$> stack !! (length stack - 2) else None).
  destruct (do_list_cloud_directory B (provider cfg) (access_token cfg) fid (world y))
    as [[files|err] w'] eqn:E; cbn [fst final_state final_sys snd trace].
  - split_and!.
    + done.
    + apply prefix_take.
    + cbn. rewrite length_take. lia.
    + intros ? [= <-]. cbn. rewrite take_drop, length_take. split_and!; [done|lia|done].
    + done.
    + intros Hd. split.
      * subst fid. by destruct stack as [|? [|??]]; simpl in *; [..|lia].
      * intros ? [= <-]. cbn. destruct stack as [|? [|??]]; simpl in *; [done|done|lia].
    + intros Hs. cbn. by rewrite Hs.
  - split_and!.
    + done.
    + done.
    + subst stack. cbn. lia.
    + done.
    + done.
    + intros Hd. split; [|done].
      subst fid. by destruct stack as [|? [|??]]; simpl in *; [..|lia].
    + done.
Qed.

Lemma cloud_goUp_pops_at_most_one_witness :
  RemoteFileTree.pathStack
    (final_state (RemoteFileTree.goUp (Examples.scripted true (λ _, false))
                    (Some Examples.drive)
                    (Examples.remote [Examples.rentry "x"] [mkCrumb "id1" "Photos"])
                    Examples.start))
  = [] ∧
  RemoteFileTree.pathStack
    (final_state (RemoteFileTree.goUp (Examples.scripted true (λ _, false))
                    (Some Examples.drive)
                    (Examples.remote [Examples.rentry "x"] [])
                    Examples.start))
  = [].
Proof.
  split.
  - destruct (cloud_goUp_pops_at_most_one (Examples.scripted true (λ _, false))
                Examples.drive
                (Examples.remote [Examples.rentry "x"] [mkCrumb "id1" "Photos"])
                Examples.start) as (_ & _ & _ & _ & _ & Hone & _).
    destruct Hone as [_ Hroot]; [simpl; lia|].
    destruct (Hroot []) as (Hs & _); [reflexivity|exact Hs].
  - destruct (cloud_goUp_pops_at_most_one (Examples.scripted true (λ _, false))
                Examples.drive (Examples.remote [Examples.rentry "x"] [])
                Examples.start) as (_ & _ & _ & _ & _ & _ & Hzero).
    apply Hzero. reflexivity.
Defined.

(** ** The icon cache *)

Module IconFacts.
Import Icons.

Section Runs.
Context {CF : Js.CaseFolding} {W : Type} (B : Backend W).

Lemma getFileIcon_plain (snapshot : gmap string string) (filename : string)
    (cache : gmap string string) (y : Sys W) :
  Js.extMatch filename = None → getFileIcon B snapshot filename cache y = (None, cache, y).
Proof. intros H. unfold getFileIcon. by rewrite H. Qed.

Lemma getFileIcon_hit (snapshot : gmap string string) (filename m icon : string)
    (cache : gmap string string) (y : Sys W) :
  Js.extMatch filename = Some m → snapshot !! Js.toLowerCase m = Some icon →
  getFileIcon B snapshot filename cache y = (Some icon, cache, y).
Proof. intros H1 H2. unfold getFileIcon. by rewrite H1, H2. Qed.

Lemma getFileIcon_miss (snapshot : gmap string string) (filename m : string)
    (cache : gmap string string) (y : Sys W) :
  Js.extMatch filename = Some m → snapshot !! Js.toLowerCase m = None →
  getFileIcon B snapshot filename cache y =
  let ext := Js.toLowerCase m in
  match do_get_file_icon B ext (world y) with
  | (Ok icon, w') =>
      (Some icon, <[ext := icon]> cache, mkSys w' (trace y ++ [ECall (get_file_icon ext)]))
  | (Err _, w') =>
      (None, <[ext := ""]> cache, mkSys w' (trace y ++ [ECall (get_file_icon ext)]))
  end.
Proof.
  intros H1 H2. unfold getFileIcon. rewrite H1, H2.
  unfold bind, invoke, modify, ret. simpl.
  by destruct (do_get_file_icon B (Js.toLowerCase m) (world y)) as [[icon|e] w'].
Qed.

Lemma lookups_app (ext : string) (a b : list Event) :
  lookups ext (a ++ b) = lookups ext a + lookups ext b.
Proof. unfold lookups. by rewrite calls_of_app, List.filter_app, length_app. Qed.

Lemma lookups_nil (ext : string) : lookups ext [] = 0.
Proof. done. Qed.

Lemma lookups_one (ext e : string) :
  lookups ext [ECall (get_file_icon e)] = if decide (e = ext) then 1 else 0.
Proof.
  unfold lookups. simpl. destruct (String.eqb_spec e ext) as [->|Hne].
  - by rewrite decide_True.
  - by rewrite decide_False.
Qed.

(** Resolves that follow one another: what one adds to the trace and to
    the cache. *)
Lemma resolve_run (filename : string) (cache : gmap string string) (y : Sys W) :
  ∃ (new : list Event) (cache' : gmap string string) (w' : W),
    (let* _ := resolve B filename in ret tt) cache y = (tt, cache', mkSys w' (trace y ++ new)) ∧
    (∀ ext, is_Some (cache !! ext) → is_Some (cache' !! ext)) ∧
    (∀ ext, is_Some (cache !! ext) → lookups ext new = 0) ∧
    (∀ ext, lookups ext new ≤ 1) ∧
    (∀ ext, lookups ext new = 1 → is_Some (cache' !! ext)).
Proof.
  unfold resolve, bind, read, ret.
  destruct (Js.extMatch filename) as [m|] eqn:Hm.
  - destruct (cache !! Js.toLowerCase m) as [icon|] eqn:Hc.
    + rewrite (getFileIcon_hit cache filename m icon) by done.
      exists [], cache, (world y). rewrite app_nil_r. destruct y.
      split_and!; intros; rewrite ?lookups_nil in *; try done; lia.
    + rewrite (getFileIcon_miss cache filename m) by done. cbv zeta.
      assert (∀ (v : string) (w' : W),
                ((), <[Js.toLowerCase m := v]> cache,
                 mkSys w' (trace y ++ [ECall (get_file_icon (Js.toLowerCase m))]))
                = ((), <[Js.toLowerCase m := v]> cache,
                   mkSys w' (trace y ++ [ECall (get_file_icon (Js.toLowerCase m))])) ∧
                (∀ ext, is_Some (cache !! ext) →
                        is_Some (<[Js.toLowerCase m := v]> cache !! ext)) ∧
                (∀ ext, is_Some (cache !! ext) →
                        lookups ext [ECall (get_file_icon (Js.toLowerCase m))] = 0) ∧
                (∀ ext, lookups ext [ECall (get_file_icon (Js.toLowerCase m))] ≤ 1) ∧
                (∀ ext, lookups ext [ECall (get_file_icon (Js.toLowerCase m))] = 1 →
                        is_Some (<[Js.toLowerCase m := v]> cache !! ext))) as Hstep.
      { intros v w'. split_and!.
        - done.
        - intros ext Hs. rewrite lookup_insert_is_Some. destruct (decide (Js.toLowerCase m = ext)); auto.
        - intros ext Hs. rewrite lookups_one. case_decide; [|done].
          subst. rewrite Hc in Hs. by destruct Hs.
        - intros ext. rewrite lookups_one. case_decide; lia.
        - intros ext. rewrite lookups_one. case_decide; [|done].
          subst. rewrite lookup_insert_eq. eauto. }
      destruct (do_get_file_icon B (Js.toLowerCase m) (world y)) as [[icon|e] w'].
      * eexists _, _, w'. apply Hstep.
      * eexists _, _, w'. apply Hstep.
  - rewrite getFileIcon_plain by done.
    exists [], cache, (world y). rewrite app_nil_r. destruct y.
    split_and!; intros; rewrite ?lookups_nil in *; try done; lia.
Qed.

Lemma resolve_all_run (filenames : list string) :
  ∀ (cache : gmap string string) (y : Sys W),
    ∃ (new : list Event) (cache' : gmap string string) (w' : W),
      resolve_all B filenames cache y = (tt, cache', mkSys w' (trace y ++ new)) ∧
      (∀ ext, is_Some (cache !! ext) → is_Some (cache' !! ext)) ∧
      (∀ ext, is_Some (cache !! ext) → lookups ext new = 0) ∧
      (∀ ext, lookups ext new ≤ 1).
Proof.
  induction filenames as [|f fs IH]; intros cache y.
  - exists [], cache, (world y). simpl. rewrite app_nil_r. destruct y.
    split_and!; intros; rewrite ?lookups_nil in *; try done; lia.
  - unfold resolve_all. cbn [for_each]. unfold bind at 1.
    destruct (resolve_run f cache y) as (n1 & c1 & w1 & -> & Hk1 & Hz1 & Hb1 & Hs1).
    destruct (IH c1 (mkSys w1 (trace y ++ n1))) as (n2 & c2 & w2 & Hrun & Hk2 & Hz2 & Hb2).
    unfold resolve_all in Hrun. rewrite Hrun.
    exists (n1 ++ n2), c2, w2. cbn [trace]. rewrite <- app_assoc. split_and!.
    + done.
    + intros ext H. by apply Hk2, Hk1.
    + intros ext H. rewrite lookups_app, Hz1, Hz2; [done|by apply Hk1|done].
    + intros ext. rewrite lookups_app.
      destruct (decide (lookups ext n1 = 1)) as [H1|H1].
      * rewrite Hz2; [lia|]. by apply Hs1.
      * specialize (Hb1 ext). specialize (Hb2 ext). lia.
Qed.

End Runs.
End IconFacts.

(** C8, as the claim has it, fails: the file rows of one render all read the
    cache that render was given, so two files of one extension, shown
    together for the first time, cause two lookups of that extension. *)
Lemma two_rows_of_one_render_look_up_twice :
  calls_of (trace (final_sys
     (Icons.render_effects (CF := Js.ascii_folding) (Examples.scripted true (λ _, false))
        ["a.txt"; "b.txt"] ∅ Examples.start)))
  = [get_file_icon "txt"; get_file_icon "txt"] ∧
  ¬ lookups "txt" (trace (final_sys
       (Icons.render_effects (CF := Js.ascii_folding) (Examples.scripted true (λ _, false))
          ["a.txt"; "b.txt"] ∅ Examples.start))) ≤ 1.
Proof. split; [reflexivity|]. vm_compute. lia. Qed.

(** C8, amended. A resolve that finds the extension in the cache it reads,
    be it an icon or the [""] left by a failed lookup, returns that value
    and asks the backend nothing. A resolve that does not find it asks for
    one lookup and stores the icon, or [""] when the lookup failed, under
    the lower-cased extension. No resolve removes a key. Hence resolves
    that each start after the one before was stored cause at most one
    lookup per extension, and none for an extension already stored. *)
Theorem icon_lookup_is_not_repeated_once_stored {CF : Js.CaseFolding} {W : Type}
    (B : Backend W) :
  (∀ (snapshot cache : gmap string string) (filename m icon : string) (y : Sys W),
      Js.extMatch filename = Some m →
      snapshot !! Js.toLowerCase m = Some icon →
      Icons.getFileIcon B snapshot filename cache y = (Some icon, cache, y)) ∧
  (∀ (snapshot cache : gmap string string) (filename m : string) (y : Sys W),
      Js.extMatch filename = Some m →
      snapshot !! Js.toLowerCase m = None →
      let r := Icons.getFileIcon B snapshot filename cache y in
      let answer := fst (do_get_file_icon B (Js.toLowerCase m) (world y)) in
      trace (final_sys r) = trace y ++ [ECall (get_file_icon (Js.toLowerCase m))] ∧
      final_state r
      = <[Js.toLowerCase m := match answer with Ok icon => icon | Err _ => "" end]> cache ∧
      final_value r = match answer with Ok icon => Some icon | Err _ => None end) ∧
  (∀ (filenames : list string) (cache : gmap string string) (y : Sys W),
      ∃ new : list Event,
        trace (final_sys (Icons.resolve_all B filenames cache y)) = trace y ++ new ∧
        (∀ ext, is_Some (cache !! ext) →
                is_Some (final_state (Icons.resolve_all B filenames cache y) !! ext)) ∧
        (∀ ext, is_Some (cache !! ext) → lookups ext new = 0) ∧
        (∀ ext, lookups ext new ≤ 1)).
Proof.
  split_and!.
  - intros snapshot cache filename m icon y Hm Hs.
    by apply (IconFacts.getFileIcon_hit B snapshot filename m icon).
  - intros snapshot cache filename m y Hm Hs r answer. subst r answer.
    rewrite (IconFacts.getFileIcon_miss B snapshot filename m) by done. cbv zeta.
    by destruct (do_get_file_icon B (Js.toLowerCase m) (world y)) as [[icon|e] w'].
  - intros filenames cache y.
    destruct (IconFacts.resolve_all_run B filenames cache y)
      as (new & c' & w' & -> & Hk & Hz & Hb).
    by exists new.
Qed.

Lemma icon_lookup_is_not_repeated_once_stored_witness :
  Icons.getFileIcon (CF := Js.ascii_folding) (Examples.scripted false (λ _, false))
    {["txt" := ""]} "B.TXT" {["txt" := ""]} Examples.start
  = (Some "", {["txt" := ""]}, Examples.start).
Proof.
  apply (proj1 (icon_lookup_is_not_repeated_once_stored (CF := Js.ascii_folding)
                  (Examples.scripted false (λ _, false)))
           {["txt" := ""]} {["txt" := ""]} "B.TXT" "TXT" "" Examples.start);
    reflexivity.
Defined.

(** ** Saving the configuration *)

(** C10. [saveConfig] asks the backend once. When the call fails the store
    keeps its [config] and its [loading] flag and takes the error text; when
    it succeeds the store takes the new [config] and keeps the rest. So the
    [config] in memory changes only when the backend has accepted it. *)
Theorem saveConfig_replaces_config_only_on_success {W : Type} (B : Backend W)
    (newConfig : Config.AppConfig) (s : ConfigStore.State) (y : Sys W) :
  let r := ConfigStore.saveConfig B newConfig s y in
  let answer := fst (do_save_config B newConfig (world y)) in
  trace (final_sys r) = trace y ++ [ECall (save_config newConfig)] ∧
  final_state r
  = match answer with
    | Ok _ => ConfigStore.mkState newConfig (ConfigStore.loading s) (ConfigStore.error s)
    | Err err => ConfigStore.mkState (ConfigStore.config s) (ConfigStore.loading s) (Some err)
    end ∧
  (∀ err, answer = Err err →
          ConfigStore.config (final_state r) = ConfigStore.config s ∧
          ConfigStore.error (final_state r) = Some err) ∧
  (ConfigStore.config (final_state r) ≠ ConfigStore.config s → ∃ u, answer = Ok u).
Proof.
  intros r answer. subst r answer.
  unfold ConfigStore.saveConfig, bind, invoke, modify. simpl.
  destruct (do_save_config B newConfig (world y)) as [[u|err] w']; simpl.
  - split_and!; [done|done|done|]. intros _. by exists u.
  - split_and!; [done|done| |done]. by intros ? [= <-].
Qed.

Lemma saveConfig_replaces_config_only_on_success_witness :
  ConfigStore.config
    (final_state (ConfigStore.saveConfig (Examples.scripted false (λ _, false))
                    (Config.mkAppConfig [Examples.server] []) ConfigStore.initial
                    Examples.start))
  = Config.mkAppConfig [] [] ∧
  ConfigStore.error
    (final_state (ConfigStore.saveConfig (Examples.scripted false (λ _, false))
                    (Config.mkAppConfig [Examples.server] []) ConfigStore.initial
                    Examples.start))
  = Some "disk full".
Proof.
  apply (proj1 (proj2 (proj2 (saveConfig_replaces_config_only_on_success
                                (Examples.scripted false (λ _, false))
                                (Config.mkAppConfig [Examples.server] [])
                                ConfigStore.initial Examples.start)))
           "disk full").
  reflexivity.
Defined.

(** * Further properties *)

(** ** Strings: extensions, segments, parents *)

Module PathFacts.
Import Js.

Lemma starts_with_char (a c : ascii) (s : string) :
  startsWith (String a "") (String c s) = Ascii.eqb a c.
Proof. simpl. by destruct (Ascii.eqb a c). Qed.

Lemma includes_char_cons (a c : ascii) (s : string) :
  includes (String a "") (String c s) = Ascii.eqb a c || includes (String a "") s.
Proof.
  change (includes (String a "") (String c s))
    with (startsWith (String a "") (String c s) || includes (String a "") s).
  by rewrite starts_with_char.
Qed.

Lemma includes_char_app (a : ascii) (s t : string) :
  includes (String a "") (s +:+ t) = includes (String a "") s || includes (String a "") t.
Proof.
  induction s as [|c s IH].
  - simpl (includes _ ""). done.
  - change (String c s +:+ t) with (String c (s +:+ t)).
    rewrite !includes_char_cons, IH. by rewrite orb_assoc.
Qed.

Lemma after_last_dot_none (s : string) :
  after_last_dot s = None ↔ includes "." s = false.
Proof.
  induction s as [|c s IH]; [done|].
  rewrite includes_char_cons. cbn [after_last_dot].
  destruct (after_last_dot s) as [r|].
  - split; [done|]. intros [_ H]%orb_false_iff. by apply IH in H.
  - rewrite (proj1 IH eq_refl), orb_false_r, (Ascii.eqb_sym c ".").
    by destruct (Ascii.eqb "." c).
Qed.

Lemma after_last_dot_some (s r : string) :
  after_last_dot s = Some r ↔
  includes "." r = false ∧ ∃ base, s = base +:+ "." +:+ r.
Proof.
  revert r; induction s as [|c s IH]; intros r.
  - split; [done|]. intros [_ [[|??] ?]]; discriminate.
  - simpl. destruct (after_last_dot s) as [r'|] eqn:E.
    + split.
      * intros [= <-]. destruct (proj1 (IH r') eq_refl) as [Hr [base ->]].
        split; [done|]. by exists (String c base).
      * intros [Hr [base Hb]]. f_equal. destruct base as [|b base]; simpl in Hb.
        -- injection Hb as -> ->. apply after_last_dot_none in Hr.
           change ("" +:+ r) with r in E. congruence.
        -- injection Hb as -> ->. apply (inj Some), IH. split; [done|].
           by exists base.
    + apply after_last_dot_none in E. split.
      * destruct (Ascii.eqb_spec c ".") as [->|]; [|done].
        intros [= <-]. split; [done|]. by exists "".
      * intros [Hr [base Hb]]. destruct base as [|b base]; simpl in Hb.
        -- injection Hb as -> ->. by rewrite Ascii.eqb_refl.
        -- injection Hb as -> ->. rewrite includes_char_app in E.
           simpl in E. by rewrite orb_true_r in E.
Qed.

(** A string free of both separators. *)
Lemma after_last_sep_none (s : string) :
  after_last_sep s = None ↔ includes "/" s = false ∧ includes "\" s = false.
Proof.
  induction s as [|c s IH]; [done|].
  rewrite !includes_char_cons. cbn [after_last_sep]. unfold is_sep.
  rewrite (Ascii.eqb_sym c "/"), (Ascii.eqb_sym c "\").
  destruct (after_last_sep s) as [r|].
  - split; [done|]. intros [[_ H1]%orb_false_iff [_ H2]%orb_false_iff].
    by apply IH.
  - destruct (proj1 IH eq_refl) as [-> ->]. rewrite !orb_false_r.
    destruct (Ascii.eqb "/" c), (Ascii.eqb "\" c); simpl; split; try done; by intros [].
Qed.

Lemma after_last_sep_some (s r : string) :
  after_last_sep s = Some r →
  after_last_sep r = None ∧ ∃ pre c, is_sep c = true ∧ s = pre +:+ String c r.
Proof.
  revert r; induction s as [|c s IH]; intros r; [done|].
  simpl. destruct (after_last_sep s) as [r'|] eqn:E.
  - intros [= <-]. destruct (IH r' eq_refl) as [Hr (pre & d & Hd & ->)].
    split; [done|]. by exists (String c pre), d.
  - destruct (is_sep c) eqn:Hc; [|done]. intros [= <-].
    split; [done|]. by exists "", c.
Qed.

Lemma after_last_sep_app (pre : string) (c : ascii) (seg : string) :
  is_sep c = true → after_last_sep seg = None →
  after_last_sep (pre +:+ String c seg) = Some seg.
Proof.
  intros Hc Hs. induction pre as [|b pre IH]; simpl.
  - by rewrite Hs, Hc.
  - by rewrite IH.
Qed.

Lemma before_last_sep_app (pre : string) (c : ascii) (seg : string) :
  is_sep c = true → after_last_sep seg = None →
  LocalOps.before_last_sep (pre +:+ String c seg) = Some pre.
Proof.
  intros Hc Hs.
  assert (LocalOps.before_last_sep seg = None) as Hb.
  { clear Hc. induction seg as [|d seg IH]; [done|]. simpl in *.
    destruct (after_last_sep seg); [done|].
    destruct (is_sep d); [done|]. by rewrite IH. }
  induction pre as [|b pre IH]; simpl.
  - by rewrite Hb, Hc.
  - by rewrite IH.
Qed.

Lemma before_last_sep_none (s : string) :
  after_last_sep s = None → LocalOps.before_last_sep s = None.
Proof.
  induction s as [|d s IH]; [done|]. simpl.
  destruct (after_last_sep s); [done|].
  destruct (is_sep d); [done|]. intros _. by rewrite IH.
Qed.

Lemma append_cons (c : ascii) (s t : string) : String c s +:+ t = String c (s +:+ t).
Proof. reflexivity. Qed.

Lemma append_nil_r (s : string) : s +:+ "" = s.
Proof. induction s as [|c s IH]; [done | by rewrite append_cons, IH]. Qed.

Lemma append_assoc (a b c : string) : (a +:+ b) +:+ c = a +:+ (b +:+ c).
Proof. induction a as [|x a IH]; [done | by rewrite !append_cons, IH]. Qed.

Lemma append_length (a b : string) :
  String.length (a +:+ b) = (String.length a + String.length b)%nat.
Proof. induction a as [|x a IH]; [done | rewrite append_cons; simpl; by rewrite IH]. Qed.

End PathFacts.

(** X1. [extMatch] finds an extension exactly when the file name ends in a
    dot followed by a non-empty run of characters that holds no dot, and
    the extension is that run: so a name with no dot, a name that ends in a
    dot, and the empty name have none, and [archive.tar.gz] has [gz]. *)
Theorem extension_is_the_dotless_run_after_the_last_dot (filename ext : string) :
  Js.extMatch filename = Some ext ↔
  ext ≠ "" ∧ Js.includes "." ext = false ∧ ∃ base, filename = base +:+ "." +:+ ext.
Proof.
  unfold Js.extMatch. split.
  - destruct (Js.after_last_dot filename) as [r|] eqn:E; [|done].
    apply PathFacts.after_last_dot_some in E as [Hr Hb].
    destruct r; [done|]. intros [= <-]. done.
  - intros (Hne & Hr & Hb).
    rewrite (proj2 (PathFacts.after_last_dot_some filename ext) (conj Hr Hb)).
    by destruct ext.
Qed.

(** X2. The name the drop listener derives from a dropped path is never
    empty and holds no separator. For a path with a separator it is the
    text after the last [/] or [\], for a path without one the whole path;
    when that text is empty (a path that ends in a separator, the empty
    path) it is ["unknown"]. *)
Theorem dropped_name_is_the_last_segment_or_unknown :
  (∀ filePath : string,
      App.fileName filePath ≠ "" ∧
      Js.includes "/" (App.fileName filePath) = false ∧
      Js.includes "\" (App.fileName filePath) = false) ∧
  (∀ (pre : string) (c : ascii) (seg : string),
      Js.is_sep c = true →
      Js.includes "/" seg = false → Js.includes "\" seg = false →
      App.fileName (pre +:+ String c seg)
      = match seg with EmptyString => "unknown" | _ => seg end) ∧
  (∀ filePath : string,
      Js.includes "/" filePath = false → Js.includes "\" filePath = false →
      App.fileName filePath
      = match filePath with EmptyString => "unknown" | _ => filePath end).
Proof.
  unfold App.fileName, Js.last_segment.
  split_and!.
  - intros filePath. split_and!.
    + destruct (Js.after_last_sep filePath) as [[|??]|]; [done|done|].
      by destruct filePath.
    + destruct (Js.after_last_sep filePath) as [r|] eqn:E.
      * apply PathFacts.after_last_sep_some in E as [Hr _].
        apply PathFacts.after_last_sep_none in Hr as [H _]. by destruct r.
      * apply PathFacts.after_last_sep_none in E as [H _]. by destruct filePath.
    + destruct (Js.after_last_sep filePath) as [r|] eqn:E.
      * apply PathFacts.after_last_sep_some in E as [Hr _].
        apply PathFacts.after_last_sep_none in Hr as [_ H]. by destruct r.
      * apply PathFacts.after_last_sep_none in E as [_ H]. by destruct filePath.
  - intros pre c seg Hc H1 H2.
    rewrite PathFacts.after_last_sep_app; [by destruct seg|done|].
    by apply PathFacts.after_last_sep_none.
  - intros filePath H1 H2.
    rewrite (proj2 (PathFacts.after_last_sep_none filePath) (conj H1 H2)).
    by destruct filePath.
Qed.

Lemma dropped_name_is_the_last_segment_or_unknown_witness :
  App.fileName ("C:\in" +:+ String "\" "a.txt") = "a.txt" ∧
  App.fileName ("C:\in" +:+ String "/" "") = "unknown".
Proof.
  split.
  - apply (proj1 (proj2 dropped_name_is_the_last_segment_or_unknown)
             "C:\in" "\"%char "a.txt"); reflexivity.
  - apply (proj1 (proj2 dropped_name_is_the_last_segment_or_unknown)
             "C:\in" "/"%char ""); reflexivity.
Defined.

(** ** Going up in the local tree *)

Lemma eqb_proper_prefix (pre : string) (c : ascii) (seg : string) :
  String.eqb pre (pre +:+ String c seg) = false.
Proof.
  apply String.eqb_neq. intros H.
  apply (f_equal String.length) in H. rewrite PathFacts.append_length in H.
  simpl in H. lia.
Qed.

(** X3. The local [goUp] cuts the current path at its last separator and
    lists the folder that remains, once. It does nothing when the path
    holds no separator, and nothing when the only separator is the first
    character (from [/home] the tree stays at [/home]). When it moves, the
    new path is a proper prefix of the old one and the tree is what the
    listing of that prefix gave, empty with the error set when it failed. *)
Theorem local_goUp_cuts_at_the_last_separator {W : Type} (B : Backend W)
    (s : FileTree.State) (y : Sys W) :
  (Js.includes "/" (FileTree.currentPath s) = false →
   Js.includes "\" (FileTree.currentPath s) = false →
   LocalOps.goUp B s y = (tt, s, y)) ∧
  (∀ (pre : string) (c : ascii) (seg : string),
      FileTree.currentPath s = pre +:+ String c seg →
      Js.is_sep c = true →
      Js.includes "/" seg = false → Js.includes "\" seg = false →
      let r := LocalOps.goUp B s y in
      (pre = "" → r = (tt, s, y)) ∧
      (pre ≠ "" →
       FileTree.currentPath (final_state r) = pre ∧
       trace (final_sys r) = trace y ++ [ECall (list_directory pre)] ∧
       match fst (do_list_directory B pre (world y)) with
       | Ok es => FileTree.tree (final_state r) = map FileTree.fresh es ∧
                  FileTree.error (final_state r) = None
       | Err err => FileTree.tree (final_state r) = [] ∧
                    FileTree.error (final_state r) = Some err
       end)).
Proof.
  split.
  - intros H1 H2. unfold LocalOps.goUp, LocalOps.parent_of, bind, read.
    rewrite PathFacts.before_last_sep_none
      by (by apply PathFacts.after_last_sep_none).
    rewrite String.eqb_refl, andb_false_r. done.
  - intros pre c seg Hp Hc H1 H2 r. subst r.
    unfold LocalOps.goUp, LocalOps.parent_of, bind, read.
    rewrite Hp, PathFacts.before_last_sep_app
      by (done || by apply PathFacts.after_last_sep_none).
    rewrite eqb_proper_prefix. split.
    + intros ->. done.
    + intros Hne. assert (truthy (Some pre) = true) as -> by (by destruct pre).
      cbn [andb negb]. unfold FileTree.refresh, bind, read, modify.
      rewrite FileTreeFacts.loadDir_run. cbn [FileTree.currentPath FileTree.setCurrentPath].
      destruct (do_list_directory B pre (world y)) as [[es|err] w']; done.
Qed.

Lemma local_goUp_cuts_at_the_last_separator_witness :
  FileTree.currentPath
    (final_state (LocalOps.goUp (Examples.scripted true (λ _, false))
                    (Examples.local []) Examples.start))
  = "C:".
Proof.
  apply (proj2 (local_goUp_cuts_at_the_last_separator (Examples.scripted true (λ _, false))
                  (Examples.local []) Examples.start) "C:" "\"%char "home");
    [reflexivity | reflexivity | reflexivity | reflexivity | discriminate].
Defined.
(** ** The tree under [update] and [setChildren] *)

Module TreeFacts.
Import FileTree.

Lemma with_own_children (n : TreeNode) : with_children n (children n) = n.
Proof. by destruct n. Qed.

Lemma descend_fix (g : list TreeNode → list TreeNode) (m : TreeNode) :
  (∀ c, children m = Some c → g c = c) → descend g m = m.
Proof.
  intros H. unfold descend. destruct (children m) as [c|] eqn:E; [|done].
  rewrite (H c eq_refl), <- E. apply with_own_children.
Qed.

Lemma descend_compose (f g : list TreeNode → list TreeNode) (m : TreeNode) :
  descend f (descend g m) = descend (f ∘ g) m.
Proof. unfold descend. by destruct (children m) eqn:E; [|rewrite E]. Qed.

Lemma alter_fix {A} (g : A → A) (p : nat) (t : list A) :
  (∀ m, t !! p = Some m → g m = m) → alter g p t = t.
Proof.
  intros H. apply list_eq; intros i. destruct (decide (p = i)) as [->|Hne].
  - rewrite list_lookup_alter_eq. destruct (t !! i) as [m|] eqn:E; [|done].
    simpl. by rewrite H.
  - by rewrite list_lookup_alter_ne.
Qed.

(** A walk that leaves the addressed node as it is, or finds none, leaves
    the tree as it is. *)
Lemma modify_at_fix (f : TreeNode → TreeNode) (idx : list nat) :
  ∀ t : list TreeNode,
    (∀ n, node_at t idx = Some n → f n = n) → modify_at f t idx = t.
Proof.
  induction idx as [|p rest IH]; [done|]. destruct rest as [|j r]; intros t H.
  - simpl. apply alter_fix. intros m Hm. apply H. by rewrite FileTreeFacts.node_at_one.
  - simpl modify_at. apply alter_fix. intros m Hm. apply descend_fix. intros c Hc.
    apply IH. intros n Hn. apply H. rewrite FileTreeFacts.node_at_deep, Hm. simpl.
    by rewrite Hc.
Qed.

Lemma modify_at_compose (f g : TreeNode → TreeNode) (idx : list nat) :
  ∀ t : list TreeNode,
    modify_at f (modify_at g t idx) idx = modify_at (f ∘ g) t idx.
Proof.
  induction idx as [|p rest IH]; [done|]. destruct rest as [|j r]; intros t.
  - simpl. by rewrite list_alter_alter_eq.
  - simpl modify_at. rewrite list_alter_alter_eq.
    apply list_alter_ext; [|done]. intros m _. simpl. rewrite descend_compose.
    apply FileTreeFacts.descend_ext. intros c. apply IH.
Qed.

Lemma node_at_modify_at (f : TreeNode → TreeNode) (idx : list nat) :
  ∀ t : list TreeNode, node_at (modify_at f t idx) idx = f <$> node_at t idx.
Proof.
  induction idx as [|p rest IH]; [done|]. destruct rest as [|j r]; intros t.
  - rewrite !FileTreeFacts.node_at_one. simpl. by rewrite list_lookup_alter_eq.
  - rewrite !FileTreeFacts.node_at_deep. simpl modify_at. rewrite list_lookup_alter_eq.
    destruct (t !! p) as [m|]; [|done].
    change (children (descend (λ c, modify_at f c (j :: r)) m) ≫= (λ c, node_at c (j :: r))
            = f <$> (children m ≫= λ c, node_at c (j :: r))).
    rewrite FileTreeFacts.children_descend. destruct (children m) as [c|]; [|done].
    apply IH.
Qed.

Lemma toggled_twice (n : TreeNode) :
  is_Some (children n) → loading n = false → toggled (toggled n) = n.
Proof.
  destruct n as [e [c|] ex ld]; intros [? ?] Hl; simpl in *; [|done].
  subst. unfold toggled, no_children. simpl. by rewrite negb_involutive, !andb_false_r.
Qed.

Lemma click_at_run {W : Type} (B : Backend W) (idx : list nat) (n : TreeNode)
    (s : State) (y : Sys W) :
  node_at (tree s) idx = Some n → click_at B idx s y = onClick B n idx s y.
Proof. intros Hn. unfold click_at, bind, read. simpl. by rewrite Hn. Qed.

End TreeFacts.

(** X4. The first step of a toggle flips exactly the node its index path
    addresses: that node gets [toggled], every other node of the tree keeps
    its entry and its two flags, and every node that is not on the way to
    the address is unchanged altogether, its subtree included. An index
    path that addresses nothing changes nothing. *)
Theorem toggle_flips_the_addressed_node_only (t : list TreeNode) (idx : list nat) :
  FileTree.node_at (FileTree.update t idx) idx = FileTree.toggled <$> FileTree.node_at t idx ∧
  (∀ q : list nat, ¬ q `prefix_of` idx →
      FileTree.node_at (FileTree.update t idx) q = FileTree.node_at t q) ∧
  (∀ q : list nat, q ≠ idx →
      FileTree.strip <$> FileTree.node_at (FileTree.update t idx) q
      = FileTree.strip <$> FileTree.node_at t q) ∧
  (FileTree.node_at t idx = None → FileTree.update t idx = t).
Proof.
  rewrite FileTreeFacts.update_modify_at. split_and!.
  - apply TreeFacts.node_at_modify_at.
  - intros q Hq. by apply FileTreeFacts.node_at_modify_off.
  - intros q Hne. destruct (decide (q `prefix_of` idx)) as [Hp|Hp].
    + by apply FileTreeFacts.node_at_modify_above.
    + by rewrite FileTreeFacts.node_at_modify_off.
  - intros Hn. apply TreeFacts.modify_at_fix. intros n. by rewrite Hn.
Qed.

Lemma toggle_flips_the_addressed_node_only_witness :
  FileTree.update [Examples.file "a.txt"; Examples.dir "docs"] [1; 0]
  = [Examples.file "a.txt"; Examples.dir "docs"].
Proof.
  apply (proj2 (proj2 (proj2 (toggle_flips_the_addressed_node_only
                                [Examples.file "a.txt"; Examples.dir "docs"] [1; 0])))).
  reflexivity.
Defined.

(** X5. Collapsing and re-expanding costs nothing and loses nothing: two
    clicks in a row on a node whose children have been fetched and that is
    not marked loading bring back the very same state, and the backend is
    not contacted. *)
Theorem two_clicks_on_a_fetched_node_restore_the_state {W : Type} (B : Backend W)
    (idx : list nat) (n : TreeNode) (s : FileTree.State) (y : Sys W) :
  FileTree.node_at (FileTree.tree s) idx = Some n →
  is_Some (children n) → loading n = false →
  FileTree.clicks B 2 idx s y = (tt, s, y).
Proof.
  intros Hn Hc Hl. destruct Hc as [c Hc].
  assert (FileTree.wants_fetch n = false) as Hq.
  { unfold FileTree.wants_fetch, FileTree.no_children. by rewrite Hc, andb_false_r. }
  assert (FileTree.wants_fetch (FileTree.toggled n) = false) as Hq'.
  { unfold FileTree.wants_fetch, FileTree.no_children. simpl. by rewrite Hc, andb_false_r. }
  change (FileTree.clicks B 2 idx)
    with (FileTree.click_at B idx >>; (FileTree.click_at B idx >>; ret tt)).
  unfold bind at 1. rewrite (TreeFacts.click_at_run B idx n) by done.
  unfold FileTree.onClick. destruct (is_dir n) eqn:Hd.
  - rewrite FileTreeFacts.toggleFolder_quiet by done.
    unfold bind. rewrite (TreeFacts.click_at_run B idx (FileTree.toggled n))
      by (by apply FileTreeFacts.node_at_update).
    unfold FileTree.onClick. change (is_dir (FileTree.toggled n)) with (is_dir n).
    rewrite Hd, FileTreeFacts.toggleFolder_quiet by done.
    unfold ret. f_equal. f_equal. destruct s as [t cp e q d]. unfold FileTree.setTree.
    simpl. f_equal.
    rewrite !FileTreeFacts.update_modify_at, TreeFacts.modify_at_compose.
    apply TreeFacts.modify_at_fix. intros m Hm. simpl in Hn. rewrite Hn in Hm.
    injection Hm as <-. simpl. apply TreeFacts.toggled_twice; [by exists c|done].
  - unfold ret at 1. unfold bind. rewrite (TreeFacts.click_at_run B idx n) by done.
    unfold FileTree.onClick. by rewrite Hd.
Qed.

Lemma two_clicks_on_a_fetched_node_restore_the_state_witness :
  FileTree.clicks (Examples.scripted false (λ _, false)) 2 [0]
    (Examples.local [mkTreeNode (entry (Examples.dir "docs")) (Some []) true false])
    Examples.start
  = (tt, Examples.local [mkTreeNode (entry (Examples.dir "docs")) (Some []) true false],
     Examples.start).
Proof.
  apply (two_clicks_on_a_fetched_node_restore_the_state
           (Examples.scripted false (λ _, false)) [0]
           (mkTreeNode (entry (Examples.dir "docs")) (Some []) true false));
    [reflexivity | by eexists | reflexivity].
Defined.

(** X6. A toggle whose index path addresses no node of the current tree (a
    path that leaves the tree, or runs through a node without children)
    changes no node. When the node handed over is collapsed and unfetched
    its folder is listed all the same, and the listing is dropped; only the
    error cell can differ afterwards. *)
Theorem toggle_at_a_stale_address_changes_no_node {W : Type} (B : Backend W)
    (node : TreeNode) (idx : list nat) (s : FileTree.State) (y : Sys W) :
  FileTree.node_at (FileTree.tree s) idx = None →
  let r := FileTree.toggleFolder B node idx s y in
  FileTree.tree (final_state r) = FileTree.tree s ∧
  FileTree.currentPath (final_state r) = FileTree.currentPath s ∧
  (FileTree.wants_fetch node = false → r = (tt, s, y)) ∧
  (FileTree.wants_fetch node = true →
   trace (final_sys r) = trace y ++ [ECall (list_directory (path node))]).
Proof.
  intros Hn r. subst r.
  assert (∀ f, FileTree.modify_at f (FileTree.tree s) idx = FileTree.tree s) as Hfix.
  { intros f. apply TreeFacts.modify_at_fix. intros n. by rewrite Hn. }
  destruct (FileTree.wants_fetch node) eqn:Hw.
  - destruct (FileTreeFacts.toggleFolder_fetching B node idx s y Hw)
      as (c & e & w' & -> & _).
    cbn [final_state final_sys fst snd trace FileTree.tree FileTree.setTree
         FileTree.setError FileTree.currentPath].
    rewrite FileTreeFacts.setChildren_modify_at, FileTreeFacts.update_modify_at, !Hfix.
    done.
  - rewrite FileTreeFacts.toggleFolder_quiet by done.
    cbn [final_state final_sys fst snd trace FileTree.tree FileTree.setTree
         FileTree.currentPath].
    rewrite FileTreeFacts.update_modify_at, Hfix. split_and!; [done|done| |done].
    intros _. f_equal. f_equal. destruct s as [t cp e q d]. unfold FileTree.setTree.
    simpl in *. f_equal. rewrite FileTreeFacts.update_modify_at. apply Hfix.
Qed.

Lemma toggle_at_a_stale_address_changes_no_node_witness :
  FileTree.tree
    (final_state (FileTree.toggleFolder (Examples.scripted true (λ _, false))
                    (Examples.dir "sub") [0; 0]
                    (Examples.local [Examples.file "a.txt"; Examples.dir "docs"])
                    Examples.start))
  = [Examples.file "a.txt"; Examples.dir "docs"].
Proof.
  apply (toggle_at_a_stale_address_changes_no_node (Examples.scripted true (λ _, false))
           (Examples.dir "sub") [0; 0]
           (Examples.local [Examples.file "a.txt"; Examples.dir "docs"]) Examples.start).
  reflexivity.
Defined.
(** ** Rows without a search query *)

Lemma render_fresh_rows (es : list FileEntry) :
  ∀ k : nat,
    FileTree.render_from [] 0 k (map FileTree.fresh es)
    = imap (λ i e, FileTree.mkRow (FileTree.fresh e) [k + i] 0) es.
Proof.
  induction es as [|e es IH]; intros k; [done|].
  simpl. rewrite IH, Nat.add_0_r. f_equal.
  apply imap_ext. intros i x _. simpl. by rewrite Nat.add_succ_r.
Qed.

Lemma entries_of_fresh_rows (es : list FileEntry) :
  ∀ f : nat → list nat,
    map (λ r, entry (FileTree.row_node r))
        (imap (λ i e, FileTree.mkRow (FileTree.fresh e) (f i) 0) es) = es.
Proof.
  induction es as [|e es IH]; intros f; [done|]. simpl. f_equal.
  exact (IH (f ∘ S)).
Qed.

(** X7. With the search box empty, the index path of every row on screen
    is the address of the row's node in the tree, so a click on a row is
    the click at that address, and it flips the [expanded] flag of the
    directory clicked on, whether a listing is fetched or not. *)
Theorem unfiltered_row_click_toggles_the_row_clicked {CF : Js.CaseFolding} {W : Type}
    (B : Backend W) (k : nat) (row : FileTree.Row) (s : FileTree.State) (y : Sys W) :
  FileTree.searchQuery s = "" → FileTree.rows s !! k = Some row →
  FileTree.node_at (FileTree.tree s) (FileTree.row_path row) = Some (FileTree.row_node row) ∧
  FileTree.click_row B k s y = FileTree.click_at B (FileTree.row_path row) s y ∧
  (is_dir (FileTree.row_node row) = true →
   ∃ n' : TreeNode,
     FileTree.node_at (FileTree.tree (final_state (FileTree.click_row B k s y)))
                      (FileTree.row_path row) = Some n' ∧
     entry n' = entry (FileTree.row_node row) ∧
     expanded n' = negb (expanded (FileTree.row_node row))) ∧
  (is_dir (FileTree.row_node row) = false → FileTree.click_row B k s y = (tt, s, y)).
Proof.
  intros Hq Hk.
  assert (FileTree.node_at (FileTree.tree s) (FileTree.row_path row)
          = Some (FileTree.row_node row)) as Hn.
  { apply RenderFacts.rows_are_addressed; [done|]. by eapply list_elem_of_lookup_2. }
  rewrite (RenderFacts.click_row_is_click_at B k row s y Hq Hk).
  rewrite (TreeFacts.click_at_run B _ _ s y Hn). unfold FileTree.onClick.
  split_and!; [done|done| |].
  - intros ->. destruct (FileTree.wants_fetch (FileTree.row_node row)) eqn:Hw.
    + destruct (FileTreeFacts.toggleFolder_fetching B _ (FileTree.row_path row) s y Hw)
        as (c & e & w' & -> & _).
      exists (FileTree.filled c (FileTree.toggled (FileTree.row_node row))).
      split; [|done].
      cbn [final_state fst snd FileTree.tree FileTree.setTree FileTree.setError].
      apply FileTreeFacts.node_at_setChildren. by apply FileTreeFacts.node_at_update.
    + rewrite FileTreeFacts.toggleFolder_quiet by done.
      exists (FileTree.toggled (FileTree.row_node row)). split; [|done].
      cbn [final_state fst snd FileTree.tree FileTree.setTree].
      by apply FileTreeFacts.node_at_update.
  - by intros ->.
Qed.

Lemma unfiltered_row_click_toggles_the_row_clicked_witness :
  FileTree.click_row (CF := Js.ascii_folding) (Examples.scripted true (λ _, false)) 1
    (Examples.local [Examples.file "a.txt"; Examples.dir "docs"]) Examples.start
  = FileTree.click_at (Examples.scripted true (λ _, false)) [1]
      (Examples.local [Examples.file "a.txt"; Examples.dir "docs"]) Examples.start.
Proof.
  apply (unfiltered_row_click_toggles_the_row_clicked (CF := Js.ascii_folding)
           (Examples.scripted true (λ _, false)) 1
           (FileTree.mkRow (Examples.dir "docs") [1] 0)
           (Examples.local [Examples.file "a.txt"; Examples.dir "docs"]) Examples.start);
    reflexivity.
Defined.

Lemma filter_fresh {CF : Js.CaseFolding} (q : string) (es : list FileEntry) :
  List.filter (λ node : TreeNode, FileTree.name_matches q (name node))
              (map FileTree.fresh es)
  = map FileTree.fresh (List.filter (λ e, FileTree.name_matches q (name e)) es).
Proof.
  induction es as [|e es IH]; [done|]. simpl.
  destruct (FileTree.name_matches q (name e)); simpl; by rewrite IH.
Qed.

(** X8. A refresh does not clear the search box. After a listing that
    succeeded, the refreshed level shows one row per entry of the listing
    that passes the filter of the box, every entry when the box is empty,
    in the listing's order, each at depth 0 with its position among the
    rows shown as address, none expanded and none with children: whatever
    was expanded before is collapsed and forgotten. *)
Theorem refreshed_level_shows_one_collapsed_row_per_entry {CF : Js.CaseFolding} {W : Type}
    (B : Backend W) (s : FileTree.State) (y : Sys W) (es : list FileEntry) :
  fst (do_list_directory B (FileTree.currentPath s) (world y)) = Ok es →
  let s' := final_state (FileTree.refresh B s y) in
  let shown :=
    match FileTree.searchQuery s with
    | EmptyString => es
    | q => List.filter (λ e, FileTree.name_matches q (name e)) es
    end in
  FileTree.searchQuery s' = FileTree.searchQuery s ∧
  FileTree.tree s' = map FileTree.fresh es ∧
  FileTree.rows s' = imap (λ i e, FileTree.mkRow (FileTree.fresh e) [i] 0) shown ∧
  map (λ r, entry (FileTree.row_node r)) (FileTree.rows s') = shown ∧
  sublist shown es ∧
  FileTree.error s' = None.
Proof.
  intros Hes s' shown. subst s'.
  unfold FileTree.refresh, bind, read, modify. rewrite FileTreeFacts.loadDir_run.
  destruct (do_list_directory B (FileTree.currentPath s) (world y)) as [[es'|err] w'];
    simpl in Hes; [|done]. injection Hes as ->.
  cbn [final_state fst snd].
  assert (FileTree.rows (FileTree.setTree (λ _, map FileTree.fresh es)
                           (FileTree.setError None s))
          = imap (λ i e, FileTree.mkRow (FileTree.fresh e) [i] 0) shown) as Hrows.
  { unfold FileTree.rows, FileTree.visibleNodes, FileTree.filteredTree,
      FileTree.renderNodes.
    cbn [FileTree.searchQuery FileTree.setTree FileTree.setError FileTree.tree].
    subst shown. destruct (FileTree.searchQuery s) as [|c q]; cbn [truthy].
    - apply (render_fresh_rows es 0).
    - rewrite filter_fresh. apply (render_fresh_rows _ 0). }
  rewrite Hrows. split_and!; [done|done|done| | |done].
  - apply (entries_of_fresh_rows shown (λ i, [i])).
  - subst shown. destruct (FileTree.searchQuery s); [done|]. apply filter_sublist.
Qed.

Lemma refreshed_level_shows_one_collapsed_row_per_entry_witness :
  FileTree.rows (CF := Js.ascii_folding)
    (final_state
       (FileTree.refresh
          (Examples.listing [entry (Examples.file "a.txt"); entry (Examples.dir "docs")])
          (FileTree.setSearchQuery "do" (Examples.local [Examples.dir "old"]))
          Examples.start))
  = [FileTree.mkRow (Examples.dir "docs") [0] 0].
Proof.
  apply (proj1 (proj2 (proj2
           (refreshed_level_shows_one_collapsed_row_per_entry (CF := Js.ascii_folding)
              (Examples.listing [entry (Examples.file "a.txt"); entry (Examples.dir "docs")])
              (FileTree.setSearchQuery "do" (Examples.local [Examples.dir "old"]))
              Examples.start
              [entry (Examples.file "a.txt"); entry (Examples.dir "docs")]
              eq_refl)))).
Defined.

(** ** Cloud navigation *)

Lemma join_cons_ne (sep x : string) (xs : list string) :
  xs ≠ [] → Js.join sep (x :: xs) = x +:+ sep +:+ Js.join sep xs.
Proof. by destruct xs. Qed.

(** X9. [loadRemoteDir()] without arguments, the re-list behind the refresh
    button and at the end of a drop, a delete, a rename or a copy, asks
    a cloud backend for the root folder whatever folder is on screen; when
    the listing arrives the breadcrumb stack is emptied and the pane shows
    the root. When it fails the stack and the path text stay. *)
Theorem cloud_relist_goes_back_to_the_root {W : Type} (B : Backend W) (cfg : CloudConnection)
    (s : RemoteFileTree.State) (y : Sys W) :
  let r := RemoteFileTree.relist B (Some cfg) s y in
  let answer :=
    fst (do_list_cloud_directory B (provider cfg) (access_token cfg) None (world y)) in
  trace (final_sys r)
  = trace y ++ [ECall (list_cloud_directory (provider cfg) (access_token cfg) None)] ∧
  (∀ files, answer = Ok files →
      RemoteFileTree.pathStack (final_state r) = [] ∧
      RemoteFileTree.remotePath (final_state r) = "/ (Cloud Root)" ∧
      RemoteFileTree.currentRemotePath (final_state r) = "/ (Cloud Root)" ∧
      RemoteFileTree.entries (final_state r) = files) ∧
  (∀ err, answer = Err err →
      RemoteFileTree.pathStack (final_state r) = RemoteFileTree.pathStack s ∧
      RemoteFileTree.remotePath (final_state r) = RemoteFileTree.remotePath s ∧
      RemoteFileTree.entries (final_state r) = []).
Proof.
  intros r answer. subst r answer.
  unfold RemoteFileTree.relist, bind, read. rewrite RemoteFacts.loadRemoteDir_cloud.
  change (RemoteFileTree.folderId (RemoteFileTree.pathStack s) None) with (@None string).
  cbv zeta.
  destruct (do_list_cloud_directory B (provider cfg) (access_token cfg) None (world y))
    as [[files|err] w']; cbn [fst final_state final_sys snd trace].
  - split_and!; [done| |done]. by intros ? [= <-].
  - split_and!; [done|done|]. by intros ? [= <-].
Qed.



Lemma nextStack_unset (stack : list Crumb) (path dirName : option string) :
  RemoteFileTree.stack_is_set path dirName = false →
  RemoteFileTree.nextStack stack path dirName = stack.
Proof.
  unfold RemoteFileTree.nextStack, RemoteFileTree.stack_is_set.
  destruct (RemoteFileTree.isUp path); [done|].
  destruct (truthy path && truthy dirName); [done|].
  by destruct (negb (truthy path)).
Qed.

(** X11. Once the path text of a cloud pane is the text of its breadcrumb
    stack, every listing started from the pane keeps it so, whether the
    listing succeeds or fails: the re-list, the way up, and the opening of
    a folder. A listing that succeeds establishes it even when it did not
    hold before (a pane that has just been mounted shows ["/"]). *)
Theorem cloud_path_text_follows_the_stack {W : Type} (B : Backend W) (cfg : CloudConnection)
    (s : RemoteFileTree.State) (y : Sys W) :
  let agrees (s' : RemoteFileTree.State) :=
    RemoteFileTree.remotePath s' = RemoteFileTree.cloud_pwd (RemoteFileTree.pathStack s') in
  (∀ (path dirName : option string),
      let r := RemoteFileTree.loadRemoteDir B (Some cfg) (RemoteFileTree.pathStack s)
                 path dirName s y in
      (agrees s → agrees (final_state r)) ∧
      (∀ files,
          fst (do_list_cloud_directory B (provider cfg) (access_token cfg)
                 (RemoteFileTree.folderId (RemoteFileTree.pathStack s) path) (world y))
          = Ok files →
          agrees (final_state r) ∧
          RemoteFileTree.currentRemotePath (final_state r)
          = RemoteFileTree.remotePath (final_state r))) ∧
  (agrees s →
   agrees (final_state (RemoteFileTree.relist B (Some cfg) s y)) ∧
   agrees (final_state (RemoteFileTree.goUp B (Some cfg) s y)) ∧
   ∀ e, agrees (final_state (RemoteFileTree.navigateTo B (Some cfg) e s y))).
Proof.
  intros agrees.
  assert (∀ (path dirName : option string),
      let r := RemoteFileTree.loadRemoteDir B (Some cfg) (RemoteFileTree.pathStack s)
                 path dirName s y in
      (agrees s → agrees (final_state r)) ∧
      (∀ files,
          fst (do_list_cloud_directory B (provider cfg) (access_token cfg)
                 (RemoteFileTree.folderId (RemoteFileTree.pathStack s) path) (world y))
          = Ok files →
          agrees (final_state r) ∧
          RemoteFileTree.currentRemotePath (final_state r)
          = RemoteFileTree.remotePath (final_state r))) as Hload.
  { intros path dirName r. subst r agrees.
    rewrite RemoteFacts.loadRemoteDir_cloud. cbv zeta.
    destruct (do_list_cloud_directory B (provider cfg) (access_token cfg)
                (RemoteFileTree.folderId (RemoteFileTree.pathStack s) path) (world y))
      as [[files|err] w']; cbn [final_state fst snd].
    - assert (RemoteFileTree.pathStack
                (if RemoteFileTree.stack_is_set path dirName
                 then RemoteFileTree.setPathStack
                        (RemoteFileTree.nextStack (RemoteFileTree.pathStack s) path dirName)
                        (RemoteFileTree.setError None (RemoteFileTree.setLoading true s))
                 else RemoteFileTree.setError None (RemoteFileTree.setLoading true s))
              = RemoteFileTree.nextStack (RemoteFileTree.pathStack s) path dirName) as Hst.
      { destruct (RemoteFileTree.stack_is_set path dirName) eqn:Hset; [done|].
        symmetry. by apply nextStack_unset. }
      cbn [RemoteFileTree.remotePath RemoteFileTree.pathStack RemoteFileTree.currentRemotePath
           RemoteFileTree.setLoading RemoteFileTree.onPathChange RemoteFileTree.setRemotePath
           RemoteFileTree.setEntries].
      rewrite Hst. split; [done|]. by intros.
    - split; [done|]. by intros. }
  split; [exact Hload|]. intros Ha. split_and!.
  - unfold RemoteFileTree.relist, bind, read. by apply Hload.
  - unfold RemoteFileTree.goUp, bind, read. by apply Hload.
  - intros e. unfold RemoteFileTree.navigateTo, bind, read.
    destruct (truthy (RemoteEntry.id e)); [by apply Hload | done].
Qed.

Lemma cloud_path_text_follows_the_stack_witness :
  RemoteFileTree.remotePath
    (final_state (RemoteFileTree.goUp (Examples.scripted true (λ _, false))
                    (Some Examples.drive)
                    (RemoteFileTree.mkState [] "" "Root / Home" [mkCrumb "id1" "Home"] None
                       false false "Root / Home")
                    Examples.start))
  = RemoteFileTree.cloud_pwd
      (RemoteFileTree.pathStack
         (final_state (RemoteFileTree.goUp (Examples.scripted true (λ _, false))
                         (Some Examples.drive)
                         (RemoteFileTree.mkState [] "" "Root / Home" [mkCrumb "id1" "Home"]
                            None false false "Root / Home")
                         Examples.start))).
Proof.
  apply (proj2 (cloud_path_text_follows_the_stack (Examples.scripted true (λ _, false))
                  Examples.drive
                  (RemoteFileTree.mkState [] "" "Root / Home" [mkCrumb "id1" "Home"] None
                     false false "Root / Home")
                  Examples.start)).
  reflexivity.
Defined.

(** X12. In a cloud pane whose path text follows the stack, the parent that
    an upload names is that text: none at the root, and inside a folder the
    line ["Root / …"] of crumb names, which is not the id of the folder on
    top of the stack unless a folder's id happens to read like that. *)
Theorem cloud_upload_names_the_path_text_as_parent {W : Type} (B : Backend W)
    (cfg : CloudConnection) (stack : list Crumb) (file : DroppedFile) (p : string)
    (s : RemoteFileTree.State) (y : Sys W) :
  file_path file = Some p → p ≠ "" →
  let parent := match stack with
                | [] => None
                | _ => Some ("Root / " +:+ Js.join " / " (map crumb_name stack))
                end in
  calls_of (trace (final_sys (RemoteFileTree.upload_one B (Some cfg)
                                (RemoteFileTree.cloud_pwd stack) file s y)))
  = calls_of (trace y)
    ++ [upload_cloud_file (provider cfg) (access_token cfg) p parent] ∧
  (∀ c, last stack = Some c → parent = Some (crumb_id c) →
        Js.startsWith "Root / " (crumb_id c) = true).
Proof.
  intros Hp Hne parent.
  assert (RemoteFileTree.parentId (RemoteFileTree.cloud_pwd stack) = parent) as Hpar.
  { subst parent. by destruct stack. }
  split.
  - destruct (DropFacts.upload_one_run B (Some cfg) (RemoteFileTree.cloud_pwd stack) file s y)
      as (b & w' & -> & Hb).
    unfold RemoteFileTree.upload_block in Hb.
    assert (truthy (file_path file) = true) as Ht by (rewrite Hp; by destruct p).
    rewrite Ht in Hb. destruct Hb as [outcome ->].
    cbn [final_sys snd trace]. rewrite calls_of_app. simpl.
    unfold RemoteFileTree.upload_call. by rewrite Hpar, Hp.
  - intros c _ Hc. subst parent. destruct stack; [done|]. by injection Hc as <-.
Qed.

Lemma cloud_upload_names_the_path_text_as_parent_witness :
  calls_of (trace (final_sys
     (RemoteFileTree.upload_one (Examples.scripted true (λ _, false)) (Some Examples.drive)
        (RemoteFileTree.cloud_pwd [mkCrumb "id1" "Home"; mkCrumb "id7" "Photos"])
        (Examples.dropped "a.txt") (Examples.remote [] []) Examples.start)))
  = [] ++ [upload_cloud_file "google" "tok" "C:\in\a.txt" (Some "Root / Home / Photos")].
Proof.
  apply (cloud_upload_names_the_path_text_as_parent (Examples.scripted true (λ _, false))
           Examples.drive [mkCrumb "id1" "Home"; mkCrumb "id7" "Photos"]
           (Examples.dropped "a.txt") "C:\in\a.txt" (Examples.remote [] []) Examples.start);
    [reflexivity | discriminate].
Defined.
(** ** Operations on a remote entry *)

Module OpFacts.

Lemma logged_eta {S : Type} (s : Logged S) : mkLogged (inner s) (ops s) = s.
Proof. by destruct s. Qed.

Lemma relist_is_a_load {W : Type} (B : Backend W) (cc : option CloudConnection)
    (s : RemoteFileTree.State) (y : Sys W) :
  RemoteFileTree.relist B cc s y
  = RemoteFileTree.loadRemoteDir B cc (RemoteFileTree.pathStack s) None None s y.
Proof. reflexivity. Qed.

Lemma surjective_run {W S : Type} (r : unit * S * Sys W) :
  r = (tt, final_state r, final_sys r).
Proof. by destruct r as [[[] ?] ?]. Qed.

End OpFacts.

Ltac run_handler :=
  unfold bind, say, lift, perform, emit, modify, read, ret, invoke;
  cbn [inner ops world trace fst snd final_state final_sys].

(** X13. The remote [handleDelete]. A declined confirmation leaves no trace
    at all. A cloud entry without an id is refused with a message and no
    command. Otherwise exactly one delete command goes out, for an FTP
    entry [delete_remote_dir] or [delete_remote_file] by its [is_dir]; when
    the command fails the pane is left as it was and a ["Delete error: "]
    line is logged, and only when it succeeds is the pane re-listed. *)
Theorem remote_delete_relists_only_after_success {W : Type} (B : Backend W)
    (O : OpBackend W) (cloudConfig : option CloudConnection) (e : RemoteEntry.t)
    (s : Logged RemoteFileTree.State) (y : Sys W) :
  RemoteOps.handleDelete B O cloudConfig false e s y = (tt, s, y) ∧
  let r := RemoteOps.handleDelete B O cloudConfig true e s y in
  let starting := EMsg ("Deleting " +:+ RemoteEntry.name e +:+ "…") in
  match RemoteOps.delete_op cloudConfig e with
  | None =>
      final_state r = s ∧
      final_sys r
      = mkSys (world y)
              (trace y ++ [starting; EMsg "Cannot delete: cloud entry ID is missing."])
  | Some o =>
      ops (final_state r) = ops s ++ [o] ∧
      match O o (world y) with
      | (Err err, w') =>
          inner (final_state r) = inner s ∧
          final_sys r = mkSys w' (trace y ++ [starting; EMsg ("Delete error: " +:+ err)])
      | (Ok result, w') =>
          let after := RemoteFileTree.relist B cloudConfig (inner s)
                         (mkSys w' (trace y ++ [starting; EMsg result])) in
          inner (final_state r) = final_state after ∧ final_sys r = final_sys after
      end
  end.
Proof.
  split.
  - unfold RemoteOps.handleDelete. run_handler. by rewrite OpFacts.logged_eta.
  - intros r starting. subst r starting.
    unfold RemoteOps.handleDelete, RemoteOps.delete_op, RemoteOps.reload.
    destruct cloudConfig as [cfg|].
    + destruct (truthy (RemoteEntry.id e)).
      * run_handler.
        destruct (O _ (world y)) as [[result|err] w']; run_handler.
        -- rewrite <- app_assoc. simpl app.
           rewrite OpFacts.relist_is_a_load.
           by destruct (RemoteFileTree.loadRemoteDir B (Some cfg) _ None None (inner s) _)
             as [[[] s'] y'].
        -- by rewrite <- app_assoc.
      * run_handler. by rewrite <- app_assoc, OpFacts.logged_eta.
    + run_handler.
      destruct (O _ (world y)) as [[result|err] w']; run_handler.
      * rewrite <- app_assoc. simpl app.
        rewrite OpFacts.relist_is_a_load.
        by destruct (RemoteFileTree.loadRemoteDir B None _ None None (inner s) _)
          as [[[] s'] y'].
      * by rewrite <- app_assoc.
Qed.

(** X14. The remote [handleRename]. A cancelled prompt, an empty answer and
    an unchanged name do nothing at all. In a cloud pane the handler logs
    that it starts and that renaming is not implemented, and sends nothing.
    On FTP one [rename_remote_file] goes out with the old and the new
    name; the pane is re-listed only when it succeeds. *)
Theorem remote_rename_needs_a_new_name {W : Type} (B : Backend W)
    (O : OpBackend W) (cloudConfig : option CloudConnection) (e : RemoteEntry.t)
    (s : Logged RemoteFileTree.State) (y : Sys W) :
  RemoteOps.handleRename B O cloudConfig None e s y = (tt, s, y) ∧
  RemoteOps.handleRename B O cloudConfig (Some "") e s y = (tt, s, y) ∧
  RemoteOps.handleRename B O cloudConfig (Some (RemoteEntry.name e)) e s y = (tt, s, y) ∧
  ∀ newName : string,
    newName ≠ "" → newName ≠ RemoteEntry.name e →
    let r := RemoteOps.handleRename B O cloudConfig (Some newName) e s y in
    let starting :=
      EMsg ("Renaming " +:+ RemoteEntry.name e +:+ " to " +:+ newName +:+ "…") in
    match cloudConfig with
    | Some _ =>
        final_state r = s ∧
        final_sys r
        = mkSys (world y) (trace y ++ [starting; EMsg "Cloud rename not yet implemented."])
    | None =>
        ops (final_state r) = ops s ++ [rename_remote_file (RemoteEntry.name e) newName] ∧
        match O (rename_remote_file (RemoteEntry.name e) newName) (world y) with
        | (Err err, w') =>
            inner (final_state r) = inner s ∧
            final_sys r = mkSys w' (trace y ++ [starting; EMsg ("Rename error: " +:+ err)])
        | (Ok result, w') =>
            let after := RemoteFileTree.relist B None (inner s)
                           (mkSys w' (trace y ++ [starting; EMsg result])) in
            inner (final_state r) = final_state after ∧ final_sys r = final_sys after
        end
    end.
Proof.
  split_and!.
  - unfold RemoteOps.handleRename. run_handler. by rewrite OpFacts.logged_eta.
  - unfold RemoteOps.handleRename. run_handler. by rewrite OpFacts.logged_eta.
  - unfold RemoteOps.handleRename. run_handler.
    rewrite String.eqb_refl, orb_true_r. by rewrite OpFacts.logged_eta.
  - intros newName Hne Hnew r starting. subst r starting.
    unfold RemoteOps.handleRename, RemoteOps.reload.
    assert (truthy (Some newName) = true) as Ht by (by destruct newName).
    assert (String.eqb newName (RemoteEntry.name e) = false) as Hq
      by (by apply String.eqb_neq).
    run_handler. change (default "" (Some newName)) with newName.
    rewrite Ht, Hq. cbn [negb orb].
    destruct cloudConfig as [cfg|]; run_handler.
    + by rewrite <- app_assoc, OpFacts.logged_eta.
    + destruct (O _ (world y)) as [[result|err] w']; run_handler.
      * rewrite <- app_assoc. simpl app. rewrite OpFacts.relist_is_a_load.
        by destruct (RemoteFileTree.loadRemoteDir B None _ None None (inner s) _)
          as [[[] s'] y'].
      * by rewrite <- app_assoc.
Qed.

Lemma remote_rename_needs_a_new_name_witness :
  ops (final_state
         (RemoteOps.handleRename (Examples.scripted true (λ _, false))
            (scripted_ops (λ _, false)) None (Some "b.txt") (Examples.rentry "a.txt")
            (mkLogged (Examples.remote [Examples.rentry "a.txt"] []) []) Examples.start))
  = [] ++ [rename_remote_file "a.txt" "b.txt"].
Proof.
  apply (proj2 (proj2 (proj2
           (remote_rename_needs_a_new_name (Examples.scripted true (λ _, false))
              (scripted_ops (λ _, false)) None (Examples.rentry "a.txt")
              (mkLogged (Examples.remote [Examples.rentry "a.txt"] []) []) Examples.start)))
           "b.txt");
    discriminate.
Defined.

(** X15. The remote [handleCopyFile] copies through a temporary local file.
    It is refused with one message in a cloud pane and for a directory, and
    a cancelled prompt does nothing. Otherwise the file is downloaded to
    [downloadDir\.quicksync_temp_<name>]; if that fails nothing is
    uploaded; if it succeeds that temporary file is uploaded under the new
    name, and the pane is re-listed only when the upload succeeds too. The
    handler never asks for the temporary file to be deleted: the download
    is the only command of its kind that it sends. *)
Theorem remote_copy_goes_through_a_temporary_file {W : Type} (B : Backend W)
    (O : OpBackend W) (cloudConfig : option CloudConnection) (downloadDir : string)
    (answer : option string) (e : RemoteEntry.t)
    (s : Logged RemoteFileTree.State) (y : Sys W) :
  let r := RemoteOps.handleCopyFile B O cloudConfig downloadDir answer e s y in
  let tempPath := downloadDir +:+ "\.quicksync_temp_" +:+ RemoteEntry.name e in
  let fetch := download_remote_file (RemoteEntry.name e) tempPath in
  (is_Some cloudConfig →
   final_state r = s ∧
   final_sys r = mkSys (world y) (trace y ++ [EMsg "Cloud copying is not yet implemented."])) ∧
  (cloudConfig = None → RemoteEntry.is_dir e = true →
   final_state r = s ∧
   final_sys r
   = mkSys (world y) (trace y ++ [EMsg "Copying directories is not yet supported."])) ∧
  (cloudConfig = None → RemoteEntry.is_dir e = false → truthy answer = false →
   r = (tt, s, y)) ∧
  (∀ newName : string,
      cloudConfig = None → RemoteEntry.is_dir e = false →
      answer = Some newName → newName ≠ "" →
      ops (final_state r) = ops s ++ [fetch] ∧
      match O fetch (world y) with
      | (Err err, w') =>
          inner (final_state r) = inner s ∧
          calls_of (trace (final_sys r)) = calls_of (trace y) ∧
          last (trace (final_sys r)) = Some (EMsg ("Copy error: " +:+ err))
      | (Ok _, w') =>
          match do_upload_file B tempPath newName w' with
          | (Err err, w'') =>
              inner (final_state r) = inner s ∧
              calls_of (trace (final_sys r))
              = calls_of (trace y) ++ [upload_file tempPath newName] ∧
              last (trace (final_sys r)) = Some (EMsg ("Copy error: " +:+ err))
          | (Ok result, w'') =>
              ∃ y1 : Sys W,
                world y1 = w'' ∧
                calls_of (trace y1) = calls_of (trace y) ++ [upload_file tempPath newName] ∧
                last (trace y1) = Some (EMsg ("Copy complete: " +:+ result)) ∧
                inner (final_state r)
                = final_state (RemoteFileTree.relist B None (inner s) y1) ∧
                final_sys r = final_sys (RemoteFileTree.relist B None (inner s) y1)
          end
      end) ∧
  (∃ sent, ops (final_state r) = ops s ++ sent ∧ (sent = [] ∨ sent = [fetch])).
Proof.
  intros r tempPath fetch. subst r tempPath fetch.
  unfold RemoteOps.handleCopyFile, RemoteOps.reload.
  split_and!.
  - intros [cfg ->]. run_handler. by rewrite OpFacts.logged_eta.
  - intros -> ->. run_handler. by rewrite OpFacts.logged_eta.
  - intros -> -> ->. run_handler. by rewrite OpFacts.logged_eta.
  - intros newName -> -> -> Hne.
    assert (truthy (Some newName) = true) as -> by (by destruct newName).
    run_handler. cbn [negb]. change (default "" (Some newName)) with newName.
    destruct (O _ (world y)) as [[got|err] w']; run_handler.
    + destruct (do_upload_file B _ newName w') as [[result|err] w'']; run_handler.
      * match goal with
        | |- context [RemoteFileTree.loadRemoteDir _ _ _ _ _ _ ?y1] => set (Y := y1)
        end.
        change (RemoteFileTree.loadRemoteDir B None (RemoteFileTree.pathStack (inner s))
                  None None (inner s) Y)
          with (RemoteFileTree.relist B None (inner s) Y).
        split; [by destruct (RemoteFileTree.relist B None (inner s) Y) as [[[] s'] y']|].
        exists Y. split_and!; [done| | |..].
        -- subst Y. cbn [trace]. rewrite !calls_of_app. simpl. by rewrite !app_nil_r.
        -- subst Y. cbn [trace]. by rewrite last_snoc.
        -- by destruct (RemoteFileTree.relist B None (inner s) Y) as [[[] s'] y'].
        -- by destruct (RemoteFileTree.relist B None (inner s) Y) as [[[] s'] y'].
      * split_and!; [done|done| |by rewrite last_snoc].
        rewrite !calls_of_app. simpl. by rewrite !app_nil_r.
    + split_and!; [done|done| |by rewrite last_snoc].
      rewrite !calls_of_app. simpl. by rewrite !app_nil_r.
  - destruct cloudConfig as [cfg|].
    { exists []. run_handler. by rewrite app_nil_r; split; [|left]. }
    destruct (RemoteEntry.is_dir e).
    { exists []. run_handler. by rewrite app_nil_r; split; [|left]. }
    destruct (truthy answer).
    2:{ exists []. run_handler. by rewrite app_nil_r; split; [|left]. }
    eexists [_]. split; [|by right]. run_handler. cbn [negb].
    destruct (O _ (world y)) as [[got|err] w']; run_handler; [|done].
    destruct (do_upload_file B _ _ w') as [[result|err] w'']; run_handler; [|done].
    by destruct (RemoteFileTree.loadRemoteDir B None _ None None (inner s) _)
      as [[[] s'] y'].
Qed.

Lemma remote_copy_goes_through_a_temporary_file_witness :
  ops (final_state
         (RemoteOps.handleCopyFile (Examples.scripted true (λ _, false))
            (scripted_ops (λ _, true)) None "C:\dl" (Some "b.txt") (Examples.rentry "a.txt")
            (mkLogged (Examples.remote [Examples.rentry "a.txt"] []) []) Examples.start))
  = [] ++ [download_remote_file "a.txt" ("C:\dl" +:+ "\.quicksync_temp_" +:+ "a.txt")].
Proof.
  apply (proj1 (proj2 (proj2 (proj2
           (remote_copy_goes_through_a_temporary_file (Examples.scripted true (λ _, false))
              (scripted_ops (λ _, true)) None "C:\dl" (Some "b.txt") (Examples.rentry "a.txt")
              (mkLogged (Examples.remote [Examples.rentry "a.txt"] []) []) Examples.start))))
           "b.txt");
    [reflexivity | reflexivity | reflexivity | discriminate].
Defined.

(** X16. Neither download handler re-lists or changes the pane: each logs
    its start line and one line for the outcome, and sends at most one
    command. [handleDownload] stores the file under
    [downloadDir\<name>]; for a cloud entry without an id it sends nothing
    and logs ["Download error: Error: Cloud entry missing ID."].
    [handleDownloadFolder] sends the FTP folder download whatever the kind
    of the pane, into the base directory given, [downloadDir] when none or
    an empty one is given. *)
Theorem downloads_log_two_lines_and_leave_the_pane {W : Type} (O : OpBackend W)
    (cloudConfig : option CloudConnection) (downloadDir : string)
    (s : Logged RemoteFileTree.State) (y : Sys W) :
  (∀ e : RemoteEntry.t,
      let r := RemoteOps.handleDownload O cloudConfig downloadDir e s y in
      let starting := EMsg ("Downloading " +:+ RemoteEntry.name e +:+ "…") in
      inner (final_state r) = inner s ∧
      match RemoteOps.download_op cloudConfig downloadDir e with
      | None =>
          ops (final_state r) = ops s ∧
          final_sys r
          = mkSys (world y)
                  (trace y ++ [starting;
                               EMsg "Download error: Error: Cloud entry missing ID."])
      | Some o =>
          ops (final_state r) = ops s ++ [o] ∧
          final_sys r
          = mkSys (snd (O o (world y)))
                  (trace y ++ [starting;
                               EMsg match fst (O o (world y)) with
                                    | Ok result => result
                                    | Err err => "Download error: " +:+ err
                                    end])
      end) ∧
  (∀ (folderName : string) (localBaseDir : option string),
      let r := RemoteOps.handleDownloadFolder O downloadDir folderName localBaseDir s y in
      let base := match localBaseDir with
                  | Some (String c d) => String c d
                  | _ => downloadDir
                  end in
      let o := download_remote_folder folderName (base +:+ "\" +:+ folderName) in
      inner (final_state r) = inner s ∧
      ops (final_state r) = ops s ++ [o] ∧
      final_sys r
      = mkSys (snd (O o (world y)))
              (trace y ++ [EMsg ("Downloading folder " +:+ folderName +:+ "…");
                           EMsg match fst (O o (world y)) with
                                | Ok result => result
                                | Err err => "Download Folder error: " +:+ err
                                end])).
Proof.
  split.
  - intros e r starting. subst r starting.
    unfold RemoteOps.handleDownload, RemoteOps.download_op.
    destruct cloudConfig as [cfg|].
    + destruct (truthy (RemoteEntry.id e)); run_handler.
      * destruct (O _ (world y)) as [[result|err] w']; run_handler;
          by rewrite <- app_assoc.
      * by rewrite <- app_assoc.
    + run_handler.
      destruct (O _ (world y)) as [[result|err] w']; run_handler; by rewrite <- app_assoc.
  - intros folderName localBaseDir r base o. subst r base o.
    unfold RemoteOps.handleDownloadFolder.
    destruct localBaseDir as [[|c d]|]; run_handler;
      destruct (O _ (world y)) as [[result|err] w']; run_handler; by rewrite <- app_assoc.
Qed.

(** X17. [handleCopyPath] talks to no backend and changes nothing in the
    pane; it logs one line. The path it copies is the path text, one [/],
    and the entry's name: the [/] is added only when the path text does not
    end in one. *)
Theorem copied_path_has_one_slash_before_the_name {W : Type} (e : RemoteEntry.t)
    (s : Logged RemoteFileTree.State) (y : Sys W) :
  (∃ dir : string,
      RemoteOps.fullPath (RemoteFileTree.remotePath (inner s)) (RemoteEntry.name e)
      = dir +:+ "/" +:+ RemoteEntry.name e ∧
      (RemoteFileTree.remotePath (inner s) = dir ∧ RemoteOps.endsWith_slash dir = false
       ∨ RemoteFileTree.remotePath (inner s) = dir +:+ "/")) ∧
  RemoteOps.handleCopyPath true e s y
  = (tt, s, mkSys (world y)
               (trace y ++ [EMsg ("Copied path: "
                   +:+ RemoteOps.fullPath (RemoteFileTree.remotePath (inner s))
                                          (RemoteEntry.name e))])) ∧
  RemoteOps.handleCopyPath false e s y
  = (tt, s, mkSys (world y) (trace y ++ [EMsg "Failed to copy path."])).
Proof.
  split_and!.
  - unfold RemoteOps.fullPath.
    destruct (RemoteOps.endsWith_slash (RemoteFileTree.remotePath (inner s))) eqn:E.
    + assert (∀ p, RemoteOps.endsWith_slash p = true → ∃ d, p = d +:+ "/") as Hend.
      { clear. induction p as [|c p IH]; [done|]. destruct p as [|c' p].
        - simpl. intros ->%Ascii.eqb_eq. by exists "".
        - intros H. destruct (IH H) as [d Hd]. exists (String c d).
          by rewrite PathFacts.append_cons, <- Hd. }
      destruct (Hend _ E) as [d Hd]. exists d. rewrite Hd at 1.
      split; [by rewrite PathFacts.append_assoc | by right].
    + eexists. split; [done | by left].
  - unfold RemoteOps.handleCopyPath. run_handler. by rewrite OpFacts.logged_eta.
  - unfold RemoteOps.handleCopyPath. run_handler. by rewrite OpFacts.logged_eta.
Qed.

(** ** Deleting a local entry *)

(** X18. The local [handleDelete]. A declined confirmation leaves no trace.
    Otherwise one [delete_local_file] goes out for the entry's path; when it
    fails the tree is left as it was and a ["Delete error: "] line is
    logged; when it succeeds the current folder is listed again, once, and
    the tree is rebuilt from that listing. *)
Theorem local_delete_refreshes_only_after_success {W : Type} (B : Backend W)
    (O : OpBackend W) (entry : FileEntry) (s : Logged FileTree.State) (y : Sys W) :
  LocalOps.handleDelete B O false entry s y = (tt, s, y) ∧
  let r := LocalOps.handleDelete B O true entry s y in
  let starting := EMsg ("Deleting " +:+ name entry +:+ "…") in
  ops (final_state r) = ops s ++ [delete_local_file (path entry)] ∧
  match O (delete_local_file (path entry)) (world y) with
  | (Err err, w') =>
      inner (final_state r) = inner s ∧
      final_sys r = mkSys w' (trace y ++ [starting; EMsg ("Delete error: " +:+ err)])
  | (Ok result, w') =>
      let after := FileTree.refresh B (inner s)
                     (mkSys w' (trace y ++ [starting; EMsg result])) in
      inner (final_state r) = final_state after ∧
      final_sys r = final_sys after ∧
      calls_of (trace (final_sys r))
      = calls_of (trace y) ++ [list_directory (FileTree.currentPath (inner s))]
  end.
Proof.
  split.
  - done.
  - intros r starting. subst r starting. unfold LocalOps.handleDelete. run_handler.
    destruct (O _ (world y)) as [[result|err] w']; run_handler.
    + rewrite <- app_assoc. simpl app.
      match goal with
      | |- context [FileTree.refresh B (inner s) ?y1] => set (Y := y1)
      end.
      assert (calls_of (trace (final_sys (FileTree.refresh B (inner s) Y)))
              = calls_of (trace y) ++ [list_directory (FileTree.currentPath (inner s))]) as Hc.
      { unfold FileTree.refresh, bind, read, modify. rewrite FileTreeFacts.loadDir_run.
        destruct (do_list_directory B _ (world Y)) as [[es|err] w2];
          cbn [final_sys snd trace]; subst Y; cbn [trace];
          rewrite !calls_of_app; simpl; by rewrite app_nil_r. }
      by destruct (FileTree.refresh B (inner s) Y) as [[[] s'] y'].
    + by rewrite <- app_assoc.
Qed.
(** ** Saved connections *)

Module ShellFacts.
Import Shell.

Section Upsert.
Context {A : Type} (id_of : A → string).

Lemma findIndex_none (f : A → bool) (l : list A) :
  findIndex f l = None → Forall (λ x, f x = false) l.
Proof.
  induction l as [|x l IH]; simpl; [by constructor|].
  destruct (f x) eqn:E; [done|]. destruct (findIndex f l); [done|].
  intros _. constructor; [done | by apply IH].
Qed.

Lemma findIndex_some (f : A → bool) (l : list A) (i : nat) :
  findIndex f l = Some i →
  ∃ x, l !! i = Some x ∧ f x = true ∧ Forall (λ z, f z = false) (take i l).
Proof.
  revert i; induction l as [|x l IH]; intros i; simpl; [done|].
  destruct (f x) eqn:E.
  - intros [= <-]. exists x. split_and!; [done|done|constructor].
  - destruct (findIndex f l) as [j|]; [|done]. intros [= <-].
    destruct (IH j eq_refl) as (z & Hz & Hf & Hbefore). exists z.
    split_and!; [done|done|]. simpl. by constructor.
Qed.

Lemma ids_of_upsert (conn : A) (l : list A) :
  map id_of (upsert id_of conn l)
  = if bool_decide (id_of conn ∈ map id_of l) then map id_of l
    else map id_of l ++ [id_of conn].
Proof.
  unfold upsert.
  destruct (findIndex (λ c, String.eqb (id_of c) (id_of conn)) l) as [i|] eqn:E.
  - apply findIndex_some in E as (x & Hx & Hid & _).
    apply String.eqb_eq in Hid.
    rewrite bool_decide_true.
    + change (map id_of) with (fmap (M:=list) id_of).
      rewrite list_fmap_insert, <- Hid. apply list_insert_id.
      by rewrite list_lookup_fmap, Hx.
    + rewrite <- Hid. apply list_elem_of_fmap. exists x. split; [done|].
      by eapply list_elem_of_lookup_2.
  - apply findIndex_none in E. rewrite bool_decide_false.
    + by rewrite map_app.
    + intros (x & Hid & Hin)%list_elem_of_fmap.
      rewrite Forall_forall in E. specialize (E x Hin). simpl in E.
      apply String.eqb_neq in E. congruence.
Qed.

Lemma find_upsert_same (conn : A) (l : list A) :
  find (λ c, String.eqb (id_of c) (id_of conn)) (upsert id_of conn l) = Some conn.
Proof.
  unfold upsert. induction l as [|x l IH]; simpl.
  - by rewrite String.eqb_refl.
  - destruct (String.eqb (id_of x) (id_of conn)) eqn:E; simpl.
    + by rewrite String.eqb_refl.
    + destruct (findIndex _ l); simpl; by rewrite E.
Qed.

Lemma find_upsert_other (conn : A) (k : string) (l : list A) :
  k ≠ id_of conn →
  find (λ c, String.eqb (id_of c) k) (upsert id_of conn l)
  = find (λ c, String.eqb (id_of c) k) l.
Proof.
  intros Hk. assert (String.eqb (id_of conn) k = false) as Hc
    by (apply String.eqb_neq; congruence).
  unfold upsert. induction l as [|x l IH]; simpl.
  - by rewrite Hc.
  - destruct (String.eqb (id_of x) (id_of conn)) eqn:E; simpl.
    + rewrite Hc. apply String.eqb_eq in E.
      assert (String.eqb (id_of x) k = false) as -> by (apply String.eqb_neq; congruence).
      done.
    + destruct (findIndex _ l); simpl; by rewrite IH.
Qed.

Lemma find_without_same (k : string) (l : list A) :
  find (λ c, String.eqb (id_of c) k) (without id_of k l) = None.
Proof.
  unfold without. induction l as [|x l IH]; simpl; [done|].
  destruct (String.eqb (id_of x) k) eqn:E; simpl; [done|]. by rewrite E.
Qed.

Lemma find_without_other (k k' : string) (l : list A) :
  k' ≠ k →
  find (λ c, String.eqb (id_of c) k') (without id_of k l)
  = find (λ c, String.eqb (id_of c) k') l.
Proof.
  intros Hk. unfold without. induction l as [|x l IH]; simpl; [done|].
  destruct (String.eqb (id_of x) k) eqn:E; simpl.
  - apply String.eqb_eq in E.
    by assert (String.eqb (id_of x) k' = false) as -> by (apply String.eqb_neq; congruence).
  - by rewrite IH.
Qed.

End Upsert.

Lemma on_store_save {W : Type} (B : Backend W) (newConfig : Config.AppConfig)
    (s : State) (y : Sys W) :
  on_store (ConfigStore.saveConfig B newConfig) s y
  = match do_save_config B newConfig (world y) with
    | (Ok _, w') =>
        (tt, mkState (ConfigStore.mkState newConfig (ConfigStore.loading (store s))
                        (ConfigStore.error (store s)))
                     (selectedConnId s) (connectionStatus s),
         mkSys w' (trace y ++ [ECall (save_config newConfig)]))
    | (Err err, w') =>
        (tt, mkState (ConfigStore.mkState (config s) (ConfigStore.loading (store s))
                        (Some err))
                     (selectedConnId s) (connectionStatus s),
         mkSys w' (trace y ++ [ECall (save_config newConfig)]))
    end.
Proof.
  unfold on_store, ConfigStore.saveConfig, bind, invoke, modify. simpl.
  by destruct (do_save_config B newConfig (world y)) as [[u|err] w'].
Qed.

End ShellFacts.

(** X19. Saving a connection sends one [save_config] whose list holds the
    connection in place of the first entry with its id, or at the end when
    no entry has its id: the list of ids is the old one, or the old one
    with the new id appended, a lookup of the id finds the saved
    connection, and lookups of other ids find what they found before. The
    configuration in memory becomes the one sent when the backend accepts
    it and stays as it was when it refuses; the selection and the status
    are not touched. *)
Theorem saving_replaces_by_id_or_appends {W : Type} (B : Backend W)
    (conn : Config.FtpConnection) (s : Shell.State) (y : Sys W) :
  let old := Config.ftp_connections (Shell.config s) in
  let new := Shell.upsert Config.id conn old in
  let sent := Config.mkAppConfig new (Config.cloud_connections (Shell.config s)) in
  let r := Shell.handleSaveFtp B conn s y in
  map Config.id new
  = (if bool_decide (Config.id conn ∈ map Config.id old) then map Config.id old
     else map Config.id old ++ [Config.id conn]) ∧
  Shell.find (λ c, String.eqb (Config.id c) (Config.id conn)) new = Some conn ∧
  (∀ k, k ≠ Config.id conn →
        Shell.find (λ c, String.eqb (Config.id c) k) new
        = Shell.find (λ c, String.eqb (Config.id c) k) old) ∧
  trace (final_sys r) = trace y ++ [ECall (save_config sent)] ∧
  Shell.config (final_state r)
  = match fst (do_save_config B sent (world y)) with
    | Ok _ => sent
    | Err _ => Shell.config s
    end ∧
  Shell.selectedConnId (final_state r) = Shell.selectedConnId s ∧
  Shell.connectionStatus (final_state r) = Shell.connectionStatus s ∧
  (∀ cloud : Config.CloudConnection,
      let new' := Shell.upsert Config.cloud_id cloud
                    (Config.cloud_connections (Shell.config s)) in
      Shell.find (λ c, String.eqb (Config.cloud_id c) (Config.cloud_id cloud)) new'
      = Some cloud ∧
      trace (final_sys (Shell.handleSaveCloud B cloud s y))
      = trace y ++ [ECall (save_config (Config.mkAppConfig old new'))]).
Proof.
  intros old new sent r. subst r sent new old. split_and!.
  - apply ShellFacts.ids_of_upsert.
  - apply ShellFacts.find_upsert_same.
  - intros k Hk. by apply ShellFacts.find_upsert_other.
  - unfold Shell.handleSaveFtp, bind, read. rewrite ShellFacts.on_store_save.
    by destruct (do_save_config B _ (world y)) as [[u|err] w'].
  - unfold Shell.handleSaveFtp, bind, read. rewrite ShellFacts.on_store_save.
    by destruct (do_save_config B _ (world y)) as [[u|err] w'].
  - unfold Shell.handleSaveFtp, bind, read. rewrite ShellFacts.on_store_save.
    by destruct (do_save_config B _ (world y)) as [[u|err] w'].
  - unfold Shell.handleSaveFtp, bind, read. rewrite ShellFacts.on_store_save.
    by destruct (do_save_config B _ (world y)) as [[u|err] w'].
  - intros cloud new'. subst new'. split; [apply ShellFacts.find_upsert_same|].
    unfold Shell.handleSaveCloud, bind, read. rewrite ShellFacts.on_store_save.
    by destruct (do_save_config B _ (world y)) as [[u|err] w'].
Qed.

(** X20. Deleting a connection clears the selection when the connection
    deleted is the selected one, before the save and whether or not the
    save succeeds, and then sends one [save_config] without the entries of
    that id in the list named. When the save succeeds no lookup finds the
    id in that list any more, lookups of other ids are as before, the list
    left is a sublist of the old one and the other list is untouched; when
    it fails the configuration in memory keeps the connection. For a cloud
    connection the same is done to the other list. *)
Theorem deleting_clears_the_selection_first {W : Type} (B : Backend W)
    (id : string) (s : Shell.State) (y : Sys W) :
  let old := Config.ftp_connections (Shell.config s) in
  let left := Shell.without Config.id id old in
  let sent := Config.mkAppConfig left (Config.cloud_connections (Shell.config s)) in
  let r := Shell.handleDeleteConn B id true s y in
  Shell.selectedConnId (final_state r)
  = (if bool_decide (Shell.selectedConnId s = Some id) then None
     else Shell.selectedConnId s) ∧
  (Shell.selectedConnId s = Some id → Shell.selectedFtpConn (final_state r) = None) ∧
  trace (final_sys r) = trace y ++ [ECall (save_config sent)] ∧
  Shell.config (final_state r)
  = match fst (do_save_config B sent (world y)) with
    | Ok _ => sent
    | Err _ => Shell.config s
    end ∧
  Shell.find (λ c, String.eqb (Config.id c) id) left = None ∧
  (∀ k, k ≠ id →
        Shell.find (λ c, String.eqb (Config.id c) k) left
        = Shell.find (λ c, String.eqb (Config.id c) k) old) ∧
  sublist left old ∧
  trace (final_sys (Shell.handleDeleteConn B id false s y))
  = trace y ++ [ECall (save_config
                         (Config.mkAppConfig old
                            (Shell.without Config.cloud_id id
                               (Config.cloud_connections (Shell.config s)))))].
Proof.
  intros old left sent r. subst r sent left old.
  assert (∀ s0 : Shell.State,
            Shell.config s0 = Shell.config s →
            let r := Shell.on_store (ConfigStore.saveConfig B
                       (Config.mkAppConfig
                          (Shell.without Config.id id (Config.ftp_connections (Shell.config s)))
                          (Config.cloud_connections (Shell.config s)))) s0 y in
            Shell.selectedConnId (final_state r) = Shell.selectedConnId s0 ∧
            trace (final_sys r)
            = trace y ++ [ECall (save_config (Config.mkAppConfig
                  (Shell.without Config.id id (Config.ftp_connections (Shell.config s)))
                  (Config.cloud_connections (Shell.config s))))] ∧
            Shell.config (final_state r)
            = match fst (do_save_config B (Config.mkAppConfig
                    (Shell.without Config.id id (Config.ftp_connections (Shell.config s)))
                    (Config.cloud_connections (Shell.config s))) (world y)) with
              | Ok _ => Config.mkAppConfig
                    (Shell.without Config.id id (Config.ftp_connections (Shell.config s)))
                    (Config.cloud_connections (Shell.config s))
              | Err _ => Shell.config s
              end) as Hsave.
  { intros s0 H0 r. subst r. rewrite ShellFacts.on_store_save.
    destruct (do_save_config B _ (world y)) as [[u|err] w']; cbn; by rewrite ?H0. }
  assert (Shell.handleDeleteConn B id true s y
          = Shell.on_store (ConfigStore.saveConfig B
              (Config.mkAppConfig
                 (Shell.without Config.id id (Config.ftp_connections (Shell.config s)))
                 (Config.cloud_connections (Shell.config s))))
              (if bool_decide (Shell.selectedConnId s = Some id)
               then Shell.setSelectedConnId None s else s) y) as ->.
  { unfold Shell.handleDeleteConn, bind, read, modify, ret.
    by destruct (bool_decide (Shell.selectedConnId s = Some id)). }
  destruct (Hsave (if bool_decide (Shell.selectedConnId s = Some id)
                   then Shell.setSelectedConnId None s else s)) as (Hsel & Htr & Hcfg).
  { by destruct (bool_decide (Shell.selectedConnId s = Some id)). }
  split_and!.
  - rewrite Hsel. by destruct (bool_decide (Shell.selectedConnId s = Some id)).
  - intros Hs. unfold Shell.selectedFtpConn. rewrite Hsel.
    by rewrite bool_decide_true.
  - done.
  - done.
  - apply ShellFacts.find_without_same.
  - intros k Hk. by apply ShellFacts.find_without_other.
  - apply filter_sublist.
  - clear. unfold Shell.handleDeleteConn, bind, read, modify, ret.
    destruct (bool_decide (Shell.selectedConnId s = Some id));
      rewrite ShellFacts.on_store_save;
      by destruct (do_save_config B _ (world y)) as [[u|err] w'].
Qed.

Lemma deleting_clears_the_selection_first_witness :
  Shell.selectedFtpConn
    (final_state
       (Shell.handleDeleteConn (Examples.scripted false (λ _, false)) "f1" true
          (Shell.mkState
             (ConfigStore.mkState (Config.mkAppConfig [Examples.server] []) false None)
             (Some "f1") "Not Connected")
          Examples.start))
  = None.
Proof.
  apply (proj1 (proj2 (deleting_clears_the_selection_first
                         (Examples.scripted false (λ _, false)) "f1"
                         (Shell.mkState
                            (ConfigStore.mkState (Config.mkAppConfig [Examples.server] [])
                               false None)
                            (Some "f1") "Not Connected")
                         Examples.start))).
  reflexivity.
Defined.
(** ** Connecting and disconnecting *)

Lemma says_connected_of_error (err : string) :
  Shell.says_connected ("Error: " +:+ err) = Shell.says_connected err.
Proof. reflexivity. Qed.

(** X21. [handleConnect] contacts the backend only for an FTP selection:
    one [connect_ftp] with the stored host, port and user, the empty
    password when none is stored and plain FTP when [secure] is not set;
    the status becomes the backend's answer, or ["Error: "] and the error
    text. For a cloud selection it sets ["Connected to Cloud Storage"]
    without any command, and with nothing selected it does nothing.
    [handleDisconnect] always sends [disconnect_ftp], whatever is selected.
    After either, whether the shell counts as connected is decided by the
    wording of the text alone: a cloud selection always counts, and a
    failure counts as connected exactly when its error text contains
    ["connected"] or ["Connected"]. Neither touches the selection or the
    stored configuration. *)
Theorem connect_status_is_the_answer_text {W : Type} (O : OpBackend W)
    (s : Logged Shell.State) (y : Sys W) :
  let r := Shell.handleConnect O s y in
  let d := Shell.handleDisconnect O s y in
  match Shell.selectedFtpConn (inner s) with
  | Some c =>
      let o := connect_ftp (Config.host c) (Config.port c) (Config.username c)
                 (match Config.password c with Some p => p | None => "" end)
                 (match Config.secure c with Some b => b | None => false end) in
      ops (final_state r) = ops s ++ [o] ∧
      Shell.connectionStatus (inner (final_state r))
      = match fst (O o (world y)) with
        | Ok result => result
        | Err err => "Error: " +:+ err
        end ∧
      (∀ err, fst (O o (world y)) = Err err →
              Shell.says_connected (Shell.connectionStatus (inner (final_state r)))
              = Shell.says_connected err)
  | None =>
      ops (final_state r) = ops s ∧ final_sys r = y ∧
      match Shell.selectedCloudConn (inner s) with
      | Some _ =>
          Shell.connectionStatus (inner (final_state r)) = "Connected to Cloud Storage" ∧
          Shell.says_connected (Shell.connectionStatus (inner (final_state r))) = true
      | None => final_state r = s
      end
  end ∧
  ops (final_state d) = ops s ++ [disconnect_ftp] ∧
  Shell.connectionStatus (inner (final_state d))
  = match fst (O disconnect_ftp (world y)) with
    | Ok result => result
    | Err err => "Error: " +:+ err
    end ∧
  Shell.store (inner (final_state r)) = Shell.store (inner s) ∧
  Shell.selectedConnId (inner (final_state r)) = Shell.selectedConnId (inner s) ∧
  Shell.store (inner (final_state d)) = Shell.store (inner s) ∧
  Shell.selectedConnId (inner (final_state d)) = Shell.selectedConnId (inner s).
Proof.
  intros r d. subst r d. unfold Shell.handleConnect, Shell.handleDisconnect.
  run_handler.
  destruct (O disconnect_ftp (world y)) as [[dres|derr] dw] eqn:Ed; run_handler.
  all: destruct (Shell.selectedFtpConn (inner s)) as [c|] eqn:Ef; run_handler.
  all: try (assert ((if truthy (Config.password c) then default "" (Config.password c) else "")
                    = match Config.password c with Some p => p | None => "" end) as ->
              by (by destruct (Config.password c) as [[|??]|]);
            change (default false (Config.secure c))
              with (match Config.secure c with Some b => b | None => false end);
            destruct (O (connect_ftp _ _ _ _ _) (world y)) as [[res|err] w'] eqn:Ec;
            run_handler; split_and!; try done; by intros ? [= <-]).
  all: destruct (Shell.selectedCloudConn (inner s)) as [cc|]; run_handler;
    split_and!; try done; by rewrite ?OpFacts.logged_eta.
Qed.

(** ** The connection form *)

(** X22. What the form hands over on submit. The connection's name is
    never empty: an empty name field is replaced by [host:port]. When an
    existing connection with a non-empty id is edited the id is kept,
    otherwise the time stamp is the id. An empty password field is stored
    as no password. Saving an edited connection that is in the list
    therefore replaces it: the list keeps its ids and its length. *)
Theorem form_keeps_the_id_and_fills_in_the_name (editingFtp : option Config.FtpConnection)
    (stamp : string) (f : Modal.Form) :
  let conn := Modal.ftp_of_form editingFtp stamp f in
  Config.name conn ≠ "" ∧
  (Modal.name f ≠ "" → Config.name conn = Modal.name f) ∧
  Config.password conn ≠ Some "" ∧
  (Modal.password f ≠ "" → Config.password conn = Some (Modal.password f)) ∧
  (editingFtp = None → Config.id conn = stamp) ∧
  (∀ (c : Config.FtpConnection) (l : list Config.FtpConnection),
      editingFtp = Some c → Config.id c ≠ "" →
      Config.id conn = Config.id c ∧
      (c ∈ l →
       map Config.id (Shell.upsert Config.id conn l) = map Config.id l ∧
       length (Shell.upsert Config.id conn l) = length l)) ∧
  (∀ editingCloud : option CloudConnection,
      account_name (Modal.cloud_of_form editingCloud stamp f) ≠ "" ∧
      (Modal.accountName f ≠ "" →
       account_name (Modal.cloud_of_form editingCloud stamp f) = Modal.accountName f)).
Proof.
  intros conn. subst conn. unfold Modal.ftp_of_form. cbn [Config.name Config.password Config.id].
  split_and!.
  - destruct (Modal.name f) as [|a n]; cbn [truthy]; [|done].
    by destruct (Modal.host f).
  - by destruct (Modal.name f).
  - by destruct (Modal.password f).
  - by destruct (Modal.password f).
  - by intros ->.
  - intros c l -> Hid.
    assert ((if truthy (Config.id <$> Some c) then default "" (Config.id <$> Some c)
             else stamp) = Config.id c) as Hkeep.
    { simpl. by destruct (Config.id c). }
    split; [done|]. intros Hin.
    assert (map Config.id (Shell.upsert Config.id
              (Config.mkFtpConnection
                 (if truthy (Config.id <$> Some c) then default "" (Config.id <$> Some c)
                  else stamp)
                 (if truthy (Some (Modal.name f)) then Modal.name f
                  else Modal.host f +:+ ":" +:+ pretty (Modal.port f))
                 (Modal.host f) (Modal.port f) (Modal.username f)
                 (if truthy (Some (Modal.password f)) then Some (Modal.password f) else None)
                 (Some (Modal.secure f))) l) = map Config.id l) as Hids.
    { rewrite ShellFacts.ids_of_upsert. cbn [Config.id]. rewrite Hkeep.
      rewrite bool_decide_true; [done|]. apply list_elem_of_fmap. by exists c. }
    split; [done|].
    apply (f_equal length) in Hids. by rewrite !length_map in Hids.
  - intros editingCloud. unfold Modal.cloud_of_form. cbn [account_name]. split.
    + destruct (Modal.accountName f) as [|a n]; cbn [truthy]; [|done].
      by destruct (Modal.provider f).
    + by destruct (Modal.accountName f).
Qed.

Lemma form_keeps_the_id_and_fills_in_the_name_witness :
  Config.name (Modal.ftp_of_form None "1700000000000"
                 (Modal.mkForm "nas" "nas.local" 21 "me" "" false "google" "" ""))
  = "nas".
Proof.
  apply (proj1 (proj2 (form_keeps_the_id_and_fills_in_the_name None "1700000000000"
                         (Modal.mkForm "nas" "nas.local" 21 "me" "" false "google" "" "")))).
  discriminate.
Defined.

(** ** Loading the configuration *)

(** X23. [loadConfig] asks the backend once and always ends with
    [loading] off. It forgets the error of an earlier call before it asks,
    so an error left behind by a failed save is cleared by the next load
    that succeeds: afterwards the error is set exactly when this call
    failed. The configuration in memory is replaced only by a configuration
    that was loaded. *)
Theorem loadConfig_clears_the_error_and_stops_loading {W : Type} (B : Backend W)
    (s : ConfigStore.State) (y : Sys W) :
  let r := ConfigStore.loadConfig B s y in
  trace (final_sys r) = trace y ++ [ECall load_config] ∧
  ConfigStore.loading (final_state r) = false ∧
  match fst (do_load_config B (world y)) with
  | Ok cfg => ConfigStore.config (final_state r) = cfg ∧
              ConfigStore.error (final_state r) = None
  | Err err => ConfigStore.config (final_state r) = ConfigStore.config s ∧
               ConfigStore.error (final_state r) = Some err
  end.
Proof.
  intros r. subst r. split_and!.
  - unfold ConfigStore.loadConfig, bind, invoke, modify. simpl.
    by destruct (do_load_config B (world y)) as [[cfg|err] w'].
  - unfold ConfigStore.loadConfig, bind, invoke, modify. simpl.
    by destruct (do_load_config B (world y)) as [[cfg|err] w'].
  - unfold ConfigStore.loadConfig, bind, invoke, modify. simpl.
    by destruct (do_load_config B (world y)) as [[cfg|err] w'].
Qed.
(** ** The progress machinery, continued *)

Module TimerFacts.
Import App.

Lemma run_app (s : State) (a b : list Input) : run s (a ++ b) = run (run s a) b.
Proof. apply foldl_app. Qed.

(** A timer stays armed until it is due. *)
Lemma timer_persists (d : nat) (id : string) (inputs : list Input) :
  ∀ s : State,
    (d, id) ∈ timers s → now s + elapsed inputs < d → (d, id) ∈ timers (run s inputs).
Proof.
  induction inputs as [|i inputs IH]; intros s Hin Ht; [done|].
  rewrite ProgressFacts.elapsed_cons in Ht. unfold run. cbn [foldl]. apply IH.
  - destruct i as [q|dt]; cbn [step].
    + apply ProgressFacts.progress_timers. by left.
    + apply ProgressFacts.advance_timers. split; [done|lia].
  - destruct i as [q|dt]; cbn [step];
      [by rewrite ProgressFacts.now_progress | rewrite ProgressFacts.now_advance; lia].
Qed.

Lemma refreshKey_step (s : State) (i : Input) :
  refreshKey (step s i)
  = match i with
    | Progress p => if String.eqb (status p) "complete" then S (refreshKey s) else refreshKey s
    | Elapse _ => refreshKey s
    end.
Proof.
  destruct i as [p|dt]; cbn [step].
  - unfold onTransferProgress. by destruct (String.eqb (status p) "complete").
  - unfold advance. cbn [refreshKey]. apply ProgressFacts.fire_all_frame.
Qed.

End TimerFacts.

(** X24. The clean-up timer of a finished transfer is never cancelled. When
    a new progress event for the same id arrives before the timer is due,
    the timer still fires at its time and removes the record that the new
    event stored, however recent that record is and whatever its status:
    once five seconds have passed since the ["complete"] event, with no
    event for the id after the new one, the id is gone from the queue. *)
Theorem older_timer_removes_a_newer_record (s : App.State) (p q : TransferProgress)
    (before after : list App.Input) :
  status p = "complete" → transfer_id q = transfer_id p →
  Forall (λ i, App.concerns (transfer_id p) i = false) after →
  App.elapsed before < App.cleanup_delay →
  App.cleanup_delay ≤ App.elapsed before + App.elapsed after →
  let arrived := App.run (App.onTransferProgress p s) (before ++ [App.Progress q]) in
  App.activeTransfers arrived !! transfer_id p = Some q ∧
  App.activeTransfers (App.run arrived after) !! transfer_id p = None.
Proof.
  intros Hc Hq Hafter Hb Ha arrived. subst arrived.
  rewrite TimerFacts.run_app.
  set (s1 := App.onTransferProgress p s).
  set (s2 := App.run s1 before).
  assert ((App.now s + App.cleanup_delay, transfer_id p) ∈ App.timers s2) as Hin.
  { apply TimerFacts.timer_persists.
    - apply ProgressFacts.progress_timers. by right.
    - subst s1. rewrite ProgressFacts.now_progress. lia. }
  assert (App.now s2 = App.now s + App.elapsed before) as Hnow.
  { subst s2 s1. by rewrite ProgressFacts.now_run, ProgressFacts.now_progress. }
  change (App.run s2 [App.Progress q]) with (App.onTransferProgress q s2).
  split.
  - rewrite ProgressFacts.progress_lookup. by rewrite decide_True.
  - destruct (ProgressFacts.gone_or_pending_run (transfer_id p)
                (App.now s + App.cleanup_delay) after
                (App.onTransferProgress q s2) Hafter) as [H|(d & _ & Hlt & Hle)].
    + right. exists (App.now s + App.cleanup_delay).
      rewrite ProgressFacts.now_progress, Hnow. split_and!; [|lia|done].
      apply ProgressFacts.progress_timers. by left.
    + done.
    + rewrite ProgressFacts.now_run, ProgressFacts.now_progress, Hnow in Hlt. lia.
Qed.

Lemma older_timer_removes_a_newer_record_witness :
  App.activeTransfers
    (App.run
       (App.run (App.onTransferProgress (mkTransferProgress "t1" "a.txt" 10 10 "complete")
                   (App.initial "C:\home"))
          ([App.Elapse 4000]
           ++ [App.Progress (mkTransferProgress "t1" "a.txt" 1 10 "in-progress")]))
       [App.Elapse 1000])
    !! "t1"
  = None.
Proof.
  apply (older_timer_removes_a_newer_record (App.initial "C:\home")
           (mkTransferProgress "t1" "a.txt" 10 10 "complete")
           (mkTransferProgress "t1" "a.txt" 1 10 "in-progress")
           [App.Elapse 4000] [App.Elapse 1000]).
  - reflexivity.
  - reflexivity.
  - repeat constructor.
  - unfold App.cleanup_delay. simpl. lia.
  - unfold App.cleanup_delay. simpl. lia.
Defined.

(** X25. The refresh token counts finished transfers: over any sequence of
    progress events and passing time it grows by one for each event whose
    status is ["complete"], and by nothing else; timers that fire do not
    touch it. *)
Theorem refresh_token_counts_completions (inputs : list App.Input) (s : App.State) :
  App.refreshKey (App.run s inputs) = App.refreshKey s + completions inputs.
Proof.
  revert s; induction inputs as [|i inputs IH]; intros s.
  - simpl. unfold completions. simpl. lia.
  - unfold App.run. cbn [foldl]. fold (App.run (App.step s i) inputs).
    rewrite IH, TimerFacts.refreshKey_step. unfold completions. cbn [List.filter].
    destruct i as [p|dt]; [destruct (String.eqb (status p) "complete")|]; simpl; lia.
Qed.

(** X26. A native drop of [n] paths logs two lines for each path, a start
    line and a line for the outcome, and bumps the refresh token once when
    [n] is not zero; an empty drop leaves no trace. Nothing else of the
    shell's state changes. *)
Theorem native_drop_logs_two_lines_per_path {W : Type} (B : Backend W)
    (paths : list string) (s : App.State) (y : Sys W) :
  let r := App.onDragDrop B paths s y in
  length (msgs_of (trace (final_sys r))) = length (msgs_of (trace y)) + 2 * length paths ∧
  final_state r = match paths with [] => s | _ => App.setRefreshKey S s end ∧
  (paths = [] → r = (tt, s, y)).
Proof.
  intros r. subst r.
  assert (∀ (ps : list string) (s1 : App.State) (y1 : Sys W),
            final_state (for_each ps (App.drop_one B s) s1 y1) = s1 ∧
            length (msgs_of (trace (final_sys (for_each ps (App.drop_one B s) s1 y1))))
            = length (msgs_of (trace y1)) + 2 * length ps) as Hall.
  { induction ps as [|p ps IH]; intros s1 y1.
    - simpl. split; [done|lia].
    - cbn [for_each]. unfold bind.
      destruct (AppFacts.drop_one_run B s p s1 y1) as (w' & m1 & m2 & ->).
      destruct (IH s1 (mkSys w' (trace y1 ++ [EMsg m1; ECall (App.route s p); EMsg m2])))
        as [Hs Hm].
      split; [done|]. rewrite Hm. cbn [trace]. rewrite msgs_of_app, length_app.
      simpl. lia. }
  unfold App.onDragDrop, bind, read. destruct paths as [|p ps].
  - split_and!; [simpl; lia|done|done].
  - destruct (Hall (p :: ps) s y) as [Hs Hm].
    destruct (for_each (p :: ps) (App.drop_one B s) s y) as [[[] s'] y'] eqn:E.
    cbn [final_state final_sys fst snd] in *. subst s'. unfold modify.
    cbn [final_state final_sys fst snd]. split_and!; [done|done|done].
Qed.

(** ** An FTP pane *)

(** X27. An FTP pane computes no path of its own. Opening an entry lists
    the entry's name and going up lists [..]; when the listing arrives the
    pane asks the server where it is, and the path shown is the server's
    answer. The breadcrumb stack of the cloud mode is never touched. *)
Theorem ftp_pane_shows_the_path_the_server_reports {W : Type} (B : Backend W)
    (path dirName : option string) (s : RemoteFileTree.State) (y : Sys W)
    (files : list RemoteEntry.t) (pwd : string) (w1 w2 : W) :
  do_list_remote_directory B path (world y) = (Ok files, w1) →
  do_get_remote_pwd B w1 = (Ok pwd, w2) →
  let r := RemoteFileTree.loadRemoteDir B None (RemoteFileTree.pathStack s) path dirName s y in
  final_sys r
  = mkSys w2 (trace y ++ [ECall (list_remote_directory path); ECall get_remote_pwd]) ∧
  RemoteFileTree.entries (final_state r) = files ∧
  RemoteFileTree.remotePath (final_state r) = pwd ∧
  RemoteFileTree.currentRemotePath (final_state r) = pwd ∧
  RemoteFileTree.error (final_state r) = None ∧
  RemoteFileTree.loading (final_state r) = false ∧
  RemoteFileTree.pathStack (final_state r) = RemoteFileTree.pathStack s ∧
  (∀ e, RemoteFileTree.navigateTo B None e s y
        = RemoteFileTree.loadRemoteDir B None (RemoteFileTree.pathStack s)
            (Some (RemoteEntry.name e)) None s y) ∧
  RemoteFileTree.goUp B None s y
  = RemoteFileTree.loadRemoteDir B None (RemoteFileTree.pathStack s) (Some "..") None s y.
Proof.
  intros H1 H2 r. subst r. rewrite RemoteFacts.loadRemoteDir_ftp. cbv zeta.
  rewrite H1, H2. cbn [final_state final_sys fst snd]. split_and!; done.
Qed.

Lemma ftp_pane_shows_the_path_the_server_reports_witness :
  RemoteFileTree.remotePath
    (final_state
       (RemoteFileTree.loadRemoteDir (Examples.scripted true (λ _, false)) None
          (RemoteFileTree.pathStack (Examples.remote [] [])) (Some "docs") None
          (Examples.remote [] []) Examples.start))
  = "/".
Proof.
  apply (ftp_pane_shows_the_path_the_server_reports (Examples.scripted true (λ _, false))
           (Some "docs") None (Examples.remote [] []) Examples.start [] "/" tt tt);
    reflexivity.
Defined.

(** ** A drop on the local pane *)

Lemma copies_keep_the_state {W : Type} (B : Backend W) (cp : string)
    (fs : list DroppedFile) :
  ∀ (s1 : FileTree.State) (y1 : Sys W),
    final_state (for_each fs (FileTree.copy_one B cp) s1 y1) = s1.
Proof.
  induction fs as [|f fs IH]; intros s1 y1; [done|].
  cbn [for_each]. unfold bind.
  assert (∃ y2, FileTree.copy_one B cp f s1 y1 = (tt, s1, y2)) as [y2 ->].
  { unfold FileTree.copy_one, bind, emit, invoke. destruct (truthy (file_path f)).
    - cbn [world trace].
      destruct (do_copy_to_local B _ _ (world y1)) as [[res|err] w']; by eexists.
    - by eexists. }
  apply IH.
Qed.

(** X28. A drop on the local pane with no file in it logs its two debug
    lines and contacts no backend. A drop with files copies each file that
    has a path into the current directory, in drop order, and then lists
    the current directory once, and the tree becomes what that listing
    gave. Either way the drag highlight is switched off and the current
    path stays. *)
Theorem local_drop_copies_then_lists_once {W : Type} (B : Backend W)
    (files : list DroppedFile) (s : FileTree.State) (y : Sys W) :
  let r := FileTree.handleDrop B files s y in
  (files = [] →
   r = (tt, FileTree.setDragging false s,
        mkSys (world y)
              (trace y ++ [EMsg "DEBUG: Local handleDrop event detected";
                           EMsg "DEBUG: Local files count: 0"]))) ∧
  (files ≠ [] →
   calls_of (trace (final_sys r))
   = calls_of (trace y)
     ++ map (λ f, copy_to_local (default "" (file_path f)) (FileTree.currentPath s))
            (List.filter (λ f, truthy (file_path f)) files)
     ++ [list_directory (FileTree.currentPath s)] ∧
   ∃ y1 : Sys W,
     FileTree.tree (final_state r)
     = match fst (do_list_directory B (FileTree.currentPath s) (world y1)) with
       | Ok es => map FileTree.fresh es
       | Err _ => []
       end) ∧
  FileTree.dragging (final_state r) = false ∧
  FileTree.currentPath (final_state r) = FileTree.currentPath s.
Proof.
  intros r.
  assert (files ≠ [] →
          ∃ y1 : Sys W,
            final_state r
            = FileTree.setTree
                (λ _, match fst (do_list_directory B (FileTree.currentPath s) (world y1)) with
                      | Ok es => map FileTree.fresh es
                      | Err _ => []
                      end)
                (match fst (do_list_directory B (FileTree.currentPath s) (world y1)) with
                 | Ok _ => FileTree.setError None (FileTree.setDragging false s)
                 | Err err => FileTree.setError (Some err)
                                (FileTree.setError None (FileTree.setDragging false s))
                 end)) as Hstate.
  { intros Hne. subst r. destruct files as [|f fs]; [done|].
    unfold FileTree.handleDrop, bind, read, emit, modify, ret. cbn [world trace].
    match goal with
    | |- context [for_each ?l ?b ?s1 ?y1] =>
        pose proof (copies_keep_the_state B (FileTree.currentPath s) l s1 y1) as Hall;
        destruct (for_each l b s1 y1) as [[[] s2] y2]
    end.
    cbn [final_state fst snd] in Hall. subst s2. exists y2.
    rewrite FileTreeFacts.loadDir_run.
    by destruct (do_list_directory B _ (world y2)) as [[es|err] w']. }
  split_and!.
  - intros ->. subst r. unfold FileTree.handleDrop, bind, read, emit, modify, ret.
    cbn [world trace]. by rewrite <- app_assoc.
  - intros Hne. split; [apply (local_drop_copies B files s y Hne)|].
    destruct (Hstate Hne) as [y1 ->]. by exists y1.
  - destruct files as [|f fs]; [done|]. destruct (Hstate) as [y1 ->]; [done|].
    by destruct (fst (do_list_directory B _ (world y1))).
  - destruct files as [|f fs]; [done|]. destruct (Hstate) as [y1 ->]; [done|].
    by destruct (fst (do_list_directory B _ (world y1))).
Qed.

Lemma local_drop_copies_then_lists_once_witness :
  calls_of (trace (final_sys
     (FileTree.handleDrop (Examples.scripted true (String.eqb "C:\in\b.txt"))
        [Examples.dropped "a.txt"; mkDroppedFile "nopath.txt" None; Examples.dropped "b.txt"]
        (Examples.local []) Examples.start)))
  = [] ++ [copy_to_local "C:\in\a.txt" "C:\home"; copy_to_local "C:\in\b.txt" "C:\home"]
       ++ [list_directory "C:\home"].
Proof.
  apply (proj1 (proj2 (local_drop_copies_then_lists_once
                         (Examples.scripted true (String.eqb "C:\in\b.txt"))
                         [Examples.dropped "a.txt"; mkDroppedFile "nopath.txt" None;
                          Examples.dropped "b.txt"]
                         (Examples.local []) Examples.start))).
  discriminate.
Defined.
